(** * bard-rag: the Shakespeare segmentation pipeline of the ingestion script

    A shallow embedding of the text-processing core of the ingestion script
    (line classifiers, [splitLargeChunk], [processShakespeareText],
    [cleanChunks]) together with the properties that its specification
    states about it.

    JavaScript strings are sequences of UTF-16 code units; they are modelled
    as lists of code units ([N]), so that [length] is the [.length] of the
    script.  Literals of the script are written with [lit]. *)

From Stdlib Require Import String Ascii DecimalString.
From Stdlib Require Import List NArith Arith Bool Lia.
Import ListNotations.

(** ** JavaScript strings *)

Module Js.

Definition jsstring := list N.

(** An ASCII literal of the script as a sequence of code units. *)
Definition lit (s : string) : jsstring :=
  map N_of_ascii (list_ascii_of_string s).
Arguments lit s%_string.

Definition eqb (a b : jsstring) : bool :=
  if list_eq_dec N.eq_dec a b then true else false.

(** Truthiness of a string value: the empty string is falsy. *)
Definition nonempty (s : jsstring) : bool :=
  match s with [] => false | _ :: _ => true end.

(** Truthiness of a value that is either [null] or a string. *)
Definition truthy (v : option jsstring) : bool :=
  match v with None => false | Some s => nonempty s end.

(** The code units that [\s] matches and that [String.prototype.trim]
    removes: WhiteSpace and LineTerminator of ECMAScript. *)
Definition is_space (c : N) : bool :=
  ((9 <=? c) && (c <=? 13) || (c =? 32) || (c =? 160) || (c =? 5760)
   || (8192 <=? c) && (c <=? 8202) || (c =? 8232) || (c =? 8233)
   || (c =? 8239) || (c =? 8287) || (c =? 12288) || (c =? 65279))%N.

Arguments is_space c : simpl never.

(** LineTerminator: what [.] does not match. *)
Definition is_line_terminator (c : N) : bool :=
  ((c =? 10) || (c =? 13) || (c =? 8232) || (c =? 8233))%N.

Fixpoint dropWhile (p : N -> bool) (s : jsstring) : jsstring :=
  match s with
  | [] => []
  | c :: t => if p c then dropWhile p t else s
  end.

Definition trimStart (s : jsstring) : jsstring := dropWhile is_space s.
Definition trimEnd (s : jsstring) : jsstring := rev (dropWhile is_space (rev s)).

(** [s.trim()] *)
Definition trim (s : jsstring) : jsstring := trimEnd (trimStart s).

(** [s.startsWith(p)] *)
Fixpoint startsWith (s p : jsstring) : bool :=
  match p, s with
  | [], _ => true
  | _ :: _, [] => false
  | a :: p', b :: s' => (a =? b)%N && startsWith s' p'
  end.

(** [s.includes(p)] *)
Fixpoint includes (s p : jsstring) : bool :=
  startsWith s p ||
  match s with
  | [] => false
  | _ :: t => includes t p
  end.

(** [s.split(sep)] for a separator of one code unit: the current piece and
    the pieces after it. *)
Fixpoint split_on (sep : N) (s : jsstring) : jsstring * list jsstring :=
  match s with
  | [] => ([], [])
  | c :: t =>
      let (h, r) := split_on sep t in
      if (c =? sep)%N then ([], h :: r) else (c :: h, r)
  end.

Definition split (sep : N) (s : jsstring) : list jsstring :=
  let (h, r) := split_on sep s in h :: r.

(** The decimal digits of a number, as template literals print it. *)
Definition decimal (n : nat) : jsstring :=
  lit (NilZero.string_of_uint (Nat.to_uint n)).

End Js.

Import Js.

(** ** Regular expressions

    A backtracking matcher for the fragment of regular expressions that the
    script uses.  [run r s] lists, in the order in which a backtracking
    engine tries them, the remainders of [s] after a match of [r] at its
    start. *)

Module Regex.

Inductive regex : Type :=
| Eps
| Cls (p : N -> bool)
| Cat (a b : regex)
| Alt (a b : regex)
| Star (a : regex)
| LazyPlus (a : regex).

(** Greedy iteration: one more round first, then stop.  A round that
    consumes nothing is rejected. *)
Fixpoint star_run (step : jsstring -> list jsstring) (fuel : nat)
    (s : jsstring) : list jsstring :=
  match fuel with
  | O => [s]
  | S f =>
      flat_map (fun s' => if length s' <? length s
                          then star_run step f s' else []) (step s)
      ++ [s]
  end.

(** Lazy iteration: stop first, then one more round. *)
Fixpoint lazy_run (step : jsstring -> list jsstring) (fuel : nat)
    (s : jsstring) : list jsstring :=
  match fuel with
  | O => [s]
  | S f =>
      s :: flat_map (fun s' => if length s' <? length s
                               then lazy_run step f s' else []) (step s)
  end.

Fixpoint run (r : regex) (s : jsstring) : list jsstring :=
  match r with
  | Eps => [s]
  | Cls p => match s with
             | c :: t => if p c then [t] else []
             | [] => []
             end
  | Cat a b => flat_map (run b) (run a s)
  | Alt a b => run a s ++ run b s
  | Star a => star_run (run a) (length s) s
  | LazyPlus a => flat_map (fun s' => lazy_run (run a) (length s') s') (run a s)
  end.

Definition Chr (c : N) : regex := Cls (N.eqb c).
Definition Plus (a : regex) : regex := Cat a (Star a).
Definition Opt (a : regex) : regex := Alt a Eps.

(** A literal word. *)
Fixpoint Word (w : jsstring) : regex :=
  match w with
  | [] => Eps
  | c :: t => Cat (Chr c) (Word t)
  end.

(** An alternation of literal words, [(w1|w2|...)]. *)
Fixpoint Words (ws : list jsstring) : regex :=
  match ws with
  | [] => Cls (fun _ => false)
  | [w] => Word w
  | w :: t => Alt (Word w) (Words t)
  end.

(** [/^r/.test(s)] *)
Definition test_prefix (r : regex) (s : jsstring) : bool :=
  match run r s with [] => false | _ :: _ => true end.

(** [/^r$/.test(s)] *)
Definition test_whole (r : regex) (s : jsstring) : bool :=
  existsb (fun rest => negb (nonempty rest)) (run r s).

(** [s.match(/^pre(grp)post$/)]: the text of the capture group of the first
    match that a backtracking engine finds, [None] when there is none. *)
Definition capture (pre grp post : regex) (s : jsstring) : option jsstring :=
  let tries :=
    flat_map (fun r1 =>
      flat_map (fun r2 =>
        if test_whole post r2
        then [firstn (length r1 - length r2) r1] else [])
        (run grp r1))
      (run pre s) in
  match tries with
  | [] => None
  | g :: _ => Some g
  end.

End Regex.

Import Regex.

(** ** The ingestion script *)

Module Ingest.

(** [shakespeareWorks]: the catalog of titles, in the order of the script. *)
Definition shakespeareWorks : list jsstring :=
  [ lit "THE SONNETS";
    lit "ALL'S WELL THAT ENDS WELL";
    lit "THE TRAGEDY OF ANTONY AND CLEOPATRA";
    lit "AS YOU LIKE IT";
    lit "THE COMEDY OF ERRORS";
    lit "THE TRAGEDY OF CORIOLANUS";
    lit "CYMBELINE";
    lit "THE TRAGEDY OF HAMLET, PRINCE OF DENMARK";
    lit "THE FIRST PART OF KING HENRY THE FOURTH";
    lit "THE SECOND PART OF KING HENRY THE FOURTH";
    lit "THE LIFE OF KING HENRY THE FIFTH";
    lit "THE FIRST PART OF HENRY THE SIXTH";
    lit "THE SECOND PART OF KING HENRY THE SIXTH";
    lit "THE THIRD PART OF KING HENRY THE SIXTH";
    lit "KING HENRY THE EIGHTH";
    lit "THE LIFE AND DEATH OF KING JOHN";
    lit "THE TRAGEDY OF JULIUS CAESAR";
    lit "THE TRAGEDY OF KING LEAR";
    lit "LOVE'S LABOUR'S LOST";
    lit "THE TRAGEDY OF MACBETH";
    lit "MEASURE FOR MEASURE";
    lit "THE MERCHANT OF VENICE";
    lit "THE MERRY WIVES OF WINDSOR";
    lit "A MIDSUMMER NIGHT'S DREAM";
    lit "MUCH ADO ABOUT NOTHING";
    lit "THE TRAGEDY OF OTHELLO, THE MOOR OF VENICE";
    lit "PERICLES, PRINCE OF TYRE";
    lit "KING RICHARD THE SECOND";
    lit "KING RICHARD THE THIRD";
    lit "THE TRAGEDY OF ROMEO AND JULIET";
    lit "THE TAMING OF THE SHREW";
    lit "THE TEMPEST";
    lit "THE LIFE OF TIMON OF ATHENS";
    lit "THE TRAGEDY OF TITUS ANDRONICUS";
    lit "TROILUS AND CRESSIDA";
    lit "TWELFTH NIGHT; OR, WHAT YOU WILL";
    lit "THE TWO GENTLEMEN OF VERONA";
    lit "THE TWO NOBLE KINSMEN";
    lit "THE WINTER'S TALE";
    lit "A LOVER'S COMPLAINT";
    lit "THE PASSIONATE PILGRIM";
    lit "THE PHOENIX AND THE TURTLE";
    lit "THE RAPE OF LUCRECE";
    lit "VENUS AND ADONIS" ].

(** *** Character classes of the script's regular expressions *)

(** [[A-Z]] *)
Definition is_upper (c : N) : bool := ((65 <=? c) && (c <=? 90))%N.
(** [[a-z]] *)
Definition is_lower (c : N) : bool := ((97 <=? c) && (c <=? 122))%N.
(** [\d] and [[0-9]] *)
Definition is_digit (c : N) : bool := ((48 <=? c) && (c <=? 57))%N.
(** [[a-zA-Z0-9]] *)
Definition is_alnum (c : N) : bool := is_lower c || is_upper c || is_digit c.
(** [[A-Z\s,'.-]] *)
Definition is_speaker_char (c : N) : bool :=
  (is_upper c || is_space c || (c =? 44) || (c =? 39) || (c =? 46) || (c =? 45))%N.
(** [[IVX]] *)
Definition is_IVX (c : N) : bool := ((c =? 73) || (c =? 86) || (c =? 88))%N.
(** [[.!?]] *)
Definition is_terminator (c : N) : bool := ((c =? 46) || (c =? 33) || (c =? 63))%N.
(** [.] *)
Definition is_dot (c : N) : bool := negb (is_line_terminator c).

Arguments is_terminator c : simpl never.

(** A backslash, and the letter [s]: what [\\s] denotes inside a regular
    expression literal (an escaped backslash followed by the letter). *)
Definition backslash : N := 92%N.
Definition letter_s : N := 115%N.
Definition backslash_s_star : regex := Cat (Chr backslash) (Star (Chr letter_s)).

(** *** isSpeakerLine *)

(** [nonSpeakers] *)
Definition nonSpeakers : list jsstring :=
  [ lit "ACT"; lit "SCENE"; lit "EPILOGUE"; lit "PROLOGUE"; lit "CHORUS";
    lit "CONTENTS"; lit "THE END"; lit "FINIS"; lit "DRAMATIS PERSONAE";
    lit "PERSONS REPRESENTED"; lit "INDUCTION"; lit "ARGUMENT"; lit "ENTER";
    lit "EXIT"; lit "EXEUNT"; lit "ALARUM"; lit "FLOURISH"; lit "SENNET";
    lit "HAUTBOYS"; lit "TRUMPETS"; lit "DRUMS";
    lit "SCENE I"; lit "SCENE II"; lit "SCENE III"; lit "SCENE IV"; lit "SCENE V";
    lit "ACT I"; lit "ACT II"; lit "ACT III"; lit "ACT IV"; lit "ACT V" ].

(** The group and the tail of [speakerPattern],
    [/^([A-Z][A-Z\s,'.-]+?)\.?\s*$/]. *)
Definition speakerGroup : regex := Cat (Cls is_upper) (LazyPlus (Cls is_speaker_char)).
Definition speakerTail : regex := Cat (Opt (Chr 46)) (Star (Cls is_space)).

(** [/^(ACT|SCENE|EPILOGUE|PROLOGUE|ENTER|EXIT|EXEUNT)/] *)
Definition markerWords : regex :=
  Words [ lit "ACT"; lit "SCENE"; lit "EPILOGUE"; lit "PROLOGUE"; lit "ENTER";
          lit "EXIT"; lit "EXEUNT" ].

(** [speaker.replace(/\.$/, '')] *)
Definition dropFinalPeriod (s : jsstring) : jsstring :=
  match rev s with
  | c :: t => if (c =? 46)%N then rev t else s
  | [] => s
  end.

Definition isValidSpeaker (speaker : jsstring) : bool :=
  (1 <? length speaker) &&
  (length speaker <? 50) &&
  negb (existsb (fun ns => startsWith speaker ns) nonSpeakers) &&
  negb (test_prefix markerWords speaker) &&
  negb (test_whole (Plus (Cls is_digit)) speaker) &&
  negb (includes speaker (lit "SCENE")) &&
  negb (includes speaker (lit "Contents")) &&
  negb (test_whole (Plus (Cls is_IVX)) speaker).

Definition isSpeakerLine (line : jsstring) : option jsstring :=
  let trimmedLine := trim line in
  match capture Eps speakerGroup speakerTail trimmedLine with
  | Some group1 =>
      let speaker := trim group1 in
      if isValidSpeaker speaker then Some (dropFinalPeriod speaker) else None
  | None => None
  end.

(** *** isSonnetNumber

    [sonnetPattern] is written [/^\\s*([0-9]+)\\s*$/] in the script: each
    [\\s*] is a backslash followed by any number of letters [s].  The
    result is the text of group 1 of the match ([sonnetMatch[1]], the only
    part of the match that the script reads), or [None] for [null]. *)
Definition isSonnetNumber (line : jsstring) : option jsstring :=
  capture backslash_s_star (Plus (Cls is_digit)) backslash_s_star (trim line).

(** *** countWords *)

(** [.replace(/\s+/g, ' ')] *)
Fixpoint collapse_spaces (skipping : bool) (s : jsstring) : jsstring :=
  match s with
  | [] => []
  | c :: t =>
      if is_space c
      then if skipping then collapse_spaces true t
           else 32%N :: collapse_spaces true t
      else c :: collapse_spaces false t
  end.

(** [.split(/\s+/)]: the current piece and the pieces after it. *)
Fixpoint split_spaces (skipping : bool) (s : jsstring) : jsstring * list jsstring :=
  match s with
  | [] => ([], [])
  | c :: t =>
      if is_space c
      then if skipping then split_spaces true t
           else ([], let (h, r) := split_spaces true t in h :: r)
      else let (h, r) := split_spaces false t in (c :: h, r)
  end.

Definition countWords (text : jsstring) : nat :=
  if negb (nonempty text) then 0
  else
    let (h, r) := split_spaces false (collapse_spaces false (trim text)) in
    length (filter (fun word => (0 <? length word) && existsb is_alnum word)
                   (h :: r)).

(** *** Chunks *)

Record Chunk : Type := mkChunk {
  id : nat;
  work : jsstring;
  speaker : option jsstring;
  text : jsstring
}.

(** *** splitLargeChunk *)

(** [text.split(/(?<=[.!?])\s+/)]: a separator is a maximal run of white
    space that follows a terminator.  [skipping] holds inside a separator,
    [after_term] when the previous code unit is a terminator.  The result
    is the current sentence and the sentences after it. *)
Fixpoint sentences_from (skipping after_term : bool) (s : jsstring)
    : jsstring * list jsstring :=
  match s with
  | [] => ([], [])
  | c :: t =>
      if is_space c then
        if skipping then sentences_from true false t
        else if after_term
             then ([], let (h, r) := sentences_from true false t in h :: r)
             else let (h, r) := sentences_from false false t in (c :: h, r)
      else
        let (h, r) := sentences_from false (is_terminator c) t in (c :: h, r)
  end.

Definition splitSentences (s : jsstring) : list jsstring :=
  let (h, r) := sentences_from false false s in h :: r.

(** The template literal [`${chunk.speaker} (Part ${partIndex})`]. *)
Definition partLabel (sp : jsstring) (partIndex : nat) : jsstring :=
  sp ++ lit " (Part " ++ decimal partIndex ++ lit ")".

(** [`${chunk.speaker} (Part ${partIndex})`] for a speaker that is a string. *)
Definition labelled (chunk : Chunk) (partIndex : nat) : option jsstring :=
  option_map (fun sp => partLabel sp partIndex) (speaker chunk).

(** [chunk.speaker ? `${chunk.speaker} (Part ${partIndex})` : chunk.speaker] *)
Definition sealedSpeaker (chunk : Chunk) (partIndex : nat) : option jsstring :=
  if truthy (speaker chunk) then labelled chunk partIndex else speaker chunk.

(** [chunk.speaker && partIndex > 1 ? `...` : chunk.speaker] *)
Definition finalSpeaker (chunk : Chunk) (partIndex : nat) : option jsstring :=
  if truthy (speaker chunk) && (1 <? partIndex)
  then labelled chunk partIndex else speaker chunk.

(** [{...chunk, text: ..., speaker: ...}] *)
Definition part (chunk : Chunk) (sp : option jsstring) (t : jsstring) : Chunk :=
  {| id := id chunk; work := work chunk; speaker := sp; text := t |}.

(** The loop over the sentences, then the final chunk. *)
Fixpoint splitLoop (chunk : Chunk) (maxSize : nat) (sentences : list jsstring)
    (chunks : list Chunk) (currentText : jsstring) (partIndex : nat)
    : list Chunk :=
  match sentences with
  | sentence :: rest =>
      if (maxSize <? length currentText + length sentence)
         && (0 <? length currentText)
      then splitLoop chunk maxSize rest
             (chunks ++ [part chunk (sealedSpeaker chunk partIndex) (trim currentText)])
             (sentence ++ lit " ") (S partIndex)
      else splitLoop chunk maxSize rest chunks
             (currentText ++ sentence ++ lit " ") partIndex
  | [] =>
      if nonempty (trim currentText)
      then chunks ++ [part chunk (finalSpeaker chunk partIndex) (trim currentText)]
      else chunks
  end.

Definition splitLargeChunkAt (maxSize : nat) (chunk : Chunk) : list Chunk :=
  if length (text chunk) <=? maxSize then [chunk]
  else splitLoop chunk maxSize (splitSentences (text chunk)) [] [] 1.

(** [splitLargeChunk(chunk)], with the default [maxSize = 800]. *)
Definition splitLargeChunk (chunk : Chunk) : list Chunk :=
  splitLargeChunkAt 800 chunk.

(** *** processShakespeareText *)

(** The variables of [processShakespeareText] that the loop updates. *)
Record State : Type := mkState {
  chunks : list Chunk;
  currentWork : jsstring;
  currentSpeaker : option jsstring;
  currentChunk : jsstring;
  chunkId : nat;
  inSonnets : bool;
  sonnetNumber : option jsstring;
  sonnetText : jsstring
}.

Definition initialState : State :=
  {| chunks := []; currentWork := lit "UNKNOWN"; currentSpeaker := None;
     currentChunk := []; chunkId := 0; inSonnets := false;
     sonnetNumber := None; sonnetText := [] |}.

(** [chunks.push(...cs)] together with [chunkId++]. *)
Definition pushChunks (st : State) (cs : list Chunk) : State :=
  {| chunks := chunks st ++ cs; currentWork := currentWork st;
     currentSpeaker := currentSpeaker st; currentChunk := currentChunk st;
     chunkId := S (chunkId st); inSonnets := inSonnets st;
     sonnetNumber := sonnetNumber st; sonnetText := sonnetText st |}.

(** The helper [saveCurrentChunk]. *)
Definition saveCurrentChunk (st : State) : State :=
  if nonempty (trim (currentChunk st)) then
    let chunk := {| id := chunkId st; work := currentWork st;
                    speaker := currentSpeaker st;
                    text := trim (currentChunk st) |} in
    pushChunks st (splitLargeChunk chunk)
  else st.

(** The template literal [`SONNET ${sonnetNumber}`]; [null] prints as
    [null]. *)
Definition sonnetLabel (sonnetNumber : option jsstring) : jsstring :=
  lit "SONNET " ++ match sonnetNumber with
                   | Some n => n
                   | None => lit "null"
                   end.

(** [chunks.push(sonnetChunk)] *)
Definition pushSonnet (st : State) : State :=
  pushChunks st [ {| id := chunkId st; work := currentWork st;
                     speaker := Some (sonnetLabel (sonnetNumber st));
                     text := trim (sonnetText st) |} ].

(** [shakespeareWorks.find(work => trimmedLine === work ||
    trimmedLine.includes(work))] *)
Definition findWork (trimmedLine : jsstring) : option jsstring :=
  find (fun work => eqb trimmedLine work || includes trimmedLine work)
       shakespeareWorks.

(** [/^(ACT|SCENE|EPILOGUE|PROLOGUE|ENTER|EXIT|EXEUNT|ALARUM|FLOURISH)/] *)
Definition stageWords : regex :=
  Words [ lit "ACT"; lit "SCENE"; lit "EPILOGUE"; lit "PROLOGUE"; lit "ENTER";
          lit "EXIT"; lit "EXEUNT"; lit "ALARUM"; lit "FLOURISH" ].

(** [/^\[.*\]$/] with single backslashes: a bracketed line. *)
Definition bracketed : regex :=
  Cat (Chr 91) (Cat (Star (Cls is_dot)) (Chr 93)).

(** The state at a work title, after the chunks in progress are saved. *)
Definition enterWork (st : State) (workMatch : jsstring) : State :=
  {| chunks := chunks st; currentWork := workMatch; currentSpeaker := None;
     currentChunk := []; chunkId := chunkId st;
     inSonnets := eqb workMatch (lit "THE SONNETS");
     sonnetNumber := None; sonnetText := [] |}.

Definition setSonnet (st : State) (num : option jsstring) (t : jsstring) : State :=
  {| chunks := chunks st; currentWork := currentWork st;
     currentSpeaker := currentSpeaker st; currentChunk := currentChunk st;
     chunkId := chunkId st; inSonnets := inSonnets st;
     sonnetNumber := num; sonnetText := t |}.

Definition setSpeech (st : State) (sp : option jsstring) (t : jsstring) : State :=
  {| chunks := chunks st; currentWork := currentWork st;
     currentSpeaker := sp; currentChunk := t;
     chunkId := chunkId st; inSonnets := inSonnets st;
     sonnetNumber := sonnetNumber st; sonnetText := sonnetText st |}.

(** One round of the loop over the lines.  Every title of the catalog is a
    non-empty string, so [if (workMatch)] holds exactly when [find] returns
    a title. *)
Definition step (st : State) (line : jsstring) : State :=
  let trimmedLine := trim line in
  if negb (nonempty trimmedLine) && negb (nonempty (currentChunk st)) then st
  else
    match findWork trimmedLine with
    | Some workMatch =>
        let st1 := saveCurrentChunk st in
        let st2 := if inSonnets st1 && nonempty (trim (sonnetText st1))
                   then pushSonnet st1 else st1 in
        enterWork st2 workMatch
    | None =>
        if inSonnets st then
          match isSonnetNumber trimmedLine with
          | Some group1 =>
              let st1 := if nonempty (trim (sonnetText st))
                         then pushSonnet st else st in
              setSonnet st1 (Some group1) []
          | None =>
              if truthy (sonnetNumber st) && nonempty trimmedLine
              then setSonnet st (sonnetNumber st)
                     (sonnetText st ++ line ++ [10%N])
              else st
          end
        else
          let speaker := isSpeakerLine trimmedLine in
          if truthy speaker then
            setSpeech (saveCurrentChunk st) speaker []
          else if test_prefix stageWords trimmedLine then st
          else if test_whole bracketed trimmedLine then st
          else if truthy (currentSpeaker st) && nonempty trimmedLine
          then setSpeech st (currentSpeaker st)
                 (currentChunk st ++ line ++ [10%N])
          else st
    end.

(** After the loop: the final chunk and the final sonnet. *)
Definition finish (st : State) : State :=
  let st1 := saveCurrentChunk st in
  if inSonnets st1 && nonempty (trim (sonnetText st1))
  then pushSonnet st1 else st1.

Definition processLines (st : State) (lines : list jsstring) : State :=
  fold_left step lines st.

Definition processShakespeareText (text : jsstring) : list Chunk :=
  chunks (finish (processLines initialState (split 10%N text))).

(** *** cleanChunks *)

(** [stageDirectionPattern], written [/^\\s*\\[.*\\]\\s*$/] with every
    backslash doubled in the script: a backslash and letters [s], a
    backslash, one code unit of the class [[.*\\]] (a period, a star or a
    backslash), a backslash and letters [s]. *)
Definition stageDirectionPattern : regex :=
  Cat backslash_s_star
    (Cat (Chr backslash)
       (Cat (Cls (fun c => (c =? 46) || (c =? 42) || (c =? backslash))%N)
          backslash_s_star)).

(** [/^(ACT|SCENE|EPILOGUE|PROLOGUE)/] *)
Definition headerWords : regex :=
  Words [ lit "ACT"; lit "SCENE"; lit "EPILOGUE"; lit "PROLOGUE" ].

(** The class [[\\.,;:!?-]] of the script: a backslash or one of [.,;:!?-]. *)
Definition is_punct_class (c : N) : bool :=
  ((c =? backslash) || (c =? 46) || (c =? 44) || (c =? 59) || (c =? 58)
   || (c =? 33) || (c =? 63) || (c =? 45))%N.

(** The punctuation pattern of the script, with doubled backslashes. *)
Definition punctuationPattern : regex :=
  Cat backslash_s_star (Cat (Star (Cls is_punct_class)) backslash_s_star).

(** [[0-9IVXivx]] *)
Definition is_numeral_class (c : N) : bool :=
  (is_digit c || is_IVX c || (c =? 105) || (c =? 118) || (c =? 120))%N.

(** The numerals pattern of the script, with doubled backslashes. *)
Definition numeralsPattern : regex :=
  Cat backslash_s_star (Cat (Plus (Cls is_numeral_class)) backslash_s_star).

(** The predicate of the [filter] of [cleanChunks]. *)
Definition keepChunk (chunk : Chunk) : bool :=
  if length (text chunk) <? 10 then false
  else if test_whole stageDirectionPattern (text chunk) then false
  else if test_prefix headerWords (text chunk) then false
  else if test_whole punctuationPattern (text chunk) then false
  else if test_whole numeralsPattern (text chunk) then false
  else true.

(** A chunk after [cleanChunks]: [{...chunk, id, textLength, wordCount}]. *)
Record CleanChunk : Type := mkCleanChunk {
  base : Chunk;
  textLength : nat;
  wordCount : nat
}.

Definition withId (chunk : Chunk) (index : nat) : Chunk :=
  {| id := index; work := work chunk; speaker := speaker chunk;
     text := text chunk |}.

(** [.map((chunk, index) => ...)], counting from [index]. *)
Fixpoint renumber (index : nat) (cs : list Chunk) : list CleanChunk :=
  match cs with
  | [] => []
  | chunk :: rest =>
      {| base := withId chunk index; textLength := length (text chunk);
         wordCount := countWords (text chunk) |} :: renumber (S index) rest
  end.

Definition cleanChunks (cs : list Chunk) : list CleanChunk :=
  renumber 0 (filter keepChunk cs).

End Ingest.

Import Ingest.

(** ** Notions of the specification *)

Module Spec.

(** The letters of Roman numerals. *)
Definition is_roman_letter (c : N) : bool :=
  ((c =? 73) || (c =? 86) || (c =? 88) || (c =? 76) || (c =? 67)
   || (c =? 68) || (c =? 77))%N.

(** A line that consists purely of Roman numerals. *)
Definition purelyRoman (s : jsstring) : bool :=
  nonempty s && forallb is_roman_letter s.

(** A line that consists purely of the numerals I, V and X. *)
Definition purelyIVX (s : jsstring) : bool :=
  nonempty s && forallb is_IVX s.

(** What a chunk says, apart from its id. *)
Definition content (c : Chunk) : jsstring * option jsstring * jsstring :=
  (work c, speaker c, text c).

(** The lines of a text cut at the lines that hold a title of the catalog:
    the lines before the first title line, and, for each title line, the
    title that it holds and the lines after it up to the next title line. *)
Fixpoint cutAtTitles (lines : list jsstring)
    : list jsstring * list (jsstring * list jsstring) :=
  match lines with
  | [] => ([], [])
  | l :: rest =>
      let (cur, segs) := cutAtTitles rest in
      match findWork (trim l) with
      | Some w => ([], (w, cur) :: segs)
      | None => (l :: cur, segs)
      end
  end.

(** The segments of a text: each is the nearest title before its lines,
    [UNKNOWN] before the first title, and these lines. *)
Definition segments (lines : list jsstring) : list (jsstring * list jsstring) :=
  let (cur, segs) := cutAtTitles lines in (lit "UNKNOWN", cur) :: segs.

(** The state of the loop right after the title line of a work. *)
Definition startOfWork (w : jsstring) : State := enterWork initialState w.

(** The chunks that the loop emits for the lines of one segment. *)
Definition processSegment (w : jsstring) (lines : list jsstring) : list Chunk :=
  chunks (finish (processLines (startOfWork w) lines)).

(** The variables of the loop other than [chunks] and [chunkId]. *)
Definition core (st : State) :=
  (currentWork st, currentSpeaker st, currentChunk st, inSonnets st,
   sonnetNumber st, sonnetText st).

(** From states [a] and [b] to states [a'] and [b']: the same variables,
    and the same chunks added. *)
Definition agrees (a b a' b' : State) : Prop :=
  core a' = core b'
  /\ exists E,
       map content (chunks a') = map content (chunks a) ++ E
       /\ map content (chunks b') = map content (chunks b) ++ E.

(** From state [st] to state [st']: the work is the same, and the chunks
    added carry it. *)
Definition keepsWork (st st' : State) : Prop :=
  currentWork st' = currentWork st
  /\ forall c, In c (chunks st') -> In c (chunks st) \/ work c = currentWork st.

(** A line that holds no title of the catalog. *)
Definition titleFree (l : jsstring) : Prop := findWork (trim l) = None.

End Spec.

Import Spec.

(** ** The loop of splitLargeChunk, as a grouping of the sentences

    The loop of [splitLargeChunk] keeps the sentences of the part in
    progress in [currentText], each followed by a space.  [grouping] tells
    which sentences each part is made of; [splitLoop_grouping] below shows
    that the loop computes exactly these parts. *)

Module Grouping.

(** The sentences of a part as [currentText] holds them. *)
Fixpoint joinSp (g : list jsstring) : jsstring :=
  match g with
  | [] => []
  | s :: rest => s ++ lit " " ++ joinSp rest
  end.

(** The sentences of a part, separated by single spaces. *)
Fixpoint unwords (g : list jsstring) : jsstring :=
  match g with
  | [] => []
  | [s] => s
  | s :: rest => s ++ 32%N :: unwords rest
  end.

(** The sealed groups and the final group, from the group in progress [g]
    and the sentences still to come. *)
Fixpoint grouping (maxSize : nat) (sentences : list jsstring)
    (g : list jsstring) : list (list jsstring) * list jsstring :=
  match sentences with
  | sentence :: rest =>
      if (maxSize <? length (joinSp g) + length sentence)
         && (0 <? length (joinSp g))
      then let (gs, f) := grouping maxSize rest [sentence] in (g :: gs, f)
      else grouping maxSize rest (g ++ [sentence])
  | [] => ([], g)
  end.

(** The parts sealed inside the loop, numbered from [partIndex]. *)
Fixpoint sealParts (chunk : Chunk) (partIndex : nat)
    (gs : list (list jsstring)) : list Chunk :=
  match gs with
  | [] => []
  | g :: rest =>
      part chunk (sealedSpeaker chunk partIndex) (trim (joinSp g))
      :: sealParts chunk (S partIndex) rest
  end.

(** The part added after the loop. *)
Definition finalPart (chunk : Chunk) (partIndex : nat) (f : list jsstring)
    : list Chunk :=
  if nonempty (trim (joinSp f))
  then [part chunk (finalSpeaker chunk partIndex) (trim (joinSp f))]
  else [].

(** No separator of [splitSentences] inside [s], when the code unit before
    [s] is a terminator ([after_term]) or not. *)
Fixpoint no_boundary (after_term : bool) (s : jsstring) : bool :=
  match s with
  | [] => true
  | c :: t =>
      if is_space c then negb after_term && no_boundary false t
      else no_boundary (is_terminator c) t
  end.

(** Whether the code unit before the end of [s] is a terminator. *)
Fixpoint flag_after (after_term : bool) (s : jsstring) : bool :=
  match s with
  | [] => after_term
  | c :: t => flag_after (is_terminator c) t
  end.

(** [s] is not empty and its last code unit is not white space. *)
Fixpoint ends_nonspace (s : jsstring) : bool :=
  match s with
  | [] => false
  | c :: t => match t with
              | [] => negb (is_space c)
              | _ :: _ => ends_nonspace t
              end
  end.

(** The head of [s] is not white space ([s] may be empty). *)
Definition starts_nonspace (s : jsstring) : Prop :=
  match s with c :: _ => is_space c = false | [] => True end.

(** Every sentence but the last ends with a terminator. *)
Fixpoint chained (ss : list jsstring) : Prop :=
  match ss with
  | [] => True
  | s :: rest => match rest with
                 | [] => True
                 | _ :: _ => flag_after false s = true /\ chained rest
                 end
  end.

(** A sentence of a trimmed text: it does not start with white space, has
    no separator inside and does not end with white space. *)
Definition solid (s : jsstring) : Prop :=
  no_boundary true s = true /\ ends_nonspace s = true.

(** The size of a group: what [currentText] holds for it exceeds [maxSize]
    by the final space at most, or the group is one sentence. *)
Definition bounded (maxSize : nat) (g : list jsstring) : Prop :=
  length (joinSp g) <= S maxSize \/ exists s, g = [s].

End Grouping.

Import Grouping.

(** ** Sample inputs *)

Module Samples.

(** [lines.join('\n')] *)
Fixpoint joinLines (ls : list jsstring) : jsstring :=
  match ls with
  | [] => []
  | [l] => l
  | l :: rest => l ++ 10%N :: joinLines rest
  end.

(** The sonnet scenario of the specification. *)
Definition sonnet18 : jsstring :=
  joinLines [ lit "THE SONNETS"; lit "18"; lit "Shall I compare thee..." ].

(** The same text with the number written between backslashes. *)
Definition sonnet18Backslashes : jsstring :=
  joinLines [ lit "THE SONNETS"; lit "\18\"; lit "Shall I compare thee..." ].

(** The dialogue scenario of the specification. *)
Definition toBe : jsstring :=
  joinLines [ lit "HAMLET."; lit "To be, or not to be."; lit "" ].

(** A speech that consists of periods only. *)
Definition dotsSpeech : jsstring :=
  joinLines [ lit "HAMLET."; lit "..........."; lit "" ].

(** Degenerate chunks of ten code units or more. *)
Definition bracketChunk : Chunk :=
  {| id := 0; work := lit "UNKNOWN"; speaker := Some (lit "HAMLET");
     text := lit "[Exit Hamlet.]" |}.
Definition dotsChunk : Chunk :=
  {| id := 1; work := lit "UNKNOWN"; speaker := Some (lit "HAMLET");
     text := lit "..........." |}.
Definition digitsChunk : Chunk :=
  {| id := 2; work := lit "UNKNOWN"; speaker := Some (lit "HAMLET");
     text := lit "12345678901" |}.
Definition romanChunk : Chunk :=
  {| id := 3; work := lit "UNKNOWN"; speaker := Some (lit "HAMLET");
     text := lit "XXXVIIIXXXVIII" |}.

(** A speech of thirty lines, 1289 code units long. *)
Definition soliloquy : jsstring :=
  joinLines (repeat (lit "To be, or not to be, that is the question.") 30).

Definition longSpeech : jsstring :=
  joinLines [ lit "HAMLET."; soliloquy ].

Definition hamletChunk : Chunk :=
  {| id := 0; work := lit "THE TRAGEDY OF HAMLET, PRINCE OF DENMARK";
     speaker := Some (lit "HAMLET"); text := soliloquy |}.

(** A state of the loop inside a speech of Hamlet. *)
Definition inSpeech : State :=
  {| chunks := []; currentWork := lit "UNKNOWN";
     currentSpeaker := Some (lit "HAMLET");
     currentChunk := lit "To be, or not to be." ++ [10%N];
     chunkId := 0; inSonnets := false; sonnetNumber := None;
     sonnetText := [] |}.

End Samples.

Import Samples.

From Stdlib Require Import Sorted DecimalNat.

(** ** Invariants of the loop of processShakespeareText *)

Module Invariants.

(** A chunk as the loop emits it: a non-empty, trimmed text and a speaker
    that is a non-empty string. *)
Definition wellFormed (c : Chunk) : Prop :=
  nonempty (text c) = true /\ trim (text c) = text c
  /\ truthy (speaker c) = true.

(** Text is accumulated under an active speaker only, and the chunks
    emitted so far are well formed. *)
Definition speechInv (st : State) : Prop :=
  (nonempty (currentChunk st) = true -> truthy (currentSpeaker st) = true)
  /\ Forall wellFormed (chunks st).

(** The ids emitted so far: in increasing order, and exactly the numbers
    below [chunkId]. *)
Definition idsOrdered (st : State) : Prop :=
  StronglySorted le (map id (chunks st))
  /\ forall n, In n (map id (chunks st)) <-> n < chunkId st.

(** [sp] is the label of a speaker cue among [lines]. *)
Definition cueLabel (lines : list jsstring) (sp : jsstring) : Prop :=
  exists l, In l lines /\ isSpeakerLine l = Some sp.

(** The speaker of a chunk: the label of a cue of the text, with a part
    number or without, or the label of a sonnet. *)
Definition attributed (lines : list jsstring) (c : Chunk) : Prop :=
  (exists sp, cueLabel lines sp
              /\ (speaker c = Some sp
                  \/ exists k, speaker c = Some (partLabel sp k)))
  \/ exists n, speaker c = Some (sonnetLabel n).

Definition speakerInv (lines : list jsstring) (st : State) : Prop :=
  (forall sp, currentSpeaker st = Some sp -> cueLabel lines sp)
  /\ Forall (attributed lines) (chunks st).

End Invariants.

Import Invariants.

(** ** Speaker names *)

Module Names.

(** A name without period: two code units or more of the class
    [[A-Z\s,'-]], the first an upper-case letter, the last not white
    space. *)
Definition plainName (w : jsstring) : bool :=
  match w with
  | c :: _ :: _ => is_upper c
  | _ => false
  end
  && forallb (fun c => is_speaker_char c && negb (c =? 46)%N) w
  && ends_nonspace w.

End Names.

Import Names.

(** ** Counting words *)

Module WordCount.

(** The predicate of the [filter] of [countWords]. *)
Definition countsAsWord (word : jsstring) : bool :=
  (0 <? length word) && existsb is_alnum word.

(** What [countWords] needs to know of the pieces of [split_spaces]:
    whether the current piece holds a letter or a digit, and how many of
    the pieces after it count as words. *)
Definition tally (skipping : bool) (s : jsstring) : bool * nat :=
  (existsb is_alnum (fst (split_spaces skipping s)),
   length (filter countsAsWord (snd (split_spaces skipping s)))).

Definition total (t : bool * nat) : nat :=
  (if fst t then 1 else 0) + snd t.

End WordCount.

Import WordCount.

(** ** identifyWork *)

Module Identify.

(** [text.lastIndexOf(search, position)] for a position that is a
    non-negative integer: the greatest index, at most [position], at which
    [search] occurs in [text]; [None] stands for -1.  [s] is what is left
    of the text from index [i] on. *)
Fixpoint lastIndexScan (search : jsstring) (position i : nat) (s : jsstring)
    : option nat :=
  let here := if (i <=? position) && startsWith s search
              then Some i else None in
  match s with
  | [] => here
  | _ :: t =>
      match lastIndexScan search position (S i) t with
      | Some k => Some k
      | None => here
      end
  end.

Definition lastIndexOf (text search : jsstring) (position : nat) : option nat :=
  lastIndexScan search position 0 text.

(** One round of the loop of [identifyWork] on [bestMatch] ([None] for -1)
    and [currentWork]. *)
Definition identifyStep (text : jsstring) (position : nat)
    (acc : option nat * jsstring) (work : jsstring) : option nat * jsstring :=
  match lastIndexOf text work position with
  | Some workIndex =>
      match fst acc with
      | Some bestMatch =>
          if bestMatch <? workIndex then (Some workIndex, work) else acc
      | None => (Some workIndex, work)
      end
  | None => acc
  end.

Definition identifyWork (text : jsstring) (position : nat) : jsstring :=
  snd (fold_left (identifyStep text position) shakespeareWorks
         (None, lit "UNKNOWN")).

(** [search] occurs in [text] at index [j]. *)
Definition occursAt (text search : jsstring) (j : nat) : Prop :=
  j <= length text /\ startsWith (skipn j text) search = true.

End Identify.

Import Identify.

(** ** upsertVectorsToPinecone: the batches *)

Module Upsert.

(** [batchSize] *)
Definition batchSize : nat := 100.

(** [chunks.slice(i, j)] for [0 <= i <= j]. *)
Definition slice (i j : nat) (chunks : list CleanChunk) : list CleanChunk :=
  firstn (j - i) (skipn i chunks).

(** The values of [batch] in the rounds of the loop
    [for (let i = 0; i < chunks.length; i += batchSize)], from index [i]
    on; [fuel] bounds the number of rounds. *)
Fixpoint batchesFrom (fuel i : nat) (chunks : list CleanChunk)
    : list (list CleanChunk) :=
  match fuel with
  | O => []
  | S f =>
      if i <? length chunks
      then slice i (i + batchSize) chunks
           :: batchesFrom f (i + batchSize) chunks
      else []
  end.

(** [id: chunk.id.toString()], the id of the vector of a chunk. *)
Definition vectorId (chunk : CleanChunk) : jsstring :=
  decimal (id (base chunk)).

End Upsert.

Import Upsert.

(** ** main: the statistics

    The objects [stats.works] and [stats.speakers] are used as maps from
    strings to counts.  They are modelled by their own properties, in the
    order of creation; this is what JavaScript does for a key that names no
    property of [Object.prototype] ([inheritedNames]). *)

Module Stats.

Definition counts : Type := list (jsstring * nat).

(** [m[k]]; [None] stands for [undefined]. *)
Fixpoint getCount (m : counts) (k : jsstring) : option nat :=
  match m with
  | [] => None
  | (k', n) :: rest => if eqb k k' then Some n else getCount rest k
  end.

(** [m[k] = n] *)
Fixpoint setCount (m : counts) (k : jsstring) (n : nat) : counts :=
  match m with
  | [] => [(k, n)]
  | (k', n') :: rest =>
      if eqb k k' then (k', n) :: rest else (k', n') :: setCount rest k n
  end.

(** [if (!m[k]) { m[k] = 0; } m[k]++;] *)
Definition bump (m : counts) (k : jsstring) : counts :=
  let m1 := match getCount m k with
            | None | Some O => setCount m k 0
            | Some (S _) => m
            end in
  match getCount m1 k with
  | Some n => setCount m1 k (S n)
  | None => m1
  end.

(** The names of the properties of [Object.prototype]. *)
Definition inheritedNames : list jsstring :=
  [ lit "constructor"; lit "__defineGetter__"; lit "__defineSetter__";
    lit "hasOwnProperty"; lit "__lookupGetter__"; lit "__lookupSetter__";
    lit "isPrototypeOf"; lit "propertyIsEnumerable"; lit "toString";
    lit "valueOf"; lit "__proto__"; lit "toLocaleString" ].

(** What the [forEach] of [main] computes. *)
Record Tally : Type := mkTally {
  works : counts;
  speakers : counts;
  totalTextLength : nat;
  totalWordCount : nat
}.

Definition emptyTally : Tally :=
  {| works := []; speakers := []; totalTextLength := 0; totalWordCount := 0 |}.

(** The body of the [forEach]. *)
Definition tallyChunk (t : Tally) (chunk : CleanChunk) : Tally :=
  {| works := bump (works t) (work (base chunk));
     speakers := match speaker (base chunk) with
                 | Some sp => if nonempty sp then bump (speakers t) sp
                              else speakers t
                 | None => speakers t
                 end;
     totalTextLength := totalTextLength t + textLength chunk;
     totalWordCount := totalWordCount t + wordCount chunk |}.

Definition tallyChunks (cleanedChunks : list CleanChunk) : Tally :=
  fold_left tallyChunk cleanedChunks emptyTally.

(** No work and no speaker of the chunks names a property of
    [Object.prototype]. *)
Definition ordinaryKeys (cs : list CleanChunk) : Prop :=
  forall c, In c cs ->
    ~ In (work (base c)) inheritedNames
    /\ forall sp, speaker (base c) = Some sp -> ~ In sp inheritedNames.

(** The sum of the counts of a map. *)
Fixpoint sumCounts (m : counts) : nat :=
  match m with
  | [] => 0
  | (_, n) :: rest => n + sumCounts rest
  end.

(** The count of a key, 0 when the key is absent. *)
Definition countOf (m : counts) (k : jsstring) : nat :=
  match getCount m k with Some n => n | None => 0 end.

(** The number of chunks of work [w], and of speaker [sp]. *)
Definition chunksOfWork (w : jsstring) (cs : list CleanChunk) : nat :=
  length (filter (fun c => eqb (work (base c)) w) cs).

Definition chunksOfSpeaker (sp : jsstring) (cs : list CleanChunk) : nat :=
  length (filter (fun c => match speaker (base c) with
                           | Some sp' => eqb sp' sp
                           | None => false
                           end) cs).

Definition hasSpeaker (c : CleanChunk) : bool := truthy (speaker (base c)).

End Stats.

Import Stats.

(** ** The chunkers of the upload route *)

Module Upload.

(** [s.match(/^(grp)post/)]: the text of the capture group of the first
    match that a backtracking engine finds, [None] when there is none.
    The pattern is not anchored at the end. *)
Definition captureAtStart (grp post : regex) (s : jsstring) : option jsstring :=
  let tries :=
    flat_map (fun r2 =>
      if test_prefix post r2
      then [firstn (length s - length r2) s] else [])
      (run grp s) in
  match tries with
  | [] => None
  | g :: _ => Some g
  end.

(** A chunk of the upload route, [{ speaker, text }]; [None] is [null]. *)
Record Passage : Type := mkPassage {
  pSpeaker : option jsstring;
  pText : jsstring
}.

(** The group of [/^([A-Z][A-Z\s]+)\./]. *)
Definition cueGroup : regex :=
  Cat (Cls is_upper) (Plus (Cls (fun c => is_upper c || is_space c))).

(** [speakerMatch && speakerMatch[1].trim().length > 1]: the speaker of a
    line that holds a cue. *)
Definition cueOf (line : jsstring) : option jsstring :=
  match captureAtStart cueGroup (Chr 46) line with
  | Some group1 => if 1 <? length (trim group1) then Some (trim group1)
                   else None
  | None => None
  end.

(** The variables of [chunkBySpeak]. *)
Record SpeakState : Type := mkSpeakState {
  passages : list Passage;
  speakChunk : jsstring;
  speakSpeaker : jsstring
}.

(** [if (currentChunk.trim()) chunks.push({ speaker: currentSpeaker,
    text: currentChunk.trim() })] *)
Definition flushSpeech (st : SpeakState) : list Passage :=
  if nonempty (trim (speakChunk st))
  then passages st ++ [ {| pSpeaker := Some (speakSpeaker st);
                           pText := trim (speakChunk st) |} ]
  else passages st.

(** One round of the loop of [chunkBySpeak]. *)
Definition speakStep (st : SpeakState) (line : jsstring) : SpeakState :=
  match cueOf line with
  | Some sp =>
      {| passages := flushSpeech st;
         speakChunk := line ++ [10%N];
         speakSpeaker := sp |}
  | None =>
      if nonempty (speakChunk st)
      then {| passages := passages st;
              speakChunk := speakChunk st ++ line ++ [10%N];
              speakSpeaker := speakSpeaker st |}
      else st
  end.

Definition chunkBySpeak (text : jsstring) : list Passage :=
  flushSpeech
    (fold_left speakStep (split 10%N text)
       {| passages := []; speakChunk := []; speakSpeaker := [] |}).

(** A line that opens a speech. *)
Definition isCue (line : jsstring) : bool :=
  match cueOf line with Some _ => true | None => false end.

(** A passage of [chunkBySpeak]: a speaker of two code units or more, and
    a non-empty trimmed text that starts with the speaker. *)
Definition speechPassage (p : Passage) : Prop :=
  exists sp, pSpeaker p = Some sp /\ 1 < length sp
             /\ startsWith (pText p) sp = true
             /\ nonempty (pText p) = true /\ trim (pText p) = pText p.

(** The text in progress starts with the group of its cue line and a
    period, and the speaker is the trimmed group. *)
Definition openSpeech (st : SpeakState) : Prop :=
  speakChunk st = []
  \/ exists c g y,
       speakChunk st = (c :: g) ++ 46%N :: y /\ is_upper c = true
       /\ speakSpeaker st = trim (c :: g) /\ 1 < length (trim (c :: g)).

(** The speeches opened so far. *)
Definition speechCount (st : SpeakState) : nat :=
  length (passages st) + (if nonempty (speakChunk st) then 1 else 0).

(** [text.slice(i, j)] for [0 <= i <= j]. *)
Definition sliceText (i j : nat) (text : jsstring) : jsstring :=
  firstn (j - i) (skipn i text).

(** [index > bound] for the result of [lastIndexOf]; -1 is never
    greater. *)
Definition indexAbove (index : option nat) (bound : nat) : bool :=
  match index with
  | Some k => bound <? k
  | None => false
  end.

(** The value of [end] in a round of [chunkNormally] that starts at
    [start], with the defaults [maxSize = 800] and [overlap = 100]
    ([maxSize / 2] is 400). *)
Definition chunkEnd (text : jsstring) (start : nat) : nat :=
  let end0 := start + 800 in
  if end0 <? length text then
    let sentenceEnd := lastIndexOf text (lit ".") end0 in
    let wordEnd := lastIndexOf text (lit " ") end0 in
    if indexAbove sentenceEnd (start + 400)
    then match sentenceEnd with Some k => k + 1 | None => end0 end
    else if indexAbove wordEnd (start + 400)
    then match wordEnd with Some k => k | None => end0 end
    else end0
  else end0.

(** The loop [while (start < text.length)] of [chunkNormally]; [None] when
    [fuel] rounds do not reach its end.  [end] is 401 at least, so that
    [end - overlap] is not negative. *)
Fixpoint normalLoop (fuel : nat) (text : jsstring) (start : nat)
    (chunks : list Passage) : option (list Passage) :=
  match fuel with
  | O => None
  | S f =>
      if start <? length text then
        let end1 := chunkEnd text start in
        let chunk := trim (sliceText start end1 text) in
        let chunks1 :=
          if 0 <? length chunk
          then chunks ++ [ {| pSpeaker := None; pText := chunk |} ]
          else chunks in
        normalLoop f text (end1 - 100) chunks1
      else Some chunks
  end.

(** [chunkNormally(text)] *)
Definition chunkNormally (fuel : nat) (text : jsstring) : option (list Passage) :=
  normalLoop fuel text 0 [].

(** A passage of [chunkNormally]. *)
Definition plainPassage (p : Passage) : Prop :=
  pSpeaker p = None /\ nonempty (pText p) = true
  /\ trim (pText p) = pText p /\ length (pText p) <= 801.

(** The values of [start] and [end] in the rounds of the loop of
    [chunkNormally]. *)
Fixpoint normalRounds (fuel : nat) (text : jsstring) (start : nat)
    : list (nat * nat) :=
  match fuel with
  | O => []
  | S f =>
      if start <? length text
      then (start, chunkEnd text start)
           :: normalRounds f text (chunkEnd text start - 100)
      else []
  end.

(** The passages that the rounds push: the trimmed slices that are not
    empty. *)
Definition passagesOf (text : jsstring) (rounds : list (nat * nat))
    : list Passage :=
  flat_map (fun r => let chunk := trim (sliceText (fst r) (snd r) text) in
                     if 0 <? length chunk
                     then [ {| pSpeaker := None; pText := chunk |} ]
                     else [])
           rounds.

(** [documentName.replace(/[^a-zA-Z0-9]/g, '_')] *)
Definition sanitizeName (documentName : jsstring) : jsstring :=
  map (fun c => if is_alnum c then c else 95%N) documentName.

(** The id of the vector of chunk [i] of a document,
    [`${documentName.replace(...)}_chunk_${i}`]. *)
Definition uploadId (documentName : jsstring) (i : nat) : jsstring :=
  sanitizeName documentName ++ lit "_chunk_" ++ decimal i.

End Upload.

Import Upload.

(** ** Further sample inputs *)

Module Samples2.

(** Two lines of prose, without title and without speaker. *)
Definition prose : jsstring :=
  joinLines [ lit "Once upon a time there was a king."; lit "He had three daughters." ].

(** Cleaned chunks of two works and two speakers. *)
Definition threeChunks : list CleanChunk :=
  cleanChunks
    [ {| id := 0; work := lit "THE TEMPEST"; speaker := Some (lit "PROSPERO");
         text := lit "We are such stuff as dreams are made on." |};
      {| id := 1; work := lit "THE TEMPEST"; speaker := Some (lit "ARIEL");
         text := lit "Full fathom five thy father lies." |};
      {| id := 2; work := lit "CYMBELINE"; speaker := Some (lit "ARIEL");
         text := lit "Fear no more the heat of the sun." |} ].

(** 800 letters, a period, and more text. *)
Definition longSentence : jsstring :=
  repeat 97%N 800 ++ lit ". And then the rest of the text follows here.".

End Samples2.

Import Samples2.

(** ** Sentences, title lines and speaker cues, in the words of the
    specification

    The notions below are stated on the text itself, without the functions
    of the program: what the sentence sequence of a text is, which title a
    line holds, and which lines open a speech. *)

Module Sentences.







End Sentences.

Import Sentences.

Module Titles.

(** [w] occurs in [t], as the whole of it or as a part of it. *)
Definition occursIn (w t : jsstring) : Prop :=
  exists a b : jsstring, t = a ++ w ++ b.

(** The line [l] holds the title [w]: [w] is the first title of the
    catalog, in the order of the catalog, that occurs in the trimmed
    line. *)
Definition holdsTitle (l w : jsstring) : Prop :=
  exists before after : list jsstring,
    shakespeareWorks = before ++ w :: after
    /\ occursIn w (trim l)
    /\ forall w' : jsstring, In w' before -> ~ occursIn w' (trim l).

(** No title of the catalog occurs in the trimmed line. *)
Definition holdsNoTitle (l : jsstring) : Prop :=
  forall w : jsstring, In w shakespeareWorks -> ~ occursIn w (trim l).

(** The lines of a text cut at its title lines: [cur] are the lines before
    the first title line, and [segs] gives, for each title line in turn,
    the title it holds and the lines after it up to the next title
    line. *)
Inductive cutAt
  : list jsstring -> list jsstring -> list (jsstring * list jsstring) -> Prop :=
| cut_end : cutAt [] [] []
| cut_title (l w : jsstring) (rest cur : list jsstring)
    (segs : list (jsstring * list jsstring)) :
    holdsTitle l w -> cutAt rest cur segs ->
    cutAt (l :: rest) [] ((w, cur) :: segs)
| cut_line (l : jsstring) (rest cur : list jsstring)
    (segs : list (jsstring * list jsstring)) :
    holdsNoTitle l -> cutAt rest cur segs ->
    cutAt (l :: rest) (l :: cur) segs.

End Titles.

Import Titles.

Module Speeches.

(** The line [line] holds a speaker cue with the speaker [sp], as the
    pattern [/^([A-Z][A-Z\s]+)\./] and the test on the trimmed group word
    it: an upper-case letter, one or more upper-case letters or white
    space, a period; the speaker is the trimmed group, two code units long
    at least. *)
Definition cueLine (line sp : jsstring) : Prop :=
  exists (c : N) (g r : jsstring),
    line = (c :: g) ++ 46%N :: r
    /\ is_upper c = true
    /\ g <> []
    /\ Forall (fun x => is_upper x = true \/ is_space x = true) g
    /\ sp = trim (c :: g)
    /\ 1 < length sp.

(** A line that holds no speaker cue. *)
Definition plainLine (line : jsstring) : Prop :=
  forall sp : jsstring, ~ cueLine line sp.

(** The lines, each followed by a line feed. *)
Fixpoint joinNl (lines : list jsstring) : jsstring :=
  match lines with
  | [] => []
  | l :: rest => l ++ 10%N :: joinNl rest
  end.

(** The lines of a text cut at its cue lines: [preface] are the lines
    before the first cue line, and [sps] gives the speeches, each with its
    cue line, the speaker of the cue line and the lines after it up to the
    next cue line. *)
Inductive speechesOf
  : list jsstring -> list jsstring
    -> list (jsstring * jsstring * list jsstring) -> Prop :=
| speeches_end : speechesOf [] [] []
| speeches_cue (l sp : jsstring) (rest block : list jsstring)
    (sps : list (jsstring * jsstring * list jsstring)) :
    cueLine l sp -> speechesOf rest block sps ->
    speechesOf (l :: rest) [] ((l, sp, block) :: sps)
| speeches_line (l : jsstring) (rest block : list jsstring)
    (sps : list (jsstring * jsstring * list jsstring)) :
    plainLine l -> speechesOf rest block sps ->
    speechesOf (l :: rest) (l :: block) sps.

(** The passage of a speech: its speaker, and its lines, the cue line
    first, each followed by a line feed, trimmed as a whole. *)
Definition speechOf (speech : jsstring * jsstring * list jsstring) : Passage :=
  {| pSpeaker := Some (snd (fst speech));
     pText := trim (joinNl (fst (fst speech) :: snd speech)) |}.

(** The same cut, computed with [cueOf]: the lines up to the next cue
    line, and the speeches. *)
Fixpoint untilCue (lines : list jsstring) : list jsstring :=
  match lines with
  | [] => []
  | l :: rest => if isCue l then [] else l :: untilCue rest
  end.

Fixpoint speeches (lines : list jsstring)
    : list (jsstring * jsstring * list jsstring) :=
  match lines with
  | [] => []
  | l :: rest =>
      match cueOf l with
      | Some sp => (l, sp, untilCue rest) :: speeches rest
      | None => speeches rest
      end
  end.

End Speeches.

Import Speeches.

(** ** More sample inputs *)

Module Samples3.



(** A play with its title line, and the same with the title inside a
    longer line. *)
Definition tempest : jsstring :=
  joinLines [ lit "THE TEMPEST"; lit "PROSPERO.";
              lit "We are such stuff as dreams are made on." ].

Definition tempestFolio : jsstring :=
  joinLines [ lit "GONZALO."; lit "All things in common nature should produce.";
              lit "  1611 THE TEMPEST (first folio)"; lit "PROSPERO.";
              lit "We are such stuff as dreams are made on." ].

(** A text of the upload route: a preface, then two speeches. *)
Definition dialogue : jsstring :=
  joinLines [ lit "Enter two clowns"; lit "FIRST CLOWN. Is she to be buried?";
              lit "in Christian burial"; lit "SECOND CLOWN. I tell thee she is." ].

End Samples3.

Import Samples3.

(** ** Properties *)

(** [eqb] is [===] on strings. *)
Lemma jsstring_eqb_eq (a b : jsstring) : eqb a b = true <-> a = b.
Proof.
  unfold eqb. destruct (list_eq_dec N.eq_dec a b); split; congruence.
Qed.

(** *** The sonnet path *)

(** A line that starts with a digit does not start with a backslash, which
    [sonnetPattern] asks for first. *)
Lemma isSonnetNumber_digit_first (line : jsstring) (c : N) (rest : jsstring) :
  trim line = c :: rest -> is_digit c = true -> isSonnetNumber line = None.
Proof.
  intros Htrim Hdigit. unfold isSonnetNumber, capture. rewrite Htrim.
  cbn [backslash_s_star run Chr flat_map].
  replace (backslash =? c)%N with false; [reflexivity|].
  symmetry. apply N.eqb_neq. intros <-. discriminate Hdigit.
Qed.

(** C2: [isSonnetNumber] returns no match for the line [18], which consists
    purely of decimal digits, and returns a match, with group [18], for the
    line [\18\], which does not. *)
Theorem isSonnetNumber_rejects_digits :
  isSonnetNumber (lit "18") = None /\
  isSonnetNumber (lit "\18\") = Some (lit "18").
Proof. split; reflexivity. Qed.

Example isSpeakerLine_HAMLET :
  isSpeakerLine (lit "HAMLET.") = Some (lit "HAMLET").
Proof. reflexivity. Qed.

Example toBe_chunks :
  processShakespeareText toBe
  = [ {| id := 0; work := lit "UNKNOWN"; speaker := Some (lit "HAMLET");
         text := lit "To be, or not to be." |} ].
Proof. reflexivity. Qed.

(** With the number between backslashes, the sonnet path emits the chunk
    that the scenario describes. *)
Example sonnet18Backslashes_chunks :
  processShakespeareText sonnet18Backslashes
  = [ {| id := 0; work := lit "THE SONNETS";
         speaker := Some (lit "SONNET 18");
         text := lit "Shall I compare thee..." |} ].
Proof. reflexivity. Qed.

(** C1: on the text made of the lines [THE SONNETS], [18] and
    [Shall I compare thee...], [processShakespeareText] emits no chunk. *)
Theorem sonnet_scenario_emits_no_chunk :
  processShakespeareText sonnet18 = [].
Proof. reflexivity. Qed.

(** *** cleanChunks *)

(** C5: [cleanChunks] keeps a chunk whose text is one bracketed stage
    direction, one whose text is periods only, one whose text is digits only
    and one whose text is Roman numerals only, when they have ten code units
    or more; the chunk of periods is one that [processShakespeareText]
    produces. *)
Theorem cleanChunks_keeps_degenerate_chunks :
  map (fun c => text (base c))
      (cleanChunks [bracketChunk; dotsChunk; digitsChunk; romanChunk])
  = [lit "[Exit Hamlet.]"; lit "..........."; lit "12345678901";
     lit "XXXVIIIXXXVIII"]
  /\ map (fun c => text (base c)) (cleanChunks (processShakespeareText dotsSpeech))
     = [lit "..........."].
Proof. split; reflexivity. Qed.

Lemma renumber_length (cs : list Chunk) (k : nat) :
  length (renumber k cs) = length cs.
Proof.
  revert k. induction cs as [|c cs IH]; intros k; simpl; [reflexivity|].
  now rewrite IH.
Qed.

Lemma renumber_ids (cs : list Chunk) (k : nat) :
  map (fun c => id (base c)) (renumber k cs) = seq k (length cs).
Proof.
  revert k. induction cs as [|c cs IH]; intros k; simpl; [reflexivity|].
  now rewrite IH.
Qed.

Lemma renumber_contents (cs : list Chunk) (k : nat) :
  map (fun c => (work (base c), speaker (base c), text (base c))) (renumber k cs)
  = map (fun c => (work c, speaker c, text c)) cs.
Proof.
  revert k. induction cs as [|c cs IH]; intros k; simpl; [reflexivity|].
  now rewrite IH.
Qed.

Lemma keepChunk_withId (c : Chunk) (n : nat) :
  keepChunk (withId c n) = keepChunk c.
Proof. reflexivity. Qed.

Lemma renumber_withId (f : Chunk -> nat) (cs : list Chunk) (k : nat) :
  renumber k (map (fun c => withId c (f c)) cs) = renumber k cs.
Proof.
  revert k. induction cs as [|c cs IH]; intros k; simpl; [reflexivity|].
  now rewrite IH.
Qed.

Lemma filter_keepChunk_withId (f : Chunk -> nat) (cs : list Chunk) :
  filter keepChunk (map (fun c => withId c (f c)) cs)
  = map (fun c => withId c (f c)) (filter keepChunk cs).
Proof.
  induction cs as [|c cs IH]; simpl; [reflexivity|].
  rewrite keepChunk_withId. destruct (keepChunk c); simpl; now rewrite IH.
Qed.

Lemma cleanChunks_ids (cs : list Chunk) :
  map (fun c => id (base c)) (cleanChunks cs) = seq 0 (length (cleanChunks cs)).
Proof.
  unfold cleanChunks. now rewrite renumber_ids, renumber_length.
Qed.

(** C6: the ids of the chunks that [cleanChunks] returns are 0, 1, ...,
    n-1 in this order, n being their number; the chunks are the survivors
    of the filter in their original order; and the ids that the chunks had
    before do not matter. *)
Theorem cleanChunks_ids_contiguous (cs : list Chunk) :
  map (fun c => id (base c)) (cleanChunks cs) = seq 0 (length (cleanChunks cs))
  /\ map (fun c => (work (base c), speaker (base c), text (base c))) (cleanChunks cs)
     = map (fun c => (work c, speaker c, text c)) (filter keepChunk cs)
  /\ forall f : Chunk -> nat,
       cleanChunks (map (fun c => withId c (f c)) cs) = cleanChunks cs.
Proof.
  split; [apply cleanChunks_ids|]. split.
  - unfold cleanChunks. apply renumber_contents.
  - intros f. unfold cleanChunks.
    now rewrite filter_keepChunk_withId, renumber_withId.
Qed.

(** *** Stage directions inside a speech *)

(** C9: in dialogue mode, with an active speaker and a non-empty
    accumulator, the line [ACT I] leaves the whole state of the loop as it
    is: no chunk is emitted, and the speaker and the accumulated text are
    unchanged. *)
Theorem act_line_is_ignored (st : State) :
  inSonnets st = false ->
  truthy (currentSpeaker st) = true ->
  nonempty (currentChunk st) = true ->
  step st (lit "ACT I") = st
  /\ chunks (step st (lit "ACT I")) = chunks st
  /\ currentSpeaker (step st (lit "ACT I")) = currentSpeaker st
  /\ currentChunk (step st (lit "ACT I")) = currentChunk st.
Proof.
  intros Hmode _ _.
  assert (Hstep : step st (lit "ACT I") = st).
  { unfold step.
    replace (trim (lit "ACT I")) with (lit "ACT I") by reflexivity.
    replace (findWork (lit "ACT I")) with (@None jsstring) by reflexivity.
    replace (isSpeakerLine (lit "ACT I")) with (@None jsstring) by reflexivity.
    replace (test_prefix stageWords (lit "ACT I")) with true by reflexivity.
    rewrite Hmode. reflexivity. }
  rewrite Hstep. repeat split.
Qed.

Lemma act_line_is_ignored_witness :
  step inSpeech (lit "ACT I") = inSpeech
  /\ chunks (step inSpeech (lit "ACT I")) = chunks inSpeech
  /\ currentSpeaker (step inSpeech (lit "ACT I")) = currentSpeaker inSpeech
  /\ currentChunk (step inSpeech (lit "ACT I")) = currentChunk inSpeech.
Proof. apply (act_line_is_ignored inSpeech); reflexivity. Defined.

(** *** The matcher *)

Lemma star_run_class_all (p : N -> bool) (s : jsstring) (fuel : nat) :
  forallb p s = true -> length s <= fuel ->
  In [] (star_run (run (Cls p)) fuel s).
Proof.
  revert fuel. induction s as [|c t IH]; intros fuel Hall Hfuel.
  - destruct fuel; simpl; auto.
  - simpl in Hall. apply andb_true_iff in Hall as [Hc Ht].
    destruct fuel as [|f]; [simpl in Hfuel; lia|].
    cbn [star_run run]. rewrite Hc. cbn [flat_map].
    replace (length t <? length (c :: t)) with true
      by (symmetry; apply Nat.ltb_lt; simpl; lia).
    apply in_or_app. left. apply in_or_app. left.
    apply IH; [assumption | simpl in Hfuel; lia].
Qed.

(** [/^[class]+$/] accepts every non-empty word over the class. *)
Lemma test_whole_plus_class (p : N -> bool) (s : jsstring) :
  nonempty s = true -> forallb p s = true ->
  test_whole (Plus (Cls p)) s = true.
Proof.
  destruct s as [|c t]; [discriminate|]. intros _ Hall.
  simpl in Hall. apply andb_true_iff in Hall as [Hc Ht].
  unfold test_whole, Plus. apply existsb_exists. exists []. split; [|reflexivity].
  cbn [run]. rewrite Hc. cbn [flat_map]. rewrite app_nil_r.
  apply star_run_class_all; [assumption | lia].
Qed.

(** The capture group of a pattern that starts with its group is a prefix
    of the subject. *)
Lemma capture_is_prefix (grp post : regex) (s g : jsstring) :
  capture Eps grp post s = Some g -> exists k, g = firstn k s.
Proof.
  unfold capture. cbn [run flat_map]. rewrite app_nil_r.
  destruct (flat_map _ (run grp s)) as [|g' tries] eqn:Htries; [discriminate|].
  intros [= <-].
  assert (Hin : In g' (g' :: tries)) by (left; reflexivity).
  rewrite <- Htries in Hin. apply in_flat_map in Hin as (r2 & _ & Hin).
  destruct (test_whole post r2); [|contradiction].
  destruct Hin as [<-|[]]. eauto.
Qed.

(** *** White space *)

Lemma dropWhile_head (p : N -> bool) (s : jsstring) :
  match s with c :: _ => p c = false | [] => True end -> dropWhile p s = s.
Proof. destruct s as [|c t]; simpl; [reflexivity|]. now intros ->. Qed.

Lemma dropWhile_none (p : N -> bool) (s : jsstring) :
  forallb (fun c => negb (p c)) s = true -> dropWhile p s = s.
Proof.
  intros H. apply dropWhile_head. destruct s as [|c t]; [exact I|].
  simpl in H. apply andb_true_iff in H as [H _].
  now apply negb_true_iff in H.
Qed.

Lemma forallb_rev (p : N -> bool) (s : jsstring) :
  forallb p (rev s) = forallb p s.
Proof.
  induction s as [|c t IH]; [reflexivity|].
  simpl. rewrite forallb_app, IH. simpl. rewrite andb_true_r. apply andb_comm.
Qed.

(** A string without white space is its own trimmed form. *)
Lemma trim_none (s : jsstring) :
  forallb (fun c => negb (is_space c)) s = true -> trim s = s.
Proof.
  intros H. unfold trim, trimStart, trimEnd.
  rewrite (dropWhile_none _ _ H).
  rewrite dropWhile_none; [apply rev_involutive|].
  now rewrite forallb_rev.
Qed.

Lemma forallb_firstn (p : N -> bool) (k : nat) (s : jsstring) :
  forallb p s = true -> forallb p (firstn k s) = true.
Proof.
  revert k. induction s as [|c t IH]; intros [|k] H; try reflexivity.
  simpl in *. apply andb_true_iff in H as [Hc Ht].
  now rewrite Hc, IH.
Qed.

Lemma forallb_impl (p q : N -> bool) (s : jsstring) :
  (forall c, p c = true -> q c = true) ->
  forallb p s = true -> forallb q s = true.
Proof.
  intros Hpq. induction s as [|c t IH]; [reflexivity|].
  simpl. intros H. apply andb_true_iff in H as [Hc Ht].
  now rewrite (Hpq _ Hc), IH.
Qed.

(** *** Speaker cues *)

Lemma is_IVX_not_space (c : N) : is_IVX c = true -> negb (is_space c) = true.
Proof.
  unfold is_IVX. intros H.
  repeat (apply orb_true_iff in H as [H|H]);
    apply N.eqb_eq in H; subst; reflexivity.
Qed.

(** C8: the line [XL] consists purely of Roman numerals, and
    [isSpeakerLine] returns it as a speaker label: the check
    [!speaker.match(/^[IVX]+$/)], commented [Not just roman numerals],
    knows the letters I, V and X only. *)
Lemma roman_XL_is_a_speaker :
  purelyRoman (trim (lit "XL")) = true
  /\ isSpeakerLine (lit "XL") = Some (lit "XL").
Proof. split; reflexivity. Qed.

(** What the check does reject: for a line whose trimmed content consists
    purely of the numerals I, V and X, [isSpeakerLine] returns no speaker
    label. *)
Theorem isSpeakerLine_rejects_IVX (line : jsstring) :
  purelyIVX (trim line) = true -> isSpeakerLine line = None.
Proof.
  unfold purelyIVX. intros H. apply andb_true_iff in H as [_ Hall].
  unfold isSpeakerLine.
  destruct (capture Eps speakerGroup speakerTail (trim line)) as [g|] eqn:Hcap;
    [|reflexivity].
  apply capture_is_prefix in Hcap as [k ->].
  pose proof (forallb_firstn is_IVX k _ Hall) as Hg.
  rewrite (trim_none (firstn k (trim line)))
    by (eapply forallb_impl; [apply is_IVX_not_space | exact Hg]).
  set (sp := firstn k (trim line)) in *.
  replace (isValidSpeaker sp) with false; [reflexivity|].
  symmetry. unfold isValidSpeaker.
  destruct (1 <? length sp) eqn:Hlen; [|reflexivity].
  rewrite (test_whole_plus_class is_IVX sp), andb_false_r; try assumption.
  - reflexivity.
  - destruct sp; [discriminate Hlen | reflexivity].
Qed.

Lemma isSpeakerLine_rejects_IVX_witness :
  isSpeakerLine (lit "  XIV ") = None.
Proof. apply (isSpeakerLine_rejects_IVX (lit "  XIV ")). reflexivity. Defined.

(** *** splitLargeChunk: the loop and the grouping *)

Lemma joinSp_app (g : list jsstring) (s : jsstring) :
  joinSp (g ++ [s]) = joinSp g ++ s ++ lit " ".
Proof.
  induction g as [|x g IH]; [reflexivity|].
  cbn [joinSp app]. rewrite IH. now rewrite <- !app_assoc.
Qed.

Lemma splitLoop_grouping (chunk : Chunk) (maxSize : nat)
    (sentences : list jsstring) :
  forall (acc : list Chunk) (g : list jsstring) (partIndex : nat),
    splitLoop chunk maxSize sentences acc (joinSp g) partIndex
    = acc
      ++ sealParts chunk partIndex (fst (grouping maxSize sentences g))
      ++ finalPart chunk
           (partIndex + length (fst (grouping maxSize sentences g)))
           (snd (grouping maxSize sentences g)).
Proof.
  induction sentences as [|s rest IH]; intros acc g partIndex.
  - cbn [splitLoop grouping fst snd sealParts length app].
    rewrite Nat.add_0_r. unfold finalPart.
    destruct (nonempty (trim (joinSp g))); [reflexivity|].
    now rewrite app_nil_r.
  - cbn [splitLoop grouping].
    destruct ((maxSize <? length (joinSp g) + length s)
              && (0 <? length (joinSp g))).
    + replace (s ++ lit " ") with (joinSp [s]) by reflexivity.
      rewrite IH.
      destruct (grouping maxSize rest [s]) as [gs f].
      cbn [fst snd sealParts length].
      rewrite <- app_assoc. cbn [app].
      now rewrite Nat.add_succ_r.
    + rewrite <- joinSp_app. apply IH.
Qed.

Lemma splitLargeChunk_grouping (chunk : Chunk) :
  800 < length (text chunk) ->
  splitLargeChunk chunk
  = sealParts chunk 1 (fst (grouping 800 (splitSentences (text chunk)) []))
    ++ finalPart chunk
         (1 + length (fst (grouping 800 (splitSentences (text chunk)) [])))
         (snd (grouping 800 (splitSentences (text chunk)) [])).
Proof.
  intros Hlen. unfold splitLargeChunk, splitLargeChunkAt.
  replace (length (text chunk) <=? 800) with false
    by (symmetry; apply Nat.leb_gt; exact Hlen).
  change (@nil N) with (joinSp []) at 1.
  now rewrite splitLoop_grouping.
Qed.

Lemma sealParts_length (chunk : Chunk) (gs : list (list jsstring)) (k : nat) :
  length (sealParts chunk k gs) = length gs.
Proof.
  revert k. induction gs as [|g gs IH]; intros k; simpl; [reflexivity|].
  now rewrite IH.
Qed.

Lemma sealParts_nth (chunk : Chunk) (gs : list (list jsstring)) :
  forall (k i : nat) (p : Chunk),
    nth_error (sealParts chunk k gs) i = Some p ->
    exists g, nth_error gs i = Some g
              /\ p = part chunk (sealedSpeaker chunk (k + i)) (trim (joinSp g)).
Proof.
  induction gs as [|g gs IH]; intros k i p H.
  - destruct i; discriminate H.
  - destruct i as [|i]; simpl in H.
    + injection H as <-. exists g. rewrite Nat.add_0_r. now split.
    + apply IH in H as (g' & Hg & ->). exists g'. split; [exact Hg|].
      now rewrite Nat.add_succ_r.
Qed.

Lemma sealParts_In (chunk : Chunk) (gs : list (list jsstring)) (k : nat)
    (p : Chunk) :
  In p (sealParts chunk k gs) ->
  exists g i, In g gs /\ p = part chunk (sealedSpeaker chunk i) (trim (joinSp g)).
Proof.
  intros H. apply In_nth_error in H as [i H].
  apply sealParts_nth in H as (g & Hg & ->).
  exists g, (k + i). split; [|reflexivity]. eapply nth_error_In; eassumption.
Qed.

Lemma finalPart_In (chunk : Chunk) (k : nat) (f : list jsstring) (p : Chunk) :
  In p (finalPart chunk k f) ->
  p = part chunk (finalSpeaker chunk k) (trim (joinSp f))
  /\ nonempty (trim (joinSp f)) = true.
Proof.
  unfold finalPart. destruct (nonempty (trim (joinSp f))); [|contradiction].
  intros [<-|[]]. now split.
Qed.

(** Every part carries the id and the work of the chunk. *)
Lemma splitLargeChunk_id_work (chunk p : Chunk) :
  In p (splitLargeChunk chunk) -> id p = id chunk /\ work p = work chunk.
Proof.
  unfold splitLargeChunk, splitLargeChunkAt.
  destruct (length (text chunk) <=? 800).
  - intros [<-|[]]. now split.
  - change (@nil N) with (joinSp []) at 1. rewrite splitLoop_grouping.
    cbn [app]. intros H. apply in_app_or in H as [H|H].
    + apply sealParts_In in H as (g & i & _ & ->). now split.
    + apply finalPart_In in H as [-> _]. now split.
Qed.

(** *** Trimming *)

Lemma dropWhile_length (p : N -> bool) (s : jsstring) :
  length (dropWhile p s) <= length s.
Proof.
  induction s as [|c t IH]; simpl; [lia|].
  destruct (p c); simpl; lia.
Qed.

Lemma dropWhile_app (p : N -> bool) (x y : jsstring) :
  dropWhile p (x ++ y)
  = if forallb p x then dropWhile p y else dropWhile p x ++ y.
Proof.
  induction x as [|c t IH]; [reflexivity|].
  cbn [app dropWhile forallb]. destruct (p c); [exact IH | reflexivity].
Qed.

Lemma trimEnd_app_space (x : jsstring) (c : N) :
  is_space c = true -> trimEnd (x ++ [c]) = trimEnd x.
Proof.
  intros Hc. unfold trimEnd. rewrite rev_app_distr. cbn [rev app dropWhile].
  now rewrite Hc.
Qed.

Lemma trimEnd_all_space (x : jsstring) :
  forallb is_space x = true -> trimEnd x = [].
Proof.
  intros H. unfold trimEnd.
  replace (rev x) with (rev x ++ []) by apply app_nil_r.
  rewrite dropWhile_app, forallb_rev, H. reflexivity.
Qed.

(** A white space at the end does not change the trimmed form. *)
Lemma trim_app_space (x : jsstring) (c : N) :
  is_space c = true -> trim (x ++ [c]) = trim x.
Proof.
  intros Hc. unfold trim, trimStart. rewrite dropWhile_app.
  destruct (forallb is_space x) eqn:Hall.
  - cbn [dropWhile]. rewrite Hc.
    replace (dropWhile is_space x) with (@nil N); [reflexivity|].
    replace x with (x ++ []) by apply app_nil_r.
    now rewrite dropWhile_app, Hall.
  - now apply trimEnd_app_space.
Qed.

Lemma trimEnd_length (s : jsstring) : length (trimEnd s) <= length s.
Proof.
  unfold trimEnd. rewrite length_rev.
  etransitivity; [apply dropWhile_length|]. now rewrite length_rev.
Qed.

Lemma trim_length (s : jsstring) : length (trim s) <= length s.
Proof.
  unfold trim, trimStart.
  etransitivity; [apply trimEnd_length | apply dropWhile_length].
Qed.

Lemma ends_nonspace_snoc (x : jsstring) (c : N) :
  ends_nonspace (x ++ [c]) = negb (is_space c).
Proof.
  induction x as [|a x IH]; [reflexivity|].
  cbn [app ends_nonspace]. destruct (x ++ [c]) eqn:E; [|exact IH].
  destruct x; discriminate E.
Qed.

Lemma ends_nonspace_inv (s : jsstring) :
  ends_nonspace s = true ->
  exists x c, s = x ++ [c] /\ is_space c = false.
Proof.
  destruct s as [|a s] using rev_ind; [discriminate|].
  rewrite ends_nonspace_snoc. intros H. apply negb_true_iff in H. eauto.
Qed.

Lemma trimEnd_ends_nonspace (s : jsstring) :
  ends_nonspace s = true -> trimEnd s = s.
Proof.
  intros H. apply ends_nonspace_inv in H as (x & c & -> & Hc).
  unfold trimEnd. rewrite rev_app_distr. cbn [rev app dropWhile].
  rewrite Hc. change (c :: rev x) with (rev [c] ++ rev x).
  now rewrite <- rev_app_distr, rev_involutive.
Qed.

Lemma trim_fixed (s : jsstring) :
  starts_nonspace s -> ends_nonspace s = true -> trim s = s.
Proof.
  intros Hhead Hlast. unfold trim, trimStart.
  rewrite (dropWhile_head _ _ Hhead). now apply trimEnd_ends_nonspace.
Qed.

Lemma trimEnd_nonspace_or_nil (s : jsstring) :
  trimEnd s = [] \/ ends_nonspace (trimEnd s) = true.
Proof.
  induction s as [|c s IH] using rev_ind; [now left|].
  destruct (is_space c) eqn:Hc.
  - now rewrite trimEnd_app_space.
  - right. rewrite trimEnd_ends_nonspace; rewrite ends_nonspace_snoc, Hc;
      reflexivity.
Qed.

Lemma trimmed_inv (s : jsstring) :
  trim s = s -> s <> [] -> starts_nonspace s /\ ends_nonspace s = true.
Proof.
  intros Htrim Hne.
  assert (Hhead : starts_nonspace s).
  { destruct s as [|c t]; [exact I|]. cbn. destruct (is_space c) eqn:Hc;
      [|reflexivity].
    exfalso. apply (f_equal (@length N)) in Htrim.
    pose proof (trimEnd_length (trimStart (c :: t))) as H1.
    unfold trim in Htrim. unfold trimStart in *. cbn [dropWhile] in *.
    rewrite Hc in *. pose proof (dropWhile_length is_space t) as H2.
    simpl in Htrim. lia. }
  split; [exact Hhead|].
  unfold trim, trimStart in Htrim. rewrite (dropWhile_head _ _ Hhead) in Htrim.
  destruct (trimEnd_nonspace_or_nil s) as [H|H]; rewrite Htrim in H;
    [contradiction | exact H].
Qed.

Lemma dropWhile_starts_nonspace (s : jsstring) :
  starts_nonspace (dropWhile is_space s).
Proof.
  induction s as [|c t IH]; [exact I|]. cbn [dropWhile].
  destruct (is_space c) eqn:Hc; [exact IH | exact Hc].
Qed.

Lemma trimEnd_prefix (s : jsstring) : exists z, s = trimEnd s ++ z.
Proof.
  induction s as [|c s [z IH]] using rev_ind; [now exists []|].
  destruct (is_space c) eqn:Hc.
  - rewrite trimEnd_app_space by exact Hc. exists (z ++ [c]).
    rewrite app_assoc. now rewrite <- IH.
  - exists []. rewrite trimEnd_ends_nonspace, app_nil_r;
      [reflexivity | now rewrite ends_nonspace_snoc, Hc].
Qed.

(** Trimming twice is trimming once. *)
Lemma trim_idempotent (s : jsstring) : trim (trim s) = trim s.
Proof.
  destruct (trimEnd_nonspace_or_nil (trimStart s)) as [Hnil|Hends];
    fold (trim s) in *.
  - now rewrite Hnil.
  - apply trim_fixed; [|exact Hends].
    pose proof (dropWhile_starts_nonspace s) as Hstart.
    destruct (trimEnd_prefix (trimStart s)) as [z Hz].
    fold (trim s) in Hz. unfold trimStart in Hz.
    destruct (trim s) as [|c t]; [exact I|].
    rewrite Hz in Hstart. exact Hstart.
Qed.

(** [saveCurrentChunk] hands a trimmed text to [splitLargeChunk]. *)
Lemma saveCurrentChunk_trimmed (st : State) :
  nonempty (trim (currentChunk st)) = true ->
  exists chunk,
    saveCurrentChunk st = pushChunks st (splitLargeChunk chunk)
    /\ text chunk = trim (currentChunk st)
    /\ trim (text chunk) = text chunk.
Proof.
  intros Hne. unfold saveCurrentChunk. rewrite Hne. eexists.
  split; [reflexivity|]. cbn [text]. split; [reflexivity|].
  apply trim_idempotent.
Qed.

(** *** The sentences of a text *)

Lemma terminator_not_space (c : N) :
  is_terminator c = true -> is_space c = false.
Proof.
  unfold is_terminator. intros H.
  repeat (apply orb_true_iff in H as [H|H]);
    apply N.eqb_eq in H; subst; reflexivity.
Qed.

Lemma space_not_terminator (c : N) :
  is_space c = true -> is_terminator c = false.
Proof.
  intros H. destruct (is_terminator c) eqn:E; [|reflexivity].
  apply terminator_not_space in E. congruence.
Qed.

(** Case analysis on one round of [sentences_from]. *)
Ltac sentences_step c t skipping after_term h' r' Hsp Hrec :=
  cbn [sentences_from];
  destruct (is_space c) eqn:Hsp;
  [ destruct skipping;
    [ | destruct after_term;
        [ destruct (sentences_from true false t) as [h' r'] eqn:Hrec
        | destruct (sentences_from false false t) as [h' r'] eqn:Hrec ] ]
  | destruct (sentences_from false (is_terminator c) t) as [h' r'] eqn:Hrec ].

(** No sentence has a separator inside, and the sentences after the first
    do not start with white space. *)
Lemma sentences_no_boundary (s : jsstring) :
  forall (skipping after_term : bool) (h : jsstring) (r : list jsstring),
    sentences_from skipping after_term s = (h, r) ->
    no_boundary (skipping || after_term) h = true
    /\ Forall (fun x => no_boundary true x = true) r.
Proof.
  induction s as [|c t IH]; intros skipping after_term h r.
  - intros [= <- <-]. split; [reflexivity | constructor].
  - sentences_step c t skipping after_term h' r' Hsp Hrec.
    + intros H. apply IH in H. exact H.
    + intros [= <- <-]. apply IH in Hrec as [Hh Hr].
      split; [reflexivity | now constructor].
    + intros [= <- <-]. apply IH in Hrec as [Hh Hr].
      split; [|exact Hr]. cbn [no_boundary orb]. now rewrite Hsp.
    + intros [= <- <-]. apply IH in Hrec as [Hh Hr].
      split; [|exact Hr]. cbn [no_boundary orb]. now rewrite Hsp.
Qed.

Lemma chained_cons (s : jsstring) (rest : list jsstring) :
  (rest <> [] -> flag_after false s = true) -> chained rest ->
  chained (s :: rest).
Proof.
  intros Hs Hrest. destruct rest as [|x rest]; [exact I|].
  split; [apply Hs; discriminate | exact Hrest].
Qed.

(** Every sentence that is followed by another ends with a terminator. *)
Lemma sentences_chained (s : jsstring) :
  forall (skipping after_term : bool) (h : jsstring) (r : list jsstring),
    sentences_from skipping after_term s = (h, r) ->
    (r <> [] -> flag_after (after_term && negb skipping) h = true)
    /\ chained r.
Proof.
  induction s as [|c t IH]; intros skipping after_term h r.
  - intros [= <- <-]. split; [congruence | exact I].
  - sentences_step c t skipping after_term h' r' Hsp Hrec.
    + intros H. apply IH in H as [Hh Hr]. split; [|exact Hr].
      intros Hne. rewrite andb_false_r. apply Hh in Hne. exact Hne.
    + intros [= <- <-]. apply IH in Hrec as [Hh Hr].
      split; [reflexivity|]. now apply chained_cons.
    + intros [= <- <-]. apply IH in Hrec as [Hh Hr]. split; [|exact Hr].
      intros Hne. cbn [flag_after andb negb].
      rewrite (space_not_terminator _ Hsp). now apply Hh.
    + intros [= <- <-]. apply IH in Hrec as [Hh Hr]. split; [|exact Hr].
      intros Hne. cbn [flag_after]. apply Hh in Hne.
      now rewrite andb_true_r in Hne.
Qed.

Lemma ends_nonspace_cons (c : N) (s : jsstring) :
  ends_nonspace s = true -> ends_nonspace (c :: s) = true.
Proof. destruct s; [discriminate | trivial]. Qed.

(** The last sentence ends as the text ends. *)
Lemma sentences_last (s : jsstring) :
  forall (skipping after_term : bool) (h : jsstring) (r : list jsstring),
    sentences_from skipping after_term s = (h, r) ->
    ends_nonspace s = true ->
    ends_nonspace (last (h :: r) []) = true.
Proof.
  induction s as [|c t IH]; intros skipping after_term h r; [discriminate|].
  destruct t as [|c' t'].
  - cbn [sentences_from ends_nonspace]. intros H Hc.
    apply negb_true_iff in Hc. rewrite Hc in H. injection H as <- <-.
    cbn. now rewrite Hc.
  - remember (c' :: t') as t eqn:Et. intros H Hends.
    assert (Ht : ends_nonspace t = true) by (subst t; exact Hends).
    revert H. sentences_step c t skipping after_term h' r' Hsp Hrec.
    + intros H. now apply (IH _ _ _ _ H).
    + intros [= <- <-]. apply (IH _ _ _ _ Hrec) in Ht. exact Ht.
    + intros [= <- <-]. apply (IH _ _ _ _ Hrec) in Ht.
      destruct r' as [|x r']; [|exact Ht]. now apply ends_nonspace_cons.
    + intros [= <- <-]. apply (IH _ _ _ _ Hrec) in Ht.
      destruct r' as [|x r']; [|exact Ht]. now apply ends_nonspace_cons.
Qed.

Lemma flag_after_ends_nonspace (s : jsstring) :
  flag_after false s = true -> ends_nonspace s = true.
Proof.
  destruct s as [|c s] using rev_ind; [discriminate|].
  rewrite ends_nonspace_snoc. clear IHs.
  assert (H : forall a, flag_after a (s ++ [c]) = is_terminator c).
  { induction s as [|x s IH]; intros a; [reflexivity|]. apply IH. }
  rewrite H. intros Hc. now rewrite (terminator_not_space _ Hc).
Qed.

Lemma chained_Forall_ends (ss : list jsstring) :
  chained ss -> ends_nonspace (last ss []) = true ->
  Forall (fun x => ends_nonspace x = true) ss.
Proof.
  induction ss as [|s rest IH]; [constructor|].
  destruct rest as [|x rest].
  - intros _ H. constructor; [exact H | constructor].
  - intros [Hs Hrest] Hlast. constructor.
    + now apply flag_after_ends_nonspace.
    + apply IH; assumption.
Qed.

(** The sentences of a trimmed, non-empty text are solid and chained. *)
Lemma splitSentences_trimmed (t : jsstring) :
  trim t = t -> t <> [] ->
  Forall solid (splitSentences t) /\ chained (splitSentences t).
Proof.
  intros Htrim Hne. destruct (trimmed_inv _ Htrim Hne) as [Hhead Hlast].
  unfold splitSentences.
  destruct (sentences_from false false t) as [h r] eqn:Hsf.
  pose proof (sentences_no_boundary _ _ _ _ _ Hsf) as [Hnb Hr].
  pose proof (sentences_chained _ _ _ _ _ Hsf) as [Hfl Hch].
  pose proof (sentences_last _ _ _ _ _ Hsf Hlast) as Hl.
  assert (Hchain : chained (h :: r)) by now apply chained_cons.
  split; [|exact Hchain].
  pose proof (chained_Forall_ends _ Hchain Hl) as Hends.
  assert (Hh : no_boundary true h = true).
  { destruct t as [|c t]; [congruence|]. cbn in Hhead.
    cbn [sentences_from] in Hsf. rewrite Hhead in Hsf.
    destruct (sentences_from false (is_terminator c) t) as [h' r'].
    injection Hsf as <- <-. cbn [no_boundary orb] in *.
    now rewrite Hhead in *. }
  assert (Hall : Forall (fun x => no_boundary true x = true) (h :: r))
    by now constructor.
  clear -Hall Hends. induction Hall as [|x l Hx Hl IH]; [constructor|].
  inversion Hends; subst. constructor; [now split | now apply IH].
Qed.

(** *** Splitting a part again *)

Lemma no_boundary_weaken (s : jsstring) :
  no_boundary true s = true -> no_boundary false s = true.
Proof.
  destruct s as [|c t]; [reflexivity|]. cbn [no_boundary].
  destruct (is_space c); [discriminate | trivial].
Qed.

Lemma solid_starts_nonspace (s : jsstring) :
  no_boundary true s = true -> starts_nonspace s.
Proof.
  destruct s as [|c t]; [intros; exact I|]. cbn [no_boundary starts_nonspace].
  destruct (is_space c); [discriminate | reflexivity].
Qed.

Lemma solid_inv (s : jsstring) :
  solid s -> exists c t, s = c :: t /\ is_space c = false.
Proof.
  intros [Hnb Hends]. destruct s as [|c t]; [discriminate Hends|].
  exists c, t. split; [reflexivity|].
  exact (solid_starts_nonspace _ Hnb).
Qed.

(** A text without separator is read as the start of one sentence. *)
Lemma sentences_from_prefix (s rest : jsstring) :
  forall after_term : bool,
    no_boundary after_term s = true ->
    sentences_from false after_term (s ++ rest)
    = (s ++ fst (sentences_from false (flag_after after_term s) rest),
       snd (sentences_from false (flag_after after_term s) rest)).
Proof.
  induction s as [|c t IH]; intros after_term Hnb.
  - cbn [app flag_after]. now destruct (sentences_from false after_term rest).
  - cbn [app sentences_from no_boundary flag_after] in *.
    destruct (is_space c) eqn:Hsp.
    + apply andb_true_iff in Hnb as [Ha Hnb]. apply negb_true_iff in Ha.
      subst after_term. rewrite (IH _ Hnb).
      now rewrite (space_not_terminator _ Hsp).
    + now rewrite (IH _ Hnb).
Qed.

Lemma sentences_from_skip (c : N) (t : jsstring) (a a' : bool) :
  is_space c = false ->
  sentences_from true a (c :: t) = sentences_from false a' (c :: t).
Proof. intros H. cbn [sentences_from]. now rewrite H. Qed.

Lemma splitSentences_pair (s : jsstring) :
  sentences_from false false s
  = (hd [] (splitSentences s), tl (splitSentences s)).
Proof.
  unfold splitSentences. now destruct (sentences_from false false s).
Qed.

Lemma sentences_from_skip_solid (g : list jsstring) :
  g <> [] -> Forall solid g ->
  sentences_from true false (unwords g) = sentences_from false false (unwords g).
Proof.
  destruct g as [|s rest]; [congruence|]. intros _ Hsolid.
  inversion Hsolid as [|? ? Hs _]; subst.
  destruct (solid_inv _ Hs) as (c & t & -> & Hc).
  destruct rest; cbn [unwords app]; now apply sentences_from_skip.
Qed.

(** The sentences of a group, joined by single spaces, are found again by
    [splitSentences]. *)
Lemma splitSentences_unwords (g : list jsstring) :
  g <> [] -> Forall solid g -> chained g -> splitSentences (unwords g) = g.
Proof.
  induction g as [|s rest IH]; [congruence|]. intros _ Hsolid Hchain.
  inversion Hsolid as [|? ? [Hnb Hends] Hrest]; subst.
  destruct rest as [|s2 rest].
  - cbn [unwords]. unfold splitSentences.
    rewrite <- (app_nil_r s) at 1.
    rewrite (sentences_from_prefix s [] false (no_boundary_weaken _ Hnb)).
    cbn. now rewrite app_nil_r.
  - destruct Hchain as [Hflag Hchain].
    assert (IH' : splitSentences (unwords (s2 :: rest)) = s2 :: rest)
      by (apply IH; [discriminate | assumption | assumption]).
    change (unwords (s :: s2 :: rest))
      with (s ++ 32%N :: unwords (s2 :: rest)).
    unfold splitSentences.
    rewrite (sentences_from_prefix s _ false (no_boundary_weaken _ Hnb)).
    rewrite Hflag. cbn [sentences_from].
    replace (is_space 32) with true by reflexivity.
    rewrite sentences_from_skip_solid by (discriminate || assumption).
    rewrite splitSentences_pair, IH'. cbn [fst snd hd tl].
    now rewrite app_nil_r.
Qed.

Lemma joinSp_unwords (g : list jsstring) :
  g <> [] -> joinSp g = unwords g ++ [32%N].
Proof.
  induction g as [|s rest IH]; [congruence|]. intros _.
  destruct rest as [|s2 rest]; [reflexivity|].
  change (joinSp (s :: s2 :: rest))
    with (s ++ lit " " ++ joinSp (s2 :: rest)).
  rewrite IH by discriminate.
  change (unwords (s :: s2 :: rest)) with (s ++ 32%N :: unwords (s2 :: rest)).
  now rewrite <- app_assoc.
Qed.

Lemma ends_nonspace_app (x y : jsstring) :
  ends_nonspace y = true -> ends_nonspace (x ++ y) = true.
Proof.
  intros H. induction x as [|c x IH]; [exact H|].
  cbn [app]. now apply ends_nonspace_cons.
Qed.

Lemma unwords_ends_nonspace (g : list jsstring) :
  g <> [] -> Forall solid g -> ends_nonspace (unwords g) = true.
Proof.
  induction g as [|s rest IH]; [congruence|]. intros _ Hsolid.
  inversion Hsolid as [|? ? [_ Hends] Hrest]; subst.
  destruct rest as [|s2 rest]; [exact Hends|].
  change (unwords (s :: s2 :: rest)) with (s ++ 32%N :: unwords (s2 :: rest)).
  apply ends_nonspace_app, ends_nonspace_cons, IH; [discriminate | exact Hrest].
Qed.

Lemma unwords_starts_nonspace (g : list jsstring) :
  Forall solid g -> starts_nonspace (unwords g).
Proof.
  destruct g as [|s rest]; [intros; exact I|]. intros Hsolid.
  inversion Hsolid as [|? ? Hs _]; subst.
  destruct (solid_inv _ Hs) as (c & t & -> & Hc).
  destruct rest; exact Hc.
Qed.

(** The text of a part made of solid sentences. *)
Lemma trim_joinSp_solid (g : list jsstring) :
  g <> [] -> Forall solid g -> trim (joinSp g) = unwords g.
Proof.
  intros Hne Hsolid. rewrite (joinSp_unwords g Hne).
  rewrite trim_app_space by reflexivity.
  apply trim_fixed;
    [now apply unwords_starts_nonspace | now apply unwords_ends_nonspace].
Qed.

(** The text of any part is shorter than what [currentText] holds. *)
Lemma trim_joinSp_length (g : list jsstring) :
  g <> [] -> S (length (trim (joinSp g))) <= length (joinSp g).
Proof.
  intros Hne. rewrite (joinSp_unwords g Hne).
  rewrite trim_app_space by reflexivity.
  rewrite length_app. cbn [length]. pose proof (trim_length (unwords g)). lia.
Qed.

(** *** The groups of the loop *)

Lemma joinSp_nil_inv (g : list jsstring) : length (joinSp g) = 0 -> g = [].
Proof.
  destruct g as [|s rest]; [reflexivity|]. cbn [joinSp].
  rewrite !length_app. cbn [lit list_ascii_of_string map length]. lia.
Qed.

Lemma grouping_concat (maxSize : nat) (ss : list jsstring) :
  forall g : list jsstring,
    concat (fst (grouping maxSize ss g)) ++ snd (grouping maxSize ss g)
    = g ++ ss.
Proof.
  induction ss as [|s rest IH]; intros g; cbn [grouping].
  - cbn. now rewrite app_nil_r.
  - destruct ((maxSize <? length (joinSp g) + length s)
              && (0 <? length (joinSp g))).
    + specialize (IH [s]). destruct (grouping maxSize rest [s]) as [gs f].
      cbn [fst snd concat] in *. now rewrite <- app_assoc, IH.
    + rewrite IH. now rewrite <- app_assoc.
Qed.

Lemma grouping_sealed_nonempty (maxSize : nat) (ss : list jsstring) :
  forall g : list jsstring,
    Forall (fun g' => g' <> []) (fst (grouping maxSize ss g)).
Proof.
  induction ss as [|s rest IH]; intros g; cbn [grouping]; [constructor|].
  destruct ((maxSize <? length (joinSp g) + length s)
            && (0 <? length (joinSp g))) eqn:Hseal.
  - specialize (IH [s]). destruct (grouping maxSize rest [s]) as [gs f].
    cbn [fst] in *. constructor; [|exact IH].
    apply andb_true_iff in Hseal as [_ Hpos]. apply Nat.ltb_lt in Hpos.
    intros ->. cbn in Hpos. lia.
  - apply IH.
Qed.

Lemma grouping_final_nonempty (maxSize : nat) (ss : list jsstring) :
  forall g : list jsstring,
    g ++ ss <> [] -> snd (grouping maxSize ss g) <> [].
Proof.
  induction ss as [|s rest IH]; intros g Hne; cbn [grouping].
  - cbn. now rewrite app_nil_r in Hne.
  - destruct ((maxSize <? length (joinSp g) + length s)
              && (0 <? length (joinSp g))).
    + specialize (IH [s]). destruct (grouping maxSize rest [s]) as [gs f].
      cbn [snd] in *. apply IH. discriminate.
    + apply IH. destruct g; discriminate.
Qed.

Lemma grouping_bounded (maxSize : nat) (ss : list jsstring) :
  forall g : list jsstring,
    bounded maxSize g ->
    Forall (bounded maxSize) (fst (grouping maxSize ss g))
    /\ bounded maxSize (snd (grouping maxSize ss g)).
Proof.
  induction ss as [|s rest IH]; intros g Hg; cbn [grouping].
  - split; [constructor | exact Hg].
  - destruct ((maxSize <? length (joinSp g) + length s)
              && (0 <? length (joinSp g))) eqn:Hseal.
    + assert (H1 : bounded maxSize [s]) by (right; eauto).
      specialize (IH [s] H1). destruct (grouping maxSize rest [s]) as [gs f].
      cbn [fst snd] in *. destruct IH as [IHs IHf].
      split; [now constructor | exact IHf].
    + apply IH. apply andb_false_iff in Hseal as [Hfit|Hempty].
      * left. apply Nat.ltb_ge in Hfit. rewrite joinSp_app, !length_app.
        cbn [lit list_ascii_of_string map length]. lia.
      * right. apply Nat.ltb_ge in Hempty.
        rewrite (joinSp_nil_inv g) by lia. exists s. reflexivity.
Qed.

(** The text of a part is at most [maxSize] long, or the part is made of
    one sentence that is longer. *)
Lemma bounded_part_text (maxSize : nat) (g : list jsstring) :
  bounded maxSize g ->
  length (trim (joinSp g)) <= maxSize
  \/ exists s, g = [s] /\ maxSize < length s /\ trim (joinSp g) = trim s.
Proof.
  intros [Hlen|[s ->]].
  - left. destruct g as [|x g]; [cbn; lia|].
    pose proof (trim_joinSp_length (x :: g)) as H.
    assert (x :: g <> []) by discriminate. specialize (H H0). lia.
  - assert (Ht : trim (joinSp [s]) = trim s).
    { cbn [joinSp]. rewrite app_nil_r. now apply trim_app_space. }
    destruct (Nat.le_gt_cases (length s) maxSize) as [Hs|Hs].
    + left. rewrite Ht. pose proof (trim_length s). lia.
    + right. exists s. now repeat split.
Qed.

Lemma chained_app (a b : list jsstring) :
  chained (a ++ b) -> chained a /\ chained b.
Proof.
  induction a as [|s a IH]; [now split|].
  cbn [app]. intros H. destruct a as [|x a].
  - split; [exact I|]. destruct b; [exact I | apply H].
  - destruct H as [Hs Hrest]. apply IH in Hrest as [Ha Hb].
    split; [now split | exact Hb].
Qed.

Lemma chained_concat (gs : list (list jsstring)) (f : list jsstring) :
  chained (concat gs ++ f) -> Forall chained gs /\ chained f.
Proof.
  induction gs as [|g gs IH]; cbn [concat app].
  - intros H. split; [constructor | exact H].
  - rewrite <- app_assoc. intros H. apply chained_app in H as [Hg H].
    apply IH in H as [Hgs Hf]. split; [now constructor | exact Hf].
Qed.

Lemma solid_concat (gs : list (list jsstring)) (f : list jsstring) :
  Forall solid (concat gs ++ f) -> Forall (Forall solid) gs /\ Forall solid f.
Proof.
  induction gs as [|g gs IH]; cbn [concat app].
  - intros H. split; [constructor | exact H].
  - rewrite <- app_assoc. intros H. apply Forall_app in H as [Hg H].
    apply IH in H as [Hgs Hf]. split; [now constructor | exact Hf].
Qed.

Lemma sealParts_sentences (chunk : Chunk) (gs : list (list jsstring)) :
  forall k : nat,
    Forall (fun g => g <> []) gs -> Forall (Forall solid) gs ->
    Forall chained gs ->
    flat_map (fun p => splitSentences (text p)) (sealParts chunk k gs)
    = concat gs.
Proof.
  induction gs as [|g gs IH]; intros k Hne Hsolid Hchain; [reflexivity|].
  inversion Hne; inversion Hsolid; inversion Hchain; subst.
  cbn [sealParts flat_map concat part text].
  rewrite trim_joinSp_solid, splitSentences_unwords by assumption.
  now rewrite IH.
Qed.

Lemma unwords_nonempty (g : list jsstring) :
  g <> [] -> Forall solid g -> nonempty (unwords g) = true.
Proof.
  intros Hne Hsolid. pose proof (unwords_ends_nonspace g Hne Hsolid) as H.
  destruct (unwords g); [discriminate H | reflexivity].
Qed.

Lemma finalPart_solid (chunk : Chunk) (k : nat) (f : list jsstring) :
  f <> [] -> Forall solid f ->
  finalPart chunk k f = [part chunk (finalSpeaker chunk k) (unwords f)].
Proof.
  intros Hne Hsolid. unfold finalPart.
  rewrite trim_joinSp_solid by assumption.
  now rewrite unwords_nonempty.
Qed.

Lemma splitSentences_nonempty (t : jsstring) : splitSentences t <> [].
Proof.
  unfold splitSentences. destruct (sentences_from false false t). discriminate.
Qed.

(** *** splitLargeChunk: the parts *)

Lemma sealedSpeaker_some (chunk : Chunk) (sp : jsstring) (k : nat) :
  speaker chunk = Some sp -> nonempty sp = true ->
  sealedSpeaker chunk k = Some (partLabel sp k).
Proof.
  intros Hsp Hne. unfold sealedSpeaker, labelled. rewrite Hsp. cbn.
  now rewrite Hne.
Qed.

Lemma finalPart_length (chunk : Chunk) (k : nat) (f : list jsstring) :
  length (finalPart chunk k f) <= 1.
Proof. unfold finalPart. destruct (nonempty _); cbn; lia. Qed.

(** The parts of a trimmed text: sealed groups, then one final part. *)
Lemma splitLargeChunk_trimmed (chunk : Chunk) :
  800 < length (text chunk) -> trim (text chunk) = text chunk ->
  exists (gs : list (list jsstring)) (f : list jsstring),
    concat gs ++ f = splitSentences (text chunk)
    /\ Forall (fun g => g <> []) gs /\ Forall (Forall solid) gs
    /\ Forall chained gs
    /\ f <> [] /\ Forall solid f /\ chained f
    /\ splitLargeChunk chunk
       = sealParts chunk 1 gs
         ++ [part chunk (finalSpeaker chunk (1 + length gs)) (unwords f)].
Proof.
  intros Hlen Htrim.
  assert (Hne : text chunk <> []) by (intros E; rewrite E in Hlen; cbn in Hlen; lia).
  destruct (splitSentences_trimmed _ Htrim Hne) as [Hsolid Hchain].
  pose proof (grouping_concat 800 (splitSentences (text chunk)) []) as Hcat.
  pose proof (grouping_sealed_nonempty 800 (splitSentences (text chunk)) [])
    as Hgs.
  pose proof (grouping_final_nonempty 800 (splitSentences (text chunk)) [])
    as Hf.
  rewrite (splitLargeChunk_grouping chunk Hlen).
  destruct (grouping 800 (splitSentences (text chunk)) []) as [gs f].
  cbn [fst snd app] in *.
  specialize (Hf (splitSentences_nonempty _)).
  rewrite <- Hcat in Hsolid, Hchain.
  apply solid_concat in Hsolid as [Hs1 Hs2].
  apply chained_concat in Hchain as [Hc1 Hc2].
  exists gs, f. rewrite (finalPart_solid chunk _ f Hf Hs2).
  repeat split; assumption.
Qed.

(** C3 as stated fails: the speech of [hamletChunk] is split into two
    parts, and the first carries [HAMLET (Part 1)], not the bare label. *)
Lemma first_part_is_numbered :
  (800 <? length (text hamletChunk)) = true
  /\ speaker hamletChunk = Some (lit "HAMLET")
  /\ map speaker (splitLargeChunk hamletChunk)
     = [Some (lit "HAMLET (Part 1)"); Some (lit "HAMLET (Part 2)")]
  /\ option_map speaker (hd_error (splitLargeChunk hamletChunk))
     <> Some (speaker hamletChunk).
Proof.
  repeat split; try (vm_compute; reflexivity).
  vm_compute. discriminate.
Qed.

(** C3, amended: for a chunk with a non-empty speaker whose text exceeds
    800 code units, every part carries the work of the chunk; when there
    are two parts or more, the part at position k (from 1) carries the
    speaker followed by [ (Part k)], the first part included; when a
    trimmed text yields one part, it carries the bare speaker. *)
Theorem splitLargeChunk_part_labels (chunk : Chunk) (sp : jsstring) :
  speaker chunk = Some sp -> nonempty sp = true ->
  800 < length (text chunk) ->
  (forall p, In p (splitLargeChunk chunk) -> work p = work chunk)
  /\ (2 <= length (splitLargeChunk chunk) ->
      forall k p, nth_error (splitLargeChunk chunk) k = Some p ->
                  speaker p = Some (partLabel sp (S k)))
  /\ (trim (text chunk) = text chunk ->
      forall p, splitLargeChunk chunk = [p] -> speaker p = Some sp).
Proof.
  intros Hsp Hne Hlen. split; [|split].
  - intros p Hp. now apply splitLargeChunk_id_work in Hp.
  - rewrite (splitLargeChunk_grouping chunk Hlen).
    set (gs := fst (grouping 800 (splitSentences (text chunk)) [])).
    set (f := snd (grouping 800 (splitSentences (text chunk)) [])).
    rewrite length_app, sealParts_length. intros Htwo k p Hk.
    pose proof (finalPart_length chunk (1 + length gs) f) as Hfin.
    destruct (Nat.lt_ge_cases k (length gs)) as [Hlt|Hge].
    + rewrite nth_error_app1 in Hk by now rewrite sealParts_length.
      apply sealParts_nth in Hk as (g & _ & ->). cbn [part speaker].
      now apply sealedSpeaker_some.
    + rewrite nth_error_app2 in Hk by now rewrite sealParts_length.
      rewrite sealParts_length in Hk.
      assert (Hin : In p (finalPart chunk (1 + length gs) f))
        by (eapply nth_error_In; eassumption).
      assert (Hk0 : k - length gs < length (finalPart chunk (1 + length gs) f))
        by (apply nth_error_Some; congruence).
      apply finalPart_In in Hin as [-> _]. cbn [part speaker].
      unfold finalSpeaker. rewrite Hsp. cbn [truthy]. rewrite Hne.
      replace (1 <? 1 + length gs) with true
        by (symmetry; apply Nat.ltb_lt; lia).
      cbn [andb labelled]. unfold labelled. rewrite Hsp. cbn [option_map].
      do 2 f_equal. lia.
  - intros Htrim p Hone.
    destruct (splitLargeChunk_trimmed chunk Hlen Htrim)
      as (gs & f & _ & _ & _ & _ & _ & _ & _ & Hparts).
    rewrite Hparts in Hone. destruct gs as [|g gs].
    + cbn in Hone. injection Hone as <-. cbn [part speaker].
      unfold finalSpeaker. now rewrite andb_false_r.
    + apply (f_equal (@length Chunk)) in Hone.
      rewrite length_app, sealParts_length in Hone. cbn in Hone. lia.
Qed.

Lemma splitLargeChunk_part_labels_witness :
  (forall p, In p (splitLargeChunk hamletChunk) -> work p = work hamletChunk)
  /\ (2 <= length (splitLargeChunk hamletChunk) ->
      forall k p, nth_error (splitLargeChunk hamletChunk) k = Some p ->
                  speaker p = Some (partLabel (lit "HAMLET") (S k)))
  /\ (trim (text hamletChunk) = text hamletChunk ->
      forall p, splitLargeChunk hamletChunk = [p] ->
                speaker p = Some (lit "HAMLET")).
Proof.
  apply (splitLargeChunk_part_labels hamletChunk (lit "HAMLET")).
  - reflexivity.
  - reflexivity.
  - apply Nat.ltb_lt. vm_compute. reflexivity.
Defined.

(** The size of the parts, for any text. *)
Lemma splitLargeChunk_sizes (chunk p : Chunk) :
  800 < length (text chunk) -> In p (splitLargeChunk chunk) ->
  length (text p) <= 800
  \/ exists s, In s (splitSentences (text chunk))
               /\ 800 < length s /\ text p = trim s.
Proof.
  intros Hlen. rewrite (splitLargeChunk_grouping chunk Hlen).
  pose proof (grouping_concat 800 (splitSentences (text chunk)) []) as Hcat.
  assert (Hb0 : bounded 800 []) by (left; cbn; lia).
  pose proof (grouping_bounded 800 (splitSentences (text chunk)) [] Hb0)
    as [Hbs Hbf].
  destruct (grouping 800 (splitSentences (text chunk)) []) as [gs f].
  cbn [fst snd app] in *. intros Hin.
  assert (Hgroup : exists g sp, p = part chunk sp (trim (joinSp g))
                                /\ bounded 800 g
                                /\ incl g (splitSentences (text chunk))).
  { apply in_app_or in Hin as [Hin|Hin].
    - apply sealParts_In in Hin as (g & i & Hg & ->).
      exists g, (sealedSpeaker chunk i). split; [reflexivity|]. split.
      + rewrite Forall_forall in Hbs. now apply Hbs.
      + rewrite <- Hcat. intros s Hs. apply in_or_app. left.
        apply in_concat. eauto.
    - apply finalPart_In in Hin as [-> _].
      exists f, (finalSpeaker chunk (1 + length gs)).
      split; [reflexivity|]. split; [exact Hbf|].
      rewrite <- Hcat. intros s Hs. apply in_or_app. now right. }
  destruct Hgroup as (g & sp & -> & Hb & Hincl). cbn [part text].
  destruct (bounded_part_text 800 g Hb) as [Hl|(s & -> & Hs & Ht)];
    [now left|].
  right. exists s. split; [apply Hincl; now left|]. now split.
Qed.

(** The sizes and the sentences of the parts, with the sentences as
    [splitSentences] cuts them: for a chunk whose trimmed text exceeds 800
    code units, every part has a text of 800 code units at most, or its
    text is one sentence of the chunk, longer than 800 and kept whole; and
    the sentences of the parts, one part after the other, are the sentences
    of the text. *)
Theorem splitLargeChunk_sizes_and_sentences (chunk : Chunk) :
  800 < length (text chunk) ->
  trim (text chunk) = text chunk ->
  (forall p, In p (splitLargeChunk chunk) ->
     length (text p) <= 800
     \/ (800 < length (text p)
         /\ In (text p) (splitSentences (text chunk))
         /\ splitSentences (text p) = [text p]))
  /\ flat_map (fun p => splitSentences (text p)) (splitLargeChunk chunk)
     = splitSentences (text chunk).
Proof.
  intros Hlen Htrim. split.
  - intros p Hp.
    destruct (splitLargeChunk_sizes chunk p Hlen Hp)
      as [Hl|(s & Hs & Hbig & Ht)]; [now left|].
    right.
    assert (Hne : text chunk <> [])
      by (intros E; rewrite E in Hlen; cbn in Hlen; lia).
    destruct (splitSentences_trimmed _ Htrim Hne) as [Hsolid _].
    rewrite Forall_forall in Hsolid. pose proof (Hsolid s Hs) as Hsol.
    assert (Hfix : trim s = s)
      by (destruct Hsol as [H1 H2]; apply trim_fixed;
          [now apply solid_starts_nonspace | exact H2]).
    rewrite Ht, Hfix. repeat split; try assumption.
    apply (splitSentences_unwords [s]);
      [discriminate | now constructor | exact I].
  - destruct (splitLargeChunk_trimmed chunk Hlen Htrim)
      as (gs & f & Hcat & Hne & Hsolid & Hchain & Hf & Hfs & Hfc & ->).
    rewrite flat_map_app, sealParts_sentences by assumption.
    cbn [flat_map part text]. rewrite app_nil_r.
    now rewrite splitSentences_unwords.
Qed.

Lemma splitLargeChunk_sizes_and_sentences_witness :
  (forall p, In p (splitLargeChunk hamletChunk) ->
     length (text p) <= 800
     \/ (800 < length (text p)
         /\ In (text p) (splitSentences (text hamletChunk))
         /\ splitSentences (text p) = [text p]))
  /\ flat_map (fun p => splitSentences (text p)) (splitLargeChunk hamletChunk)
     = splitSentences (text hamletChunk).
Proof.
  apply (splitLargeChunk_sizes_and_sentences hamletChunk).
  - apply Nat.ltb_lt. vm_compute. reflexivity.
  - vm_compute. reflexivity.
Defined.

(** *** Ids before and after cleanChunks *)

(** C10: every part that [splitLargeChunk] returns carries the id of the
    chunk; the two parts of the speech of [longSpeech] both have id 0 in
    the output of [processShakespeareText], so that the raw ids are not
    unique; the ids that [cleanChunks] assigns are. *)
Theorem split_parts_share_the_id :
  (forall chunk p, In p (splitLargeChunk chunk) -> id p = id chunk)
  /\ map id (processShakespeareText longSpeech) = [0; 0]
  /\ ~ NoDup (map id (processShakespeareText longSpeech))
  /\ (forall cs, NoDup (map (fun c => id (base c)) (cleanChunks cs))).
Proof.
  split; [|split; [|split]].
  - intros chunk p Hp. apply splitLargeChunk_id_work in Hp as [Hid _].
    exact Hid.
  - vm_compute. reflexivity.
  - replace (map id (processShakespeareText longSpeech)) with [0; 0]
      by (vm_compute; reflexivity).
    intros Hnd. inversion Hnd as [|? ? Hnotin _]; subst.
    apply Hnotin. left. reflexivity.
  - intros cs. rewrite cleanChunks_ids. apply seq_NoDup.
Qed.

(** *** The work of a chunk *)

Lemma content_inv (c c' : Chunk) :
  content c = content c' ->
  work c = work c' /\ speaker c = speaker c' /\ text c = text c'.
Proof. unfold content. intros [= -> -> ->]. now repeat split. Qed.

Lemma splitLoop_content (c c' : Chunk) (maxSize : nat) (ss : list jsstring) :
  content c = content c' ->
  forall (acc acc' : list Chunk) (cur : jsstring) (k : nat),
    map content acc = map content acc' ->
    map content (splitLoop c maxSize ss acc cur k)
    = map content (splitLoop c' maxSize ss acc' cur k).
Proof.
  intros H. apply content_inv in H as (Hw & Hs & _).
  induction ss as [|s rest IH]; intros acc acc' cur k Hacc; cbn [splitLoop].
  - destruct (nonempty (trim cur)); [|exact Hacc].
    rewrite !map_app, Hacc. f_equal. cbn.
    unfold content, part, finalSpeaker, labelled. cbn. now rewrite Hw, Hs.
  - destruct ((maxSize <? length cur + length s) && (0 <? length cur));
      apply IH; [|exact Hacc].
    rewrite !map_app, Hacc. f_equal. cbn.
    unfold content, part, sealedSpeaker, labelled. cbn. now rewrite Hw, Hs.
Qed.

(** The parts of a chunk do not depend on its id, the id apart. *)
Lemma splitLargeChunk_content (c c' : Chunk) :
  content c = content c' ->
  map content (splitLargeChunk c) = map content (splitLargeChunk c').
Proof.
  intros H. pose proof (content_inv _ _ H) as (_ & _ & Ht).
  unfold splitLargeChunk, splitLargeChunkAt. rewrite Ht.
  destruct (length (text c') <=? 800).
  - cbn. now rewrite H.
  - now apply splitLoop_content.
Qed.

Lemma core_inv (a b : State) :
  core a = core b ->
  currentWork a = currentWork b /\ currentSpeaker a = currentSpeaker b
  /\ currentChunk a = currentChunk b /\ inSonnets a = inSonnets b
  /\ sonnetNumber a = sonnetNumber b /\ sonnetText a = sonnetText b.
Proof. unfold core. intros [= -> -> -> -> -> ->]. now repeat split. Qed.

Lemma agrees_refl (a b : State) : core a = core b -> agrees a b a b.
Proof.
  intros H. split; [exact H|]. exists []. now rewrite !app_nil_r.
Qed.

Lemma agrees_trans (a b a1 b1 a2 b2 : State) :
  agrees a b a1 b1 -> agrees a1 b1 a2 b2 -> agrees a b a2 b2.
Proof.
  intros [_ (E1 & Ha1 & Hb1)] [Hcore (E2 & Ha2 & Hb2)].
  split; [exact Hcore|]. exists (E1 ++ E2).
  rewrite Ha2, Hb2, Ha1, Hb1. now rewrite !app_assoc.
Qed.

Lemma pushChunks_agrees (a b : State) (cs cs' : list Chunk) :
  core a = core b -> map content cs = map content cs' ->
  agrees a b (pushChunks a cs) (pushChunks b cs').
Proof.
  intros H Hcs. split; [exact H|]. exists (map content cs).
  cbn [pushChunks chunks]. rewrite !map_app. now rewrite Hcs.
Qed.

Lemma saveCurrentChunk_agrees (a b : State) :
  core a = core b -> agrees a b (saveCurrentChunk a) (saveCurrentChunk b).
Proof.
  intros H. destruct (core_inv _ _ H) as (Hw & Hs & Hc & _).
  unfold saveCurrentChunk. rewrite <- Hc.
  destruct (nonempty (trim (currentChunk a))); [|now apply agrees_refl].
  apply pushChunks_agrees; [exact H|]. apply splitLargeChunk_content.
  unfold content. cbn. now rewrite Hw, Hs.
Qed.

Lemma pushSonnet_agrees (a b : State) :
  core a = core b -> agrees a b (pushSonnet a) (pushSonnet b).
Proof.
  intros H. destruct (core_inv _ _ H) as (Hw & _ & _ & _ & Hn & Ht).
  unfold pushSonnet. apply pushChunks_agrees; [exact H|].
  cbn. unfold content. cbn. now rewrite Hw, Hn, Ht.
Qed.

Lemma finish_agrees (a b : State) :
  core a = core b -> agrees a b (finish a) (finish b).
Proof.
  intros H. unfold finish.
  pose proof (saveCurrentChunk_agrees a b H) as Hsave.
  eapply agrees_trans; [exact Hsave|]. destruct Hsave as [Hcore _].
  destruct (core_inv _ _ Hcore) as (_ & _ & _ & Hin & _ & Ht).
  rewrite <- Hin, <- Ht.
  destruct (inSonnets (saveCurrentChunk a)
            && nonempty (trim (sonnetText (saveCurrentChunk a))));
    [now apply pushSonnet_agrees | now apply agrees_refl].
Qed.

Lemma enterWork_agrees (a b : State) (w : jsstring) :
  core a = core b -> agrees a b (enterWork a w) (enterWork b w).
Proof.
  intros _. split; [reflexivity|]. exists []. now rewrite !app_nil_r.
Qed.

Lemma setSonnet_agrees (a b : State) (n : option jsstring) (t : jsstring) :
  core a = core b -> agrees a b (setSonnet a n t) (setSonnet b n t).
Proof.
  intros H. destruct (core_inv _ _ H) as (Hw & Hs & Hc & Hin & _ & _).
  split; [unfold core; cbn; now rewrite Hw, Hs, Hc, Hin|].
  exists []. now rewrite !app_nil_r.
Qed.

Lemma setSpeech_agrees (a b : State) (sp : option jsstring) (t : jsstring) :
  core a = core b -> agrees a b (setSpeech a sp t) (setSpeech b sp t).
Proof.
  intros H. destruct (core_inv _ _ H) as (Hw & _ & _ & Hin & Hn & Ht).
  split; [unfold core; cbn; now rewrite Hw, Hin, Hn, Ht|].
  exists []. now rewrite !app_nil_r.
Qed.

(** Every title of the catalog is a non-empty string: a title that [find]
    returns is truthy. *)
Lemma findWork_truthy (trimmedLine w : jsstring) :
  findWork trimmedLine = Some w -> nonempty w = true.
Proof.
  unfold findWork. intros H. apply find_some in H as [Hin _].
  assert (Hall : forallb nonempty shakespeareWorks = true) by reflexivity.
  rewrite forallb_forall in Hall. now apply Hall.
Qed.

(** At a title line the loop does what it does at the end of the text, and
    enters the work. *)
Lemma step_title (st : State) (l w : jsstring) :
  findWork (trim l) = Some w -> step st l = enterWork (finish st) w.
Proof.
  intros Hw. unfold step. rewrite Hw.
  destruct (trim l) as [|c t]; [discriminate Hw | reflexivity].
Qed.

(** One round of the loop on two states that differ in [chunks] and
    [chunkId] only. *)
Lemma step_agrees (l : jsstring) (a b : State) :
  core a = core b -> agrees a b (step a l) (step b l).
Proof.
  intros H. destruct (findWork (trim l)) as [w|] eqn:Hfind.
  - rewrite !(step_title _ l w Hfind).
    eapply agrees_trans; [now apply finish_agrees|].
    apply enterWork_agrees. now apply finish_agrees.
  - destruct (core_inv _ _ H) as (Hw & Hs & Hc & Hin & Hn & Ht).
    unfold step. rewrite Hfind, <- Hs, <- Hc, <- Hin, <- Hn, <- Ht.
    destruct (negb (nonempty (trim l)) && negb (nonempty (currentChunk a)));
      [now apply agrees_refl|].
    destruct (inSonnets a).
    + destruct (isSonnetNumber (trim l)) as [g|].
      * destruct (nonempty (trim (sonnetText a))).
        -- eapply agrees_trans; [now apply pushSonnet_agrees|].
           apply setSonnet_agrees. now apply pushSonnet_agrees.
        -- now apply setSonnet_agrees.
      * destruct (truthy (sonnetNumber a) && nonempty (trim l));
          [now apply setSonnet_agrees | now apply agrees_refl].
    + cbv zeta. destruct (truthy (isSpeakerLine (trim l))).
      * eapply agrees_trans; [now apply saveCurrentChunk_agrees|].
        apply setSpeech_agrees. now apply saveCurrentChunk_agrees.
      * destruct (test_prefix stageWords (trim l)); [now apply agrees_refl|].
        destruct (test_whole bracketed (trim l)); [now apply agrees_refl|].
        destruct (truthy (currentSpeaker a) && nonempty (trim l));
          [now apply setSpeech_agrees | now apply agrees_refl].
Qed.

Lemma run_agrees (ls : list jsstring) :
  forall a b : State,
    core a = core b ->
    agrees a b (finish (processLines a ls)) (finish (processLines b ls)).
Proof.
  induction ls as [|l ls IH]; intros a b H.
  - now apply finish_agrees.
  - cbn [processLines fold_left].
    pose proof (step_agrees l a b H) as Hstep.
    eapply agrees_trans; [exact Hstep|]. apply IH. apply Hstep.
Qed.

Lemma keepsWork_refl (st : State) : keepsWork st st.
Proof. split; [reflexivity | auto]. Qed.

Lemma keepsWork_trans (a b c : State) :
  keepsWork a b -> keepsWork b c -> keepsWork a c.
Proof.
  intros [Hw1 Hc1] [Hw2 Hc2]. split; [congruence|].
  intros x Hx. destruct (Hc2 x Hx) as [Hin|Hwork].
  - now apply Hc1.
  - right. congruence.
Qed.

Lemma saveCurrentChunk_keepsWork (st : State) :
  keepsWork st (saveCurrentChunk st).
Proof.
  unfold saveCurrentChunk.
  destruct (nonempty (trim (currentChunk st))); [|apply keepsWork_refl].
  split; [reflexivity|]. cbn [pushChunks chunks]. intros c Hc.
  apply in_app_or in Hc as [Hc|Hc]; [now left|]. right.
  now apply splitLargeChunk_id_work in Hc as [_ ->].
Qed.

Lemma pushSonnet_keepsWork (st : State) : keepsWork st (pushSonnet st).
Proof.
  split; [reflexivity|]. cbn [pushSonnet pushChunks chunks]. intros c Hc.
  apply in_app_or in Hc as [Hc|[<-|[]]]; [now left | now right].
Qed.

Lemma finish_keepsWork (st : State) : keepsWork st (finish st).
Proof.
  unfold finish.
  eapply keepsWork_trans; [apply saveCurrentChunk_keepsWork|].
  destruct (inSonnets (saveCurrentChunk st)
            && nonempty (trim (sonnetText (saveCurrentChunk st))));
    [apply pushSonnet_keepsWork | apply keepsWork_refl].
Qed.

Lemma setSonnet_keepsWork (st : State) (n : option jsstring) (t : jsstring) :
  keepsWork st (setSonnet st n t).
Proof. split; [reflexivity | auto]. Qed.

Lemma setSpeech_keepsWork (st : State) (sp : option jsstring) (t : jsstring) :
  keepsWork st (setSpeech st sp t).
Proof. split; [reflexivity | auto]. Qed.

(** A line without title leaves the work as it is. *)
Lemma step_keepsWork (st : State) (l : jsstring) :
  titleFree l -> keepsWork st (step st l).
Proof.
  unfold titleFree. intros Hfind. unfold step. rewrite Hfind.
  destruct (negb (nonempty (trim l)) && negb (nonempty (currentChunk st)));
    [apply keepsWork_refl|].
  destruct (inSonnets st).
  - destruct (isSonnetNumber (trim l)) as [g|].
    + destruct (nonempty (trim (sonnetText st))).
      * eapply keepsWork_trans;
          [apply pushSonnet_keepsWork | apply setSonnet_keepsWork].
      * apply setSonnet_keepsWork.
    + destruct (truthy (sonnetNumber st) && nonempty (trim l));
        [apply setSonnet_keepsWork | apply keepsWork_refl].
  - cbv zeta. destruct (truthy (isSpeakerLine (trim l))).
    + eapply keepsWork_trans;
        [apply saveCurrentChunk_keepsWork | apply setSpeech_keepsWork].
    + destruct (test_prefix stageWords (trim l)); [apply keepsWork_refl|].
      destruct (test_whole bracketed (trim l)); [apply keepsWork_refl|].
      destruct (truthy (currentSpeaker st) && nonempty (trim l));
        [apply setSpeech_keepsWork | apply keepsWork_refl].
Qed.

Lemma processLines_keepsWork (ls : list jsstring) :
  forall st : State,
    Forall titleFree ls -> keepsWork st (processLines st ls).
Proof.
  induction ls as [|l ls IH]; intros st Hfree; [apply keepsWork_refl|].
  inversion Hfree as [|? ? Hl Hls]; subst. cbn [processLines fold_left].
  apply (keepsWork_trans st (step st l)).
  - apply step_keepsWork. exact Hl.
  - apply IH. exact Hls.
Qed.

(** The chunks of a segment carry its work. *)
Lemma processSegment_work (w : jsstring) (ls : list jsstring) (c : Chunk) :
  Forall titleFree ls -> In c (processSegment w ls) -> work c = w.
Proof.
  intros Hfree Hc. unfold processSegment in Hc.
  pose proof (keepsWork_trans _ _ _
                (processLines_keepsWork ls (startOfWork w) Hfree)
                (finish_keepsWork _)) as [_ Hchunks].
  destruct (Hchunks c Hc) as [[]|Hwork]. exact Hwork.
Qed.

Lemma cutAtTitles_titleFree (ls : list jsstring) :
  Forall titleFree (fst (cutAtTitles ls))
  /\ Forall (fun seg => Forall titleFree (snd seg)) (snd (cutAtTitles ls)).
Proof.
  induction ls as [|l rest [IH1 IH2]]; [split; constructor|].
  cbn [cutAtTitles]. destruct (cutAtTitles rest) as [cur segs].
  cbn [fst snd] in *. destruct (findWork (trim l)) as [w|] eqn:Hfind.
  - split; [constructor | now constructor].
  - split; [now constructor | exact IH2].
Qed.

(** Lines without title form one segment. *)
Lemma cutAtTitles_free (ls : list jsstring) :
  Forall titleFree ls -> cutAtTitles ls = (ls, []).
Proof.
  induction 1 as [|l rest Hl _ IH]; [reflexivity|].
  cbn [cutAtTitles]. rewrite IH. unfold titleFree in Hl. now rewrite Hl.
Qed.

(** A title line closes the segment before it and opens a segment with
    its title. *)
Lemma cutAtTitles_at_title (pre post : list jsstring) (l w : jsstring) :
  findWork (trim l) = Some w ->
  cutAtTitles (pre ++ l :: post)
  = (fst (cutAtTitles pre),
     snd (cutAtTitles pre)
     ++ (w, fst (cutAtTitles post)) :: snd (cutAtTitles post)).
Proof.
  intros Hw. induction pre as [|p pre IH].
  - cbn [app cutAtTitles fst snd]. rewrite Hw.
    now destruct (cutAtTitles post).
  - cbn [app cutAtTitles]. rewrite IH.
    destruct (cutAtTitles pre) as [cur segs]. cbn [fst snd].
    now destruct (findWork (trim p)).
Qed.

(** The lines between a title line and the next title line, or the end of
    the text, are the segment of this title. *)
Lemma segments_between_titles (pre block rest : list jsstring) (l w : jsstring) :
  findWork (trim l) = Some w -> Forall titleFree block ->
  match rest with
  | [] => True
  | l' :: _ => findWork (trim l') <> None
  end ->
  In (w, block) (segments (pre ++ l :: block ++ rest)).
Proof.
  intros Hw Hblock Hrest. unfold segments.
  rewrite (cutAtTitles_at_title pre (block ++ rest) l w Hw).
  right. apply in_or_app. right. left. f_equal.
  destruct rest as [|l' rest'].
  - rewrite app_nil_r. now rewrite cutAtTitles_free.
  - destruct (findWork (trim l')) as [w'|] eqn:Hw'; [|congruence].
    rewrite (cutAtTitles_at_title block rest' l' w' Hw').
    now rewrite cutAtTitles_free.
Qed.

(** The lines before the first title line are the segment of [UNKNOWN]. *)
Lemma segments_before_titles (block rest : list jsstring) :
  Forall titleFree block ->
  match rest with
  | [] => True
  | l' :: _ => findWork (trim l') <> None
  end ->
  hd_error (segments (block ++ rest)) = Some (lit "UNKNOWN", block).
Proof.
  intros Hblock Hrest. unfold segments. destruct rest as [|l' rest'].
  - rewrite app_nil_r. now rewrite cutAtTitles_free.
  - destruct (findWork (trim l')) as [w'|] eqn:Hw'; [|congruence].
    rewrite (cutAtTitles_at_title block rest' l' w' Hw').
    now rewrite cutAtTitles_free.
Qed.

(** The chunks of a text, segment after segment. *)
Lemma run_segments (ls : list jsstring) :
  forall st : State,
    map content (chunks (finish (processLines st ls)))
    = map content (chunks (finish (processLines st (fst (cutAtTitles ls)))))
      ++ flat_map (fun seg => map content (processSegment (fst seg) (snd seg)))
           (snd (cutAtTitles ls)).
Proof.
  induction ls as [|l rest IH]; intros st.
  - cbn [cutAtTitles fst snd flat_map]. now rewrite app_nil_r.
  - change (processLines st (l :: rest)) with (processLines (step st l) rest).
    rewrite IH. cbn [cutAtTitles].
    destruct (cutAtTitles rest) as [cur segs]. cbn [fst snd].
    destruct (findWork (trim l)) as [w|] eqn:Hfind; [|reflexivity].
    cbn [fst snd flat_map]. rewrite app_assoc. f_equal.
    rewrite (step_title st l w Hfind).
    change (processLines st []) with st.
    assert (Hcore : core (enterWork (finish st) w) = core (startOfWork w))
      by reflexivity.
    destruct (run_agrees cur _ _ Hcore) as [_ (E & Ha & Hb)].
    unfold processSegment. rewrite Ha, Hb. reflexivity.
Qed.

(** The works of the chunks, with the title lines as [findWork] finds
    them: the chunks of a text are those of its segments, one segment after
    the other, each segment being a title line of the catalog and the lines
    up to the next title line, [UNKNOWN] standing for the title before the
    first title line; every chunk of a segment carries the title of the
    segment as its work; and a text without title line yields chunks of
    work [UNKNOWN] only. *)
Theorem work_is_nearest_title (text : jsstring) :
  map content (processShakespeareText text)
  = flat_map (fun seg => map content (processSegment (fst seg) (snd seg)))
      (segments (split 10%N text))
  /\ (forall seg c,
        In seg (segments (split 10%N text)) ->
        In c (processSegment (fst seg) (snd seg)) -> work c = fst seg)
  /\ ((forall l, In l (split 10%N text) -> titleFree l) ->
      forall c, In c (processShakespeareText text) -> work c = lit "UNKNOWN").
Proof.
  split; [|split].
  - unfold processShakespeareText, segments.
    rewrite (run_segments (split 10%N text) initialState).
    destruct (cutAtTitles (split 10%N text)) as [cur segs].
    reflexivity.
  - unfold segments. intros seg c Hseg Hc.
    destruct (cutAtTitles_titleFree (split 10%N text)) as [Hcur Hsegs].
    destruct (cutAtTitles (split 10%N text)) as [cur segs].
    cbn [fst snd] in *. apply (processSegment_work _ (snd seg)); [|exact Hc].
    destruct Hseg as [<-|Hseg]; [exact Hcur|].
    rewrite Forall_forall in Hsegs. now apply Hsegs.
  - intros Hfree c Hc.
    apply (processSegment_work _ (split 10%N text)); [|exact Hc].
    now apply Forall_forall.
Qed.

(** ** Further properties of the ingestion script *)

(** *** Well-formed chunks *)

Lemma nonempty_app_l (a b : jsstring) :
  nonempty a = true -> nonempty (a ++ b) = true.
Proof. destruct a; [discriminate | reflexivity]. Qed.

Lemma partLabel_nonempty (sp : jsstring) (k : nat) :
  nonempty sp = true -> nonempty (partLabel sp k) = true.
Proof. intros H. unfold partLabel. now apply nonempty_app_l. Qed.

Lemma sealedSpeaker_truthy (chunk : Chunk) (k : nat) :
  truthy (speaker chunk) = true -> truthy (sealedSpeaker chunk k) = true.
Proof.
  intros H. unfold sealedSpeaker, labelled. rewrite H.
  destruct (speaker chunk) as [sp|]; [|discriminate H].
  cbn in *. now apply partLabel_nonempty.
Qed.

Lemma finalSpeaker_truthy (chunk : Chunk) (k : nat) :
  truthy (speaker chunk) = true -> truthy (finalSpeaker chunk k) = true.
Proof.
  intros H. unfold finalSpeaker, labelled. rewrite H.
  destruct (1 <? k); cbn [andb]; [|exact H].
  destruct (speaker chunk) as [sp|]; [|discriminate H].
  cbn in *. now apply partLabel_nonempty.
Qed.

Lemma unwords_wellFormed (g : list jsstring) :
  g <> [] -> Forall solid g ->
  nonempty (unwords g) = true /\ trim (unwords g) = unwords g.
Proof.
  intros Hne Hsolid. split; [now apply unwords_nonempty|].
  apply trim_fixed;
    [now apply unwords_starts_nonspace | now apply unwords_ends_nonspace].
Qed.

(** The parts of a well-formed chunk are well formed. *)
Lemma splitLargeChunk_wellFormed (chunk p : Chunk) :
  wellFormed chunk -> In p (splitLargeChunk chunk) -> wellFormed p.
Proof.
  intros (Hne & Htrim & Hsp) Hp.
  destruct (Nat.le_gt_cases (length (text chunk)) 800) as [Hsmall|Hbig].
  - unfold splitLargeChunk, splitLargeChunkAt in Hp.
    apply Nat.leb_le in Hsmall. rewrite Hsmall in Hp.
    destruct Hp as [<-|[]]. now repeat split.
  - destruct (splitLargeChunk_trimmed chunk Hbig Htrim)
      as (gs & f & _ & Hgs & Hsolid & _ & Hf & Hfs & _ & Hparts).
    rewrite Hparts in Hp. apply in_app_or in Hp as [Hp|[<-|[]]].
    + apply In_nth_error in Hp as [i Hp].
      apply sealParts_nth in Hp as (g & Hg & ->).
      apply nth_error_In in Hg.
      rewrite Forall_forall in Hgs, Hsolid.
      unfold wellFormed. cbn [part text speaker].
      rewrite (trim_joinSp_solid g (Hgs g Hg) (Hsolid g Hg)).
      destruct (unwords_wellFormed g (Hgs g Hg) (Hsolid g Hg)) as [H1 H2].
      repeat split; [exact H1 | exact H2 | now apply sealedSpeaker_truthy].
    + destruct (unwords_wellFormed f Hf Hfs) as [H1 H2].
      unfold wellFormed. cbn [part text speaker].
      repeat split; [exact H1 | exact H2 | now apply finalSpeaker_truthy].
Qed.

Lemma trim_nonempty_inv (s : jsstring) :
  nonempty (trim s) = true -> nonempty s = true.
Proof. destruct s; [discriminate | reflexivity]. Qed.

Lemma speechInv_push (st : State) (cs : list Chunk) :
  speechInv st -> Forall wellFormed cs -> speechInv (pushChunks st cs).
Proof.
  intros [Hsp Hall] Hcs. split; [exact Hsp|].
  cbn [pushChunks chunks]. apply Forall_app. now split.
Qed.

Lemma saveCurrentChunk_speechInv (st : State) :
  speechInv st -> speechInv (saveCurrentChunk st).
Proof.
  intros Hinv. unfold saveCurrentChunk.
  destruct (nonempty (trim (currentChunk st))) eqn:Hne; [|exact Hinv].
  apply speechInv_push; [exact Hinv|]. apply Forall_forall. intros p Hp.
  eapply splitLargeChunk_wellFormed; [|exact Hp].
  unfold wellFormed. cbn [text speaker]. repeat split.
  - exact Hne.
  - apply trim_idempotent.
  - apply Hinv. now apply trim_nonempty_inv.
Qed.

Lemma pushSonnet_speechInv (st : State) :
  speechInv st -> nonempty (trim (sonnetText st)) = true ->
  speechInv (pushSonnet st).
Proof.
  intros Hinv Hne. unfold pushSonnet. apply speechInv_push; [exact Hinv|].
  constructor; [|constructor]. unfold wellFormed. cbn [text speaker].
  repeat split; [exact Hne | apply trim_idempotent].
Qed.

Lemma finish_speechInv (st : State) : speechInv st -> speechInv (finish st).
Proof.
  intros Hinv. unfold finish.
  pose proof (saveCurrentChunk_speechInv st Hinv) as H1.
  destruct (inSonnets (saveCurrentChunk st)) eqn:Hin; cbn [andb]; [|exact H1].
  destruct (nonempty (trim (sonnetText (saveCurrentChunk st)))) eqn:Hne;
    [|exact H1].
  now apply pushSonnet_speechInv.
Qed.

Lemma setSonnet_speechInv (st : State) (n : option jsstring) (t : jsstring) :
  speechInv st -> speechInv (setSonnet st n t).
Proof. intros H. exact H. Qed.

Lemma step_speechInv (st : State) (l : jsstring) :
  speechInv st -> speechInv (step st l).
Proof.
  intros Hinv. destruct (findWork (trim l)) as [w|] eqn:Hfind.
  - rewrite (step_title st l w Hfind).
    destruct (finish_speechInv st Hinv) as [_ Hall].
    split; [discriminate | exact Hall].
  - unfold step. rewrite Hfind.
    destruct (negb (nonempty (trim l)) && negb (nonempty (currentChunk st)));
      [exact Hinv|].
    destruct (inSonnets st).
    + destruct (isSonnetNumber (trim l)) as [g|].
      * destruct (nonempty (trim (sonnetText st))) eqn:Hne.
        -- apply setSonnet_speechInv. now apply pushSonnet_speechInv.
        -- now apply setSonnet_speechInv.
      * destruct (truthy (sonnetNumber st) && nonempty (trim l));
          [now apply setSonnet_speechInv | exact Hinv].
    + cbv zeta. destruct (truthy (isSpeakerLine (trim l))) eqn:Hspk.
      * destruct (saveCurrentChunk_speechInv st Hinv) as [_ Hall].
        split; [discriminate | exact Hall].
      * destruct (test_prefix stageWords (trim l)); [exact Hinv|].
        destruct (test_whole bracketed (trim l)); [exact Hinv|].
        destruct (truthy (currentSpeaker st) && nonempty (trim l)) eqn:Hadd;
          [|exact Hinv].
        apply andb_true_iff in Hadd as [Hsp _].
        destruct Hinv as [_ Hall]. split; [intros _; exact Hsp | exact Hall].
Qed.

Lemma processLines_speechInv (ls : list jsstring) :
  forall st : State, speechInv st -> speechInv (processLines st ls).
Proof.
  induction ls as [|l ls IH]; intros st Hinv; [exact Hinv|].
  apply IH. now apply step_speechInv.
Qed.

Lemma initialState_speechInv : speechInv initialState.
Proof. split; [discriminate | constructor]. Qed.

(** X1: every chunk that [processShakespeareText] returns has a non-empty
    text that is its own trimmed form, and a speaker that is a non-empty
    string, never [null]. *)
Theorem raw_chunks_well_formed (text0 : jsstring) :
  Forall (fun c => text c <> [] /\ trim (text c) = text c
                   /\ exists sp, speaker c = Some sp /\ sp <> [])
         (processShakespeareText text0).
Proof.
  unfold processShakespeareText.
  pose proof (finish_speechInv _
                (processLines_speechInv (split 10%N text0) initialState
                   initialState_speechInv)) as [_ Hall].
  eapply Forall_impl; [|exact Hall].
  intros c (Hne & Htrim & Hsp). split; [|split].
  - intros E. rewrite E in Hne. discriminate Hne.
  - exact Htrim.
  - destruct (speaker c) as [sp|]; [|discriminate Hsp]. exists sp.
    split; [reflexivity|]. intros E. rewrite E in Hsp. discriminate Hsp.
Qed.

(** *** Text outside any speech *)

Lemma isSpeakerLine_trim (l : jsstring) :
  isSpeakerLine (trim l) = isSpeakerLine l.
Proof. unfold isSpeakerLine. now rewrite trim_idempotent. Qed.

(** A line that is neither a title nor a speaker cue leaves the state
    before the first speaker as it is. *)
Lemma step_no_speaker (st : State) (l : jsstring) :
  findWork (trim l) = None -> isSpeakerLine l = None ->
  inSonnets st = false -> currentSpeaker st = None ->
  step st l = st.
Proof.
  intros Hfind Hspk Hmode Hnone. unfold step.
  rewrite Hfind, Hmode, isSpeakerLine_trim, Hspk, Hnone. cbn [truthy andb].
  destruct (negb (nonempty (trim l)) && negb (nonempty (currentChunk st)));
    [reflexivity|].
  destruct (test_prefix stageWords (trim l)); [reflexivity|].
  destruct (test_whole bracketed (trim l)); reflexivity.
Qed.

(** X2: a text in which no line holds a title of the catalog and no line
    is a speaker cue yields no chunk at all: text outside any speech is
    dropped. *)
Theorem prose_without_speaker_is_dropped (text0 : jsstring) :
  (forall l, In l (split 10%N text0) ->
             findWork (trim l) = None /\ isSpeakerLine l = None) ->
  processShakespeareText text0 = [].
Proof.
  intros Hlines. unfold processShakespeareText.
  assert (Hrun : processLines initialState (split 10%N text0) = initialState).
  { induction (split 10%N text0) as [|l ls IH]; [reflexivity|].
    cbn [processLines fold_left].
    destruct (Hlines l (or_introl eq_refl)) as [Hfind Hspk].
    rewrite (step_no_speaker initialState l Hfind Hspk eq_refl eq_refl).
    apply IH. intros l' Hl'. apply Hlines. now right. }
  rewrite Hrun. reflexivity.
Qed.

Lemma prose_without_speaker_is_dropped_witness :
  processShakespeareText prose = [].
Proof.
  apply (prose_without_speaker_is_dropped prose).
  intros l Hl. vm_compute in Hl.
  repeat (destruct Hl as [<-|Hl]; [split; reflexivity|]). destruct Hl.
Defined.

(** *** The ids of the raw chunks *)

Lemma StronglySorted_app (a b : list nat) :
  StronglySorted le a -> StronglySorted le b ->
  (forall x y, In x a -> In y b -> x <= y) ->
  StronglySorted le (a ++ b).
Proof.
  intros Ha Hb Hab. induction Ha as [|x a Ha IH Hx]; [exact Hb|].
  cbn [app]. constructor.
  - apply IH. intros u v Hu Hv. apply Hab; [now right | exact Hv].
  - apply Forall_app. split; [exact Hx|].
    apply Forall_forall. intros y Hy. apply Hab; [now left | exact Hy].
Qed.

Lemma StronglySorted_constant (k : nat) (l : list nat) :
  (forall x, In x l -> x = k) -> StronglySorted le l.
Proof.
  induction l as [|x l IH]; intros Hall; constructor.
  - apply IH. intros y Hy. apply Hall. now right.
  - apply Forall_forall. intros y Hy.
    rewrite (Hall x (or_introl eq_refl)), (Hall y (or_intror Hy)).
    apply Nat.le_refl.
Qed.

Lemma pushChunks_idsOrdered (st : State) (cs : list Chunk) :
  idsOrdered st -> cs <> [] -> (forall c, In c cs -> id c = chunkId st) ->
  idsOrdered (pushChunks st cs).
Proof.
  intros [Hsorted Hids] Hne Hcs.
  assert (Hnew : forall n, In n (map id cs) <-> n = chunkId st).
  { intros n. split.
    - intros Hn. apply in_map_iff in Hn as (c & <- & Hc). now apply Hcs.
    - intros ->. destruct cs as [|c cs]; [congruence|].
      left. apply Hcs. now left. }
  split; cbn [pushChunks chunks chunkId]; rewrite map_app.
  - apply StronglySorted_app; [exact Hsorted | |].
    + apply (StronglySorted_constant (chunkId st)). intros x. apply Hnew.
    + intros x y Hx Hy. apply Hids in Hx. apply Hnew in Hy. lia.
  - intros n. rewrite in_app_iff, Hids, Hnew. lia.
Qed.

Lemma splitLargeChunk_nonempty (chunk : Chunk) :
  wellFormed chunk -> splitLargeChunk chunk <> [].
Proof.
  intros (Hne & Htrim & _).
  destruct (Nat.le_gt_cases (length (text chunk)) 800) as [Hsmall|Hbig].
  - unfold splitLargeChunk, splitLargeChunkAt.
    apply Nat.leb_le in Hsmall. rewrite Hsmall. discriminate.
  - destruct (splitLargeChunk_trimmed chunk Hbig Htrim)
      as (gs & f & _ & _ & _ & _ & _ & _ & _ & ->).
    intros E. apply app_eq_nil in E as [_ E]. discriminate E.
Qed.

Lemma saveCurrentChunk_idsOrdered (st : State) :
  speechInv st -> idsOrdered st -> idsOrdered (saveCurrentChunk st).
Proof.
  intros Hsp Hids. unfold saveCurrentChunk.
  destruct (nonempty (trim (currentChunk st))) eqn:Hne; [|exact Hids].
  apply pushChunks_idsOrdered; [exact Hids | |].
  - apply splitLargeChunk_nonempty. unfold wellFormed. cbn [text speaker].
    repeat split; [exact Hne | apply trim_idempotent|].
    apply Hsp. now apply trim_nonempty_inv.
  - intros c Hc. now apply splitLargeChunk_id_work in Hc as [-> _].
Qed.

Lemma pushSonnet_idsOrdered (st : State) :
  idsOrdered st -> idsOrdered (pushSonnet st).
Proof.
  intros Hids. unfold pushSonnet.
  apply pushChunks_idsOrdered; [exact Hids | discriminate |].
  intros c [<-|[]]. reflexivity.
Qed.

Lemma finish_idsOrdered (st : State) :
  speechInv st -> idsOrdered st -> idsOrdered (finish st).
Proof.
  intros Hsp Hids. unfold finish.
  pose proof (saveCurrentChunk_idsOrdered st Hsp Hids) as H1.
  destruct (inSonnets (saveCurrentChunk st)
            && nonempty (trim (sonnetText (saveCurrentChunk st))));
    [now apply pushSonnet_idsOrdered | exact H1].
Qed.

Lemma step_idsOrdered (st : State) (l : jsstring) :
  speechInv st -> idsOrdered st -> idsOrdered (step st l).
Proof.
  intros Hsp Hids. destruct (findWork (trim l)) as [w|] eqn:Hfind.
  - rewrite (step_title st l w Hfind).
    exact (finish_idsOrdered st Hsp Hids).
  - unfold step. rewrite Hfind.
    destruct (negb (nonempty (trim l)) && negb (nonempty (currentChunk st)));
      [exact Hids|].
    destruct (inSonnets st).
    + destruct (isSonnetNumber (trim l)) as [g|].
      * destruct (nonempty (trim (sonnetText st)));
          [exact (pushSonnet_idsOrdered st Hids) | exact Hids].
      * destruct (truthy (sonnetNumber st) && nonempty (trim l)); exact Hids.
    + cbv zeta. destruct (truthy (isSpeakerLine (trim l))).
      * exact (saveCurrentChunk_idsOrdered st Hsp Hids).
      * destruct (test_prefix stageWords (trim l)); [exact Hids|].
        destruct (test_whole bracketed (trim l)); [exact Hids|].
        destruct (truthy (currentSpeaker st) && nonempty (trim l));
          exact Hids.
Qed.

Lemma processLines_idsOrdered (ls : list jsstring) :
  forall st : State,
    speechInv st -> idsOrdered st ->
    speechInv (processLines st ls) /\ idsOrdered (processLines st ls).
Proof.
  induction ls as [|l ls IH]; intros st Hsp Hids; [now split|].
  apply IH; [now apply step_speechInv | now apply step_idsOrdered].
Qed.

(** X3: the ids of the chunks that [processShakespeareText] returns are in
    increasing order (equal ids next to each other), and they are exactly
    the numbers 0, ..., k-1 for some k: no id is skipped. *)
Theorem raw_ids_are_consecutive_runs (text0 : jsstring) :
  exists k,
    StronglySorted le (map id (processShakespeareText text0))
    /\ forall n, In n (map id (processShakespeareText text0)) <-> n < k.
Proof.
  unfold processShakespeareText.
  assert (H0 : idsOrdered initialState).
  { split; [constructor|]. intros n. cbn. lia. }
  destruct (processLines_idsOrdered (split 10%N text0) initialState
              initialState_speechInv H0) as [Hsp Hids].
  exists (chunkId (finish (processLines initialState (split 10%N text0)))).
  exact (finish_idsOrdered _ Hsp Hids).
Qed.

(** *** cleanChunks: what survives *)

Lemma renumber_In (cs : list Chunk) :
  forall (k : nat) (c : CleanChunk),
    In c (renumber k cs) ->
    exists c0 i, In c0 cs
                 /\ c = {| base := withId c0 i;
                           textLength := length (text c0);
                           wordCount := countWords (text c0) |}.
Proof.
  induction cs as [|c0 cs IH]; intros k c Hc; [destruct Hc|].
  destruct Hc as [<-|Hc].
  - exists c0, k. split; [now left | reflexivity].
  - apply IH in Hc as (c1 & i & Hin & ->). exists c1, i.
    split; [now right | reflexivity].
Qed.

(** X4: a chunk that [cleanChunks] returns has a text of ten code units or
    more that does not start with ACT, SCENE, EPILOGUE or PROLOGUE; its
    [textLength] is the length of its text and its [wordCount] is
    [countWords] of its text. *)
Theorem cleanChunks_survivors (cs : list Chunk) :
  Forall (fun c => 10 <= length (text (base c))
                   /\ test_prefix headerWords (text (base c)) = false
                   /\ textLength c = length (text (base c))
                   /\ wordCount c = countWords (text (base c)))
         (cleanChunks cs).
Proof.
  apply Forall_forall. intros c Hc. unfold cleanChunks in Hc.
  apply renumber_In in Hc as (c0 & i & Hin & ->).
  apply filter_In in Hin as [_ Hkeep]. cbn [base textLength wordCount withId text].
  unfold keepChunk in Hkeep.
  destruct (length (text c0) <? 10) eqn:Hlen; [discriminate|].
  destruct (test_whole stageDirectionPattern (text c0)); [discriminate|].
  destruct (test_prefix headerWords (text c0)); [discriminate|].
  apply Nat.ltb_ge in Hlen. now repeat split.
Qed.

Lemma renumber_base_keep (cs : list Chunk) :
  forall k : nat,
    Forall (fun c => keepChunk c = true) cs ->
    filter keepChunk (map base (renumber k cs)) = map base (renumber k cs).
Proof.
  induction cs as [|c cs IH]; intros k Hall; [reflexivity|].
  inversion Hall as [|? ? Hc Hcs]; subst.
  cbn [renumber map filter base]. rewrite keepChunk_withId, Hc.
  now rewrite IH.
Qed.

Lemma renumber_again (cs : list Chunk) :
  forall k : nat, renumber k (map base (renumber k cs)) = renumber k cs.
Proof.
  induction cs as [|c cs IH]; intros k; [reflexivity|].
  cbn [renumber map base]. now rewrite IH.
Qed.

(** X5: cleaning again the chunks that [cleanChunks] returns changes
    nothing: none is dropped, and ids, lengths and word counts stay. *)
Theorem cleanChunks_idempotent (cs : list Chunk) :
  cleanChunks (map base (cleanChunks cs)) = cleanChunks cs.
Proof.
  unfold cleanChunks. rewrite renumber_base_keep.
  - apply renumber_again.
  - apply Forall_forall. intros c Hc. now apply filter_In in Hc as [_ Hc].
Qed.

(** *** countWords *)

Lemma tally_nil (k : bool) : tally k [] = (false, 0).
Proof. reflexivity. Qed.

Lemma tally_space_skipping (c : N) (t : jsstring) :
  is_space c = true -> tally true (c :: t) = tally true t.
Proof. intros H. unfold tally. cbn [split_spaces]. now rewrite H. Qed.

Lemma tally_space (c : N) (t : jsstring) :
  is_space c = true -> tally false (c :: t) = (false, total (tally true t)).
Proof.
  intros H. unfold tally, total. cbn [split_spaces]. rewrite H.
  destruct (split_spaces true t) as [h r]. cbn [fst snd existsb filter].
  f_equal. unfold countsAsWord at 1.
  destruct h as [|x h]; [reflexivity|]. cbn [length Nat.ltb Nat.leb andb].
  now destruct (existsb is_alnum (x :: h)).
Qed.

Lemma tally_char (k : bool) (c : N) (t : jsstring) :
  is_space c = false ->
  tally k (c :: t) = (is_alnum c || fst (tally false t), snd (tally false t)).
Proof.
  intros H. unfold tally. cbn [split_spaces]. rewrite H.
  destruct (split_spaces false t) as [h r]. destruct k; reflexivity.
Qed.

Lemma total_tally_skipping (s : jsstring) :
  total (tally true s) = total (tally false s).
Proof.
  destruct s as [|c t]; [reflexivity|]. destruct (is_space c) eqn:Hc.
  - now rewrite tally_space_skipping, tally_space.
  - now rewrite !tally_char.
Qed.

Lemma split_collapse (s : jsstring) :
  forall k : bool,
    split_spaces k (collapse_spaces k s) = split_spaces k s.
Proof.
  induction s as [|c t IH]; intros k; [reflexivity|].
  cbn [collapse_spaces split_spaces]. destruct (is_space c) eqn:Hc.
  - destruct k; [apply IH|].
    cbn [split_spaces]. replace (is_space 32) with true by reflexivity.
    now rewrite IH.
  - cbn [split_spaces]. rewrite Hc. now rewrite IH.
Qed.

Lemma tally_dropWhile (s : jsstring) :
  total (tally false (dropWhile is_space s)) = total (tally false s).
Proof.
  induction s as [|c t IH]; [reflexivity|]. cbn [dropWhile].
  destruct (is_space c) eqn:Hc; [|reflexivity].
  rewrite IH, tally_space by exact Hc. cbn [total fst snd].
  now rewrite total_tally_skipping.
Qed.

Lemma tally_snoc_space (s : jsstring) (c : N) :
  is_space c = true -> forall k : bool, tally k (s ++ [c]) = tally k s.
Proof.
  intros Hc. induction s as [|x t IH]; intros k.
  - cbn [app]. destruct k; [now rewrite tally_space_skipping|].
    now rewrite tally_space.
  - cbn [app]. destruct (is_space x) eqn:Hx.
    + destruct k.
      * rewrite !tally_space_skipping by exact Hx. apply IH.
      * rewrite !tally_space by exact Hx. now rewrite IH.
    + rewrite !tally_char by exact Hx. now rewrite IH.
Qed.

Lemma tally_trimEnd (s : jsstring) (k : bool) :
  tally k (trimEnd s) = tally k s.
Proof.
  induction s as [|c s IH] using rev_ind; [reflexivity|].
  destruct (is_space c) eqn:Hc.
  - rewrite trimEnd_app_space, tally_snoc_space by exact Hc. exact IH.
  - rewrite trimEnd_ends_nonspace; [reflexivity|].
    now rewrite ends_nonspace_snoc, Hc.
Qed.

Lemma tally_trim (s : jsstring) :
  total (tally false (trim s)) = total (tally false s).
Proof.
  unfold trim, trimStart. rewrite tally_trimEnd. apply tally_dropWhile.
Qed.

(** [countWords] counts the pieces between white space that hold a letter
    or a digit; trimming and collapsing the white space first makes no
    difference. *)
Lemma countWords_tally (s : jsstring) : countWords s = total (tally false s).
Proof.
  unfold countWords. destruct s as [|c t]; [reflexivity|].
  cbn [nonempty negb]. rewrite split_collapse, <- tally_trim.
  unfold tally, total.
  destruct (split_spaces false (trim (c :: t))) as [h r].
  cbn [fst snd filter].
  replace ((0 <? length h) && existsb is_alnum h) with (existsb is_alnum h)
    by (destruct h; reflexivity).
  destruct (existsb is_alnum h); reflexivity.
Qed.

Lemma is_alnum_not_space (c : N) : is_alnum c = true -> is_space c = false.
Proof.
  unfold is_alnum, is_lower, is_upper, is_digit, is_space. intros H.
  apply not_true_is_false. intros Hs.
  repeat rewrite ?orb_true_iff, ?andb_true_iff, ?N.leb_le, ?N.eqb_eq in H.
  repeat rewrite ?orb_true_iff, ?andb_true_iff, ?N.leb_le, ?N.eqb_eq in Hs.
  lia.
Qed.

Lemma total_tally_zero (s : jsstring) :
  forall k : bool, total (tally k s) = 0 <-> existsb is_alnum s = false.
Proof.
  induction s as [|c t IH]; intros k; [now split|].
  cbn [existsb]. destruct (is_space c) eqn:Hc.
  - assert (Ha : is_alnum c = false).
    { destruct (is_alnum c) eqn:E; [|reflexivity].
      apply is_alnum_not_space in E. congruence. }
    rewrite Ha. cbn [orb]. destruct k.
    + rewrite tally_space_skipping by exact Hc. apply IH.
    + rewrite tally_space by exact Hc. cbn [total fst snd]. apply IH.
  - rewrite tally_char by exact Hc. specialize (IH false).
    unfold total in *. cbn [fst snd].
    destruct (tally false t) as [b n]. cbn [fst snd] in *.
    destruct (is_alnum c); cbn [orb].
    + split; [lia | discriminate].
    + exact IH.
Qed.

(** X6: [countWords] returns 0 exactly for the texts that hold no letter
    and no digit. *)
Theorem countWords_zero_iff (s : jsstring) :
  countWords s = 0 <-> existsb is_alnum s = false.
Proof. rewrite countWords_tally. apply total_tally_zero. Qed.

Lemma tally_app_space (a b : jsstring) (c : N) :
  is_space c = true ->
  tally false (a ++ c :: b)
  = (fst (tally false a), snd (tally false a) + total (tally false b)).
Proof.
  intros Hc. induction a as [|x t IH].
  - cbn [app]. rewrite tally_space by exact Hc.
    now rewrite total_tally_skipping.
  - cbn [app]. destruct (is_space x) eqn:Hx.
    + rewrite !tally_space by exact Hx.
      rewrite !total_tally_skipping, IH. cbn [fst snd]. f_equal.
      unfold total. cbn [fst snd]. lia.
    + rewrite !tally_char by exact Hx. now rewrite IH.
Qed.

(** X7: white space at the ends of a text does not change [countWords],
    and the count of two texts joined by a white space is the sum of their
    counts. *)
Theorem countWords_additive (a b : jsstring) (c : N) :
  is_space c = true ->
  countWords (trim a) = countWords a
  /\ countWords (a ++ c :: b) = countWords a + countWords b.
Proof.
  intros Hc. rewrite !countWords_tally. split; [apply tally_trim|].
  rewrite (tally_app_space a b c Hc). unfold total. cbn [fst snd]. lia.
Qed.

Lemma countWords_additive_witness :
  countWords (trim (lit " To be, ")) = countWords (lit " To be, ")
  /\ countWords (lit " To be, " ++ 10%N :: lit "or not to be.")
     = countWords (lit " To be, ") + countWords (lit "or not to be.").
Proof.
  apply (countWords_additive (lit " To be, ") (lit "or not to be.") 10%N).
  reflexivity.
Defined.

(** *** The matcher: remainders are suffixes *)

Lemma star_run_suffix (step : jsstring -> list jsstring) :
  (forall s x, In x (step s) -> exists p, s = p ++ x) ->
  forall (fuel : nat) (s x : jsstring),
    In x (star_run step fuel s) -> exists p, s = p ++ x.
Proof.
  intros Hstep. induction fuel as [|f IH]; intros s x Hx.
  - destruct Hx as [<-|[]]. now exists [].
  - cbn [star_run] in Hx. apply in_app_or in Hx as [Hx|[<-|[]]];
      [|now exists []].
    apply in_flat_map in Hx as (y & Hy & Hx).
    destruct (length y <? length s); [|destruct Hx].
    apply Hstep in Hy as [p1 ->]. apply IH in Hx as [p2 ->].
    exists (p1 ++ p2). now rewrite app_assoc.
Qed.

Lemma lazy_run_suffix (step : jsstring -> list jsstring) :
  (forall s x, In x (step s) -> exists p, s = p ++ x) ->
  forall (fuel : nat) (s x : jsstring),
    In x (lazy_run step fuel s) -> exists p, s = p ++ x.
Proof.
  intros Hstep. induction fuel as [|f IH]; intros s x Hx.
  - destruct Hx as [<-|[]]. now exists [].
  - cbn [lazy_run] in Hx. destruct Hx as [<-|Hx]; [now exists []|].
    apply in_flat_map in Hx as (y & Hy & Hx).
    destruct (length y <? length s); [|destruct Hx].
    apply Hstep in Hy as [p1 ->]. apply IH in Hx as [p2 ->].
    exists (p1 ++ p2). now rewrite app_assoc.
Qed.

(** What is left after a match is a suffix of the subject. *)
Lemma run_suffix (r : regex) :
  forall s x : jsstring, In x (run r s) -> exists p, s = p ++ x.
Proof.
  induction r as [|p|a IHa b IHb|a IHa b IHb|a IHa|a IHa]; intros s x Hx;
    cbn [run] in Hx.
  - destruct Hx as [<-|[]]. now exists [].
  - destruct s as [|c t]; [destruct Hx|].
    destruct (p c); [|destruct Hx]. destruct Hx as [<-|[]]. now exists [c].
  - apply in_flat_map in Hx as (y & Hy & Hx).
    apply IHa in Hy as [p1 ->]. apply IHb in Hx as [p2 ->].
    exists (p1 ++ p2). now rewrite app_assoc.
  - apply in_app_or in Hx as [Hx|Hx]; [now apply IHa | now apply IHb].
  - now apply (star_run_suffix (run a) IHa) in Hx.
  - apply in_flat_map in Hx as (y & Hy & Hx).
    apply IHa in Hy as [p1 ->].
    apply (lazy_run_suffix (run a) IHa) in Hx as [p2 ->].
    exists (p1 ++ p2). now rewrite app_assoc.
Qed.

(** A match with a capture group splits the subject in the group and a
    rest that the tail of the pattern accepts. *)
Lemma capture_inv (grp post : regex) (s g : jsstring) :
  capture Eps grp post s = Some g ->
  exists r2, s = g ++ r2 /\ In r2 (run grp s) /\ test_whole post r2 = true.
Proof.
  unfold capture. cbn [run flat_map]. rewrite app_nil_r.
  destruct (flat_map _ (run grp s)) as [|g' tries] eqn:Htries; [discriminate|].
  intros [= <-].
  assert (Hin : In g' (g' :: tries)) by (left; reflexivity).
  rewrite <- Htries in Hin. apply in_flat_map in Hin as (r2 & Hr2 & Hin).
  destruct (test_whole post r2) eqn:Hpost; [|contradiction].
  destruct Hin as [<-|[]]. exists r2.
  destruct (run_suffix grp s r2 Hr2) as [p ->].
  rewrite length_app, Nat.add_sub, firstn_app, Nat.sub_diag, firstn_all.
  cbn [firstn]. rewrite app_nil_r. now repeat split.
Qed.

Lemma star_run_nil_inv (p : N -> bool) (fuel : nat) :
  forall s : jsstring,
    In [] (star_run (run (Cls p)) fuel s) -> forallb p s = true.
Proof.
  induction fuel as [|f IH]; intros s Hin.
  - destruct Hin as [->|[]]. reflexivity.
  - cbn [star_run] in Hin. apply in_app_or in Hin as [Hin|[->|[]]];
      [|reflexivity].
    apply in_flat_map in Hin as (y & Hy & Hin).
    destruct s as [|c t]; [destruct Hy|]. cbn [run] in Hy.
    destruct (p c) eqn:Hc; [|destruct Hy]. destruct Hy as [<-|[]].
    destruct (length t <? length (c :: t)); [|destruct Hin].
    cbn [forallb]. now rewrite Hc, (IH t Hin).
Qed.

(** What the tail [\.?\s*$] of [speakerPattern] accepts. *)
Lemma speakerTail_inv (r : jsstring) :
  test_whole speakerTail r = true ->
  forallb is_space r = true
  \/ exists r', r = 46%N :: r' /\ forallb is_space r' = true.
Proof.
  unfold test_whole, speakerTail, Opt. intros H.
  apply existsb_exists in H as (x & Hx & Hnil).
  destruct x; [|discriminate Hnil]. cbn [run] in Hx.
  apply in_flat_map in Hx as (y & Hy & Hx).
  apply star_run_nil_inv in Hx.
  apply in_app_or in Hy as [Hy|[<-|[]]]; [|now left].
  destruct r as [|c t]; [destruct Hy|]. unfold Chr in Hy. cbn [run] in Hy.
  destruct (46 =? c)%N eqn:Hc; [|destruct Hy]. destruct Hy as [<-|[]].
  apply N.eqb_eq in Hc as <-. right. eauto.
Qed.

Lemma all_space_not_ends_nonspace (s : jsstring) :
  forallb is_space s = true -> ends_nonspace s = false.
Proof.
  induction s as [|c t IH]; [reflexivity|]. cbn [forallb].
  intros H. apply andb_true_iff in H as [Hc Ht]. cbn [ends_nonspace].
  destruct t; [now rewrite Hc | now apply IH].
Qed.

(** In a trimmed line the tail is empty or one period. *)
Lemma speakerTail_trimmed (r : jsstring) :
  test_whole speakerTail r = true -> (r = [] \/ ends_nonspace r = true) ->
  r = [] \/ r = [46%N].
Proof.
  intros Htail Hend. destruct Hend as [->|Hend]; [now left|].
  apply speakerTail_inv in Htail as [Hall|(r' & -> & Hall)].
  - apply all_space_not_ends_nonspace in Hall. congruence.
  - right. destruct r' as [|c r']; [reflexivity|].
    apply all_space_not_ends_nonspace in Hall.
    change (ends_nonspace (c :: r') = true) in Hend. congruence.
Qed.

(** *** Speaker cues: the denylist *)

Lemma startsWith_inv (s p : jsstring) :
  startsWith s p = true -> exists x, s = p ++ x.
Proof.
  revert s. induction p as [|a p IH]; intros s H; [now exists s|].
  destruct s as [|b s]; [discriminate H|]. cbn [startsWith] in H.
  apply andb_true_iff in H as [Hab H]. apply N.eqb_eq in Hab as ->.
  apply IH in H as [x ->]. now exists x.
Qed.

Lemma startsWith_app (p x : jsstring) : startsWith (p ++ x) p = true.
Proof.
  induction p as [|a p IH]; [now destruct x|].
  cbn [app startsWith]. now rewrite N.eqb_refl, IH.
Qed.

Lemma ends_nonspace_app_inv (a b : jsstring) :
  ends_nonspace (a ++ b) = true -> b = [] \/ ends_nonspace b = true.
Proof.
  destruct b as [|c b] using rev_ind; [now left|]. clear IHb.
  rewrite app_assoc, !ends_nonspace_snoc. now right.
Qed.

Lemma trimEnd_keeps_prefix (p x : jsstring) :
  ends_nonspace p = true -> exists y, trimEnd (p ++ x) = p ++ y.
Proof.
  intros Hp. induction x as [|c x IH] using rev_ind.
  - exists []. now rewrite app_nil_r, trimEnd_ends_nonspace.
  - rewrite app_assoc. destruct (is_space c) eqn:Hc.
    + now rewrite trimEnd_app_space.
    + exists (x ++ [c]). rewrite trimEnd_ends_nonspace;
        [now rewrite app_assoc | now rewrite ends_nonspace_snoc, Hc].
Qed.

Lemma is_upper_not_space (c : N) : is_upper c = true -> is_space c = false.
Proof.
  intros H. apply is_alnum_not_space. unfold is_alnum. rewrite H.
  now rewrite orb_true_r.
Qed.

(** Every entry of [nonSpeakers] starts and ends with an upper-case
    letter. *)
Lemma nonSpeakers_shape (ns : jsstring) :
  In ns nonSpeakers ->
  exists a t p b, ns = a :: t /\ ns = p ++ [b]
                  /\ is_upper a = true /\ is_upper b = true.
Proof.
  intros Hin.
  assert (Hall : forallb (fun w =>
                            match w with a :: _ => is_upper a | [] => false end
                            && match rev w with
                               | b :: _ => is_upper b
                               | [] => false
                               end) nonSpeakers = true) by reflexivity.
  rewrite forallb_forall in Hall. specialize (Hall ns Hin).
  apply andb_true_iff in Hall as [Ha Hb].
  destruct ns as [|a t]; [discriminate Ha|].
  destruct (rev (a :: t)) as [|b l] eqn:Hrev; [discriminate Hb|].
  exists a, t, (rev l), b. repeat split; try assumption.
  rewrite <- (rev_involutive (a :: t)), Hrev. reflexivity.
Qed.

(** The speaker of a line that starts with an entry of [nonSpeakers]
    starts with this entry. *)
Lemma denylisted_speaker (s g ns : jsstring) :
  In ns nonSpeakers -> startsWith s ns = true -> trim s = s ->
  capture Eps speakerGroup speakerTail s = Some g ->
  startsWith (trim g) ns = true.
Proof.
  intros Hin Hstart Htrim Hcap.
  destruct (nonSpeakers_shape ns Hin) as (a & t & p & b & Hhead & Hlast & Ha & Hb).
  apply startsWith_inv in Hstart as [x Hs].
  assert (Hne : s <> []) by (rewrite Hs, Hhead; discriminate).
  destruct (trimmed_inv s Htrim Hne) as [_ Hends].
  apply capture_inv in Hcap as (r2 & Hsplit & _ & Htail).
  assert (Hr2 : r2 = [] \/ r2 = [46%N]).
  { apply speakerTail_trimmed; [exact Htail|].
    apply (ends_nonspace_app_inv g). now rewrite <- Hsplit. }
  destruct Hr2 as [->| ->].
  - rewrite app_nil_r in Hsplit. subst g. rewrite Htrim, Hs.
    apply startsWith_app.
  - assert (Hg : exists x', g = ns ++ x').
    { destruct x as [|c x _] using rev_ind.
      - exfalso. rewrite app_nil_r in Hs. rewrite Hs, Hlast in Hsplit.
        apply app_inj_tail in Hsplit as [_ Hb46]. rewrite Hb46 in Hb.
        discriminate Hb.
      - rewrite Hs, app_assoc in Hsplit.
        apply app_inj_tail in Hsplit as [<- _]. eauto. }
    destruct Hg as [x' ->].
    assert (Hnsend : ends_nonspace ns = true).
    { rewrite Hlast, ends_nonspace_snoc.
      now rewrite (is_upper_not_space b Hb). }
    unfold trim, trimStart. rewrite dropWhile_head.
    + destruct (trimEnd_keeps_prefix ns x' Hnsend) as [y ->].
      apply startsWith_app.
    + rewrite Hhead. cbn [app]. now apply is_upper_not_space.
Qed.

(** X8: a line whose trimmed content starts with an entry of the denylist
    [nonSpeakers] (ACT, SCENE, CHORUS, ENTER, EXIT, ...) is never a speaker
    cue, whatever follows the entry. *)
Theorem denylisted_line_is_no_speaker (line ns : jsstring) :
  In ns nonSpeakers -> startsWith (trim line) ns = true ->
  isSpeakerLine line = None.
Proof.
  intros Hin Hstart. unfold isSpeakerLine.
  destruct (capture Eps speakerGroup speakerTail (trim line)) as [g|] eqn:Hcap;
    [|reflexivity].
  pose proof (denylisted_speaker (trim line) g ns Hin Hstart
                (trim_idempotent line) Hcap) as Hsp.
  replace (isValidSpeaker (trim g)) with false; [reflexivity|].
  symmetry. unfold isValidSpeaker.
  replace (existsb (fun ns0 => startsWith (trim g) ns0) nonSpeakers) with true.
  - cbn [negb]. now rewrite andb_false_r.
  - symmetry. apply existsb_exists. exists ns. now split.
Qed.

Lemma denylisted_line_is_no_speaker_witness :
  isSpeakerLine (lit "CHORUS.") = None.
Proof.
  apply (denylisted_line_is_no_speaker (lit "CHORUS.") (lit "CHORUS")).
  - vm_compute. tauto.
  - reflexivity.
Defined.

(** *** Speaker cues: plain names *)

(** A lazy iteration over a class tries the remainders from the longest to
    the shortest; the first one that passes decides. *)
Lemma lazy_run_first (B : Type) (F : jsstring -> list B) (p : N -> bool)
    (e : jsstring) :
  forall (m : jsstring) (fuel : nat),
    length (m ++ e) <= fuel -> forallb p m = true ->
    (forall m1 m2, m = m1 ++ m2 -> m2 <> [] -> F (m2 ++ e) = []) ->
    exists rest,
      flat_map F (lazy_run (run (Cls p)) fuel (m ++ e)) = F e ++ rest.
Proof.
  induction m as [|x m IH]; intros fuel Hfuel Hall Hfail.
  - cbn [app]. destruct fuel; cbn [lazy_run flat_map]; eauto.
  - destruct fuel as [|f]; [cbn in Hfuel; lia|].
    cbn [forallb] in Hall. apply andb_true_iff in Hall as [Hx Hm].
    cbn [app lazy_run run flat_map]. rewrite Hx. cbn [flat_map].
    replace (length (m ++ e) <? length (x :: m ++ e)) with true
      by (symmetry; apply Nat.ltb_lt; cbn; lia).
    rewrite app_nil_r.
    assert (H0 : F (x :: m ++ e) = [])
      by (apply (Hfail [] (x :: m)); [reflexivity | discriminate]).
    rewrite H0. cbn [app].
    apply IH; [cbn in Hfuel; lia | exact Hm |].
    intros m1 m2 -> Hne. apply (Hfail (x :: m1) m2); [reflexivity | exact Hne].
Qed.

Lemma ends_nonspace_suffix (a b : jsstring) :
  ends_nonspace (a ++ b) = true -> b <> [] -> ends_nonspace b = true.
Proof.
  intros H Hne. destruct (ends_nonspace_app_inv a b H); congruence.
Qed.

(** [speakerPattern] on a plain name, with or without a final period:
    the group is the name. *)
Lemma capture_plainName (w e : jsstring) :
  plainName w = true -> e = [] \/ e = [46%N] ->
  capture Eps speakerGroup speakerTail (w ++ e) = Some w.
Proof.
  unfold plainName. intros Hplain He.
  apply andb_true_iff in Hplain as [Hplain Hends].
  apply andb_true_iff in Hplain as [Hhead Hall].
  destruct w as [|c [|c2 m]]; try discriminate Hhead.
  cbn [forallb] in Hall.
  apply andb_true_iff in Hall as [_ Hall].
  apply andb_true_iff in Hall as [Hc2 Hm].
  apply andb_true_iff in Hc2 as [Hc2 _].
  assert (Htail : test_whole speakerTail e = true)
    by (destruct He as [->| ->]; reflexivity).
  assert (Hfail : forall m1 m2, m = m1 ++ m2 -> m2 <> [] ->
                                test_whole speakerTail (m2 ++ e) = false).
  { intros m1 m2 -> Hne. apply not_true_is_false. intros Ht.
    assert (Hend : ends_nonspace (m2 ++ e) = true).
    { destruct He as [->| ->].
      - rewrite app_nil_r.
        apply (ends_nonspace_suffix (c :: c2 :: m1)); [exact Hends | exact Hne].
      - now rewrite ends_nonspace_snoc. }
    apply speakerTail_inv in Ht as [Hsp|(r' & Hr & _)].
    - apply all_space_not_ends_nonspace in Hsp. congruence.
    - destruct m2 as [|x m2]; [congruence|]. injection Hr as -> _.
      rewrite forallb_app in Hm. apply andb_true_iff in Hm as [_ Hm].
      cbn [forallb] in Hm. apply andb_true_iff in Hm as [Hx _].
      apply andb_true_iff in Hx as [_ Hx]. discriminate Hx. }
  unfold capture, speakerGroup. cbn [app run flat_map].
  rewrite Hhead. cbn [flat_map]. rewrite Hc2. cbn [flat_map].
  rewrite !app_nil_r.
  set (F := fun r2 : jsstring =>
              if test_whole speakerTail r2
              then [firstn (length (c :: c2 :: m ++ e) - length r2)
                      (c :: c2 :: m ++ e)]
              else []).
  destruct (lazy_run_first (list N) F is_speaker_char e m (length (m ++ e)))
    as [rest Hrest].
  - apply Nat.le_refl.
  - eapply forallb_impl; [|exact Hm]. intros x Hx.
    now apply andb_true_iff in Hx as [Hx _].
  - intros m1 m2 Hm12 Hne. unfold F. now rewrite (Hfail m1 m2 Hm12 Hne).
  - cbn [run] in Hrest. rewrite Hrest. unfold F at 1. rewrite Htail.
    cbn [app]. f_equal.
    change (c :: c2 :: m ++ e) with ((c :: c2 :: m) ++ e).
    rewrite length_app, Nat.add_sub, firstn_app, Nat.sub_diag, firstn_all.
    cbn [firstn]. apply app_nil_r.
Qed.

Lemma dropFinalPeriod_plainName (w : jsstring) :
  plainName w = true -> trim w = w /\ dropFinalPeriod w = w.
Proof.
  unfold plainName. intros Hplain.
  apply andb_true_iff in Hplain as [Hplain Hends].
  apply andb_true_iff in Hplain as [Hhead Hall]. split.
  - apply trim_fixed; [|exact Hends].
    destruct w as [|c [|c2 m]]; try discriminate Hhead.
    now apply is_upper_not_space.
  - unfold dropFinalPeriod. destruct (rev w) as [|x l] eqn:Hrev;
      [reflexivity|].
    rewrite <- forallb_rev, Hrev in Hall. cbn [forallb] in Hall.
    apply andb_true_iff in Hall as [Hx _].
    apply andb_true_iff in Hx as [_ Hx]. apply negb_true_iff in Hx.
    now rewrite Hx.
Qed.

(** X9: a plain name (upper-case letters, white space, commas, apostrophes
    and hyphens, starting with a letter) that passes [isValidSpeaker] is
    recognized as a speaker cue with or without a final period, white space
    around it ignored, and the label returned is the name without the
    period. *)
Theorem plain_name_is_speaker (line w : jsstring) :
  plainName w = true -> isValidSpeaker w = true ->
  trim line = w \/ trim line = w ++ lit "." ->
  isSpeakerLine line = Some w.
Proof.
  intros Hplain Hvalid Hline. unfold isSpeakerLine.
  assert (Hcap : capture Eps speakerGroup speakerTail (trim line) = Some w).
  { destruct Hline as [->| ->].
    - rewrite <- (app_nil_r w) at 1. apply capture_plainName; auto.
    - apply capture_plainName; auto. }
  rewrite Hcap. destruct (dropFinalPeriod_plainName w Hplain) as [-> ->].
  now rewrite Hvalid.
Qed.

Lemma plain_name_is_speaker_witness :
  isSpeakerLine (lit "  FIRST CITIZEN. ") = Some (lit "FIRST CITIZEN").
Proof.
  apply (plain_name_is_speaker (lit "  FIRST CITIZEN. ") (lit "FIRST CITIZEN")).
  - reflexivity.
  - reflexivity.
  - right. reflexivity.
Defined.

(** *** identifyWork *)

Lemma lastIndexScan_spec (search : jsstring) (position : nat) (s : jsstring) :
  forall i : nat,
    match lastIndexScan search position i s with
    | Some k =>
        i <= k /\ k <= i + length s /\ k <= position
        /\ startsWith (skipn (k - i) s) search = true
        /\ forall j, j <= length s -> i + j <= position ->
                     startsWith (skipn j s) search = true -> i + j <= k
    | None =>
        forall j, j <= length s -> i + j <= position ->
                  startsWith (skipn j s) search = false
    end.
Proof.
  induction s as [|c t IH]; intros i.
  - cbn [lastIndexScan length]. destruct (i <=? position) eqn:Hi; cbn [andb].
    + apply Nat.leb_le in Hi.
      destruct (startsWith [] search) eqn:Hs.
      * rewrite Nat.sub_diag.
        split; [lia|]. split; [lia|]. split; [lia|]. split; [exact Hs|].
        intros j Hj _ _. lia.
      * intros j Hj _. replace j with 0 by lia. exact Hs.
    + apply Nat.leb_gt in Hi. intros j _ Hj. lia.
  - cbn [lastIndexScan]. specialize (IH (S i)).
    destruct (lastIndexScan search position (S i) t) as [k|].
    + destruct IH as (H1 & H2 & H3 & H4 & H5). cbn [length].
      split; [lia|]. split; [lia|]. split; [lia|]. split.
      * replace (k - i) with (S (k - S i)) by lia. exact H4.
      * intros j Hj Hpos Hs. destruct j as [|j]; [lia|].
        cbn [skipn] in Hs.
        assert (S i + j <= k) by (apply H5; [lia | lia | exact Hs]). lia.
    + assert (Hlater : forall j, 0 < j -> j <= length (c :: t) ->
                                 i + j <= position ->
                                 startsWith (skipn j (c :: t)) search = false).
      { intros [|j] Hpos Hj Hle; [lia|]. cbn [skipn]. apply IH.
        - cbn [length] in Hj. lia.
        - lia. }
      destruct (i <=? position) eqn:Hi; cbn [andb].
      * destruct (startsWith (c :: t) search) eqn:Hs.
        -- rewrite Nat.sub_diag. cbn [skipn].
           apply Nat.leb_le in Hi.
           split; [lia|]. split; [lia|]. split; [lia|]. split; [exact Hs|].
           intros j Hj Hle Hocc. destruct j as [|j]; [lia|].
           rewrite Hlater in Hocc by lia. discriminate Hocc.
        -- intros j Hj Hle. destruct j as [|j]; [exact Hs|].
           apply Hlater; lia.
      * apply Nat.leb_gt in Hi. intros j _ Hle. lia.
Qed.

(** [lastIndexOf] finds the last occurrence at or before the position. *)
Lemma lastIndexOf_spec (text search : jsstring) (position : nat) :
  match lastIndexOf text search position with
  | Some k =>
      occursAt text search k /\ k <= position
      /\ forall j, occursAt text search j -> j <= position -> j <= k
  | None => forall j, occursAt text search j -> position < j
  end.
Proof.
  unfold lastIndexOf, occursAt.
  pose proof (lastIndexScan_spec search position text 0) as H.
  destruct (lastIndexScan search position 0 text) as [k|].
  - destruct H as (_ & H2 & H3 & H4 & H5). rewrite Nat.sub_0_r in H4.
    split; [split; [lia | exact H4]|]. split; [exact H3|].
    intros j [Hj Hs] Hle. apply (H5 j Hj Hle Hs).
  - intros j [Hj Hs]. destruct (Nat.le_gt_cases j position) as [Hle|Hgt];
      [|exact Hgt].
    rewrite (H j Hj Hle) in Hs. discriminate Hs.
Qed.

(** The loop of [identifyWork] over the works [ws]. *)
Lemma identify_fold (text : jsstring) (position : nat) (ws : list jsstring) :
  forall (seen : list jsstring) (acc : option nat * jsstring),
    match fst acc with
    | Some k =>
        In (snd acc) seen /\ occursAt text (snd acc) k /\ k <= position
        /\ forall w j, In w seen -> occursAt text w j -> j <= position ->
                       j <= k
    | None =>
        snd acc = lit "UNKNOWN"
        /\ forall w j, In w seen -> occursAt text w j -> position < j
    end ->
    let res := fold_left (identifyStep text position) ws acc in
    match fst res with
    | Some k =>
        In (snd res) (seen ++ ws) /\ occursAt text (snd res) k
        /\ k <= position
        /\ forall w j, In w (seen ++ ws) -> occursAt text w j ->
                       j <= position -> j <= k
    | None =>
        snd res = lit "UNKNOWN"
        /\ forall w j, In w (seen ++ ws) -> occursAt text w j -> position < j
    end.
Proof.
  induction ws as [|w ws IH]; intros seen acc Hacc.
  - cbn [fold_left]. now rewrite app_nil_r.
  - cbn [fold_left]. cbv zeta.
    replace (seen ++ w :: ws) with ((seen ++ [w]) ++ ws)
      by now rewrite <- app_assoc.
    apply IH. unfold identifyStep.
    pose proof (lastIndexOf_spec text w position) as Hw.
    destruct (lastIndexOf text w position) as [i|].
    + destruct Hw as (Hocc & Hle & Hmax).
      destruct acc as [[k|] cur]; cbn [fst snd] in *.
      * destruct Hacc as (Hin & Hk & Hkle & Hkmax).
        destruct (k <? i) eqn:Hki; cbn [fst snd].
        -- apply Nat.ltb_lt in Hki.
           split; [apply in_or_app; right; now left|].
           split; [exact Hocc|]. split; [exact Hle|].
           intros w' j Hw' Hj Hjle. apply in_app_or in Hw' as [Hw'|[<-|[]]].
           ++ specialize (Hkmax w' j Hw' Hj Hjle). lia.
           ++ now apply Hmax.
        -- apply Nat.ltb_ge in Hki.
           split; [apply in_or_app; now left|].
           split; [exact Hk|]. split; [exact Hkle|].
           intros w' j Hw' Hj Hjle. apply in_app_or in Hw' as [Hw'|[<-|[]]].
           ++ now apply (Hkmax w' j).
           ++ specialize (Hmax j Hj Hjle). lia.
      * destruct Hacc as [_ Hnone].
        split; [apply in_or_app; right; now left|].
        split; [exact Hocc|]. split; [exact Hle|].
        intros w' j Hw' Hj Hjle. apply in_app_or in Hw' as [Hw'|[<-|[]]].
        -- specialize (Hnone w' j Hw' Hj). lia.
        -- now apply Hmax.
    + destruct acc as [[k|] cur]; cbn [fst snd] in *.
      * destruct Hacc as (Hin & Hk & Hkle & Hkmax).
        split; [apply in_or_app; now left|].
        split; [exact Hk|]. split; [exact Hkle|].
        intros w' j Hw' Hj Hjle. apply in_app_or in Hw' as [Hw'|[<-|[]]].
        -- now apply (Hkmax w' j).
        -- specialize (Hw j Hj). lia.
      * destruct Hacc as [Hunk Hnone]. split; [exact Hunk|].
        intros w' j Hw' Hj. apply in_app_or in Hw' as [Hw'|[<-|[]]].
        -- now apply (Hnone w' j).
        -- now apply Hw.
Qed.

(** X10: [identifyWork] returns UNKNOWN exactly when no title of the
    catalog occurs in the text at an index up to the position; otherwise it
    returns a title of the catalog that occurs at such an index k, and no
    title occurs at an index between k and the position. *)
Theorem identifyWork_latest_title (text : jsstring) (position : nat) :
  (identifyWork text position = lit "UNKNOWN"
   /\ forall w j, In w shakespeareWorks -> occursAt text w j -> position < j)
  \/ exists k,
       In (identifyWork text position) shakespeareWorks
       /\ occursAt text (identifyWork text position) k /\ k <= position
       /\ forall w j, In w shakespeareWorks -> occursAt text w j ->
                      j <= position -> j <= k.
Proof.
  unfold identifyWork.
  pose proof (identify_fold text position shakespeareWorks []
                (None, lit "UNKNOWN")) as H.
  cbv zeta in H. cbn [fst snd app] in H.
  assert (H0 : lit "UNKNOWN" = lit "UNKNOWN" /\
               (forall w j, In w [] -> occursAt text w j -> position < j))
    by (split; [reflexivity | intros w j []]).
  specialize (H H0).
  destruct (fst (fold_left (identifyStep text position) shakespeareWorks
                   (None, lit "UNKNOWN"))) as [k|].
  - right. exists k. exact H.
  - left. exact H.
Qed.

(** *** upsertVectorsToPinecone: the batches *)

Lemma batchesFrom_spec (chunks : list CleanChunk) :
  forall fuel i : nat,
    length chunks - i <= fuel ->
    concat (batchesFrom fuel i chunks) = skipn i chunks
    /\ Forall (fun b => 1 <= length b <= batchSize) (batchesFrom fuel i chunks)
    /\ length (batchesFrom fuel i chunks)
       = (length chunks - i + (batchSize - 1)) / batchSize.
Proof.
  induction fuel as [|f IH]; intros i Hfuel; change batchSize with 100 in *;
    change (100 - 1) with 99 in *.
  - cbn [batchesFrom concat length]. rewrite skipn_all2 by lia.
    replace (length chunks - i) with 0 by lia.
    split; [reflexivity|]. split; [constructor | reflexivity].
  - cbn [batchesFrom]. change batchSize with 100.
    destruct (i <? length chunks) eqn:Hi.
    + apply Nat.ltb_lt in Hi.
      destruct (IH (i + 100)) as (Hcat & Hall & Hlen); [lia|].
      cbn [concat length]. rewrite Hcat, Hlen. unfold slice.
      replace (i + 100 - i) with 100 by lia.
      split; [|split].
      * replace (i + 100) with (100 + i) by lia.
        rewrite <- skipn_skipn. apply firstn_skipn.
      * constructor; [|exact Hall].
        rewrite length_firstn, length_skipn. lia.
      * destruct (Nat.le_gt_cases (length chunks - i) 100) as [Hle|Hgt].
        -- replace (length chunks - (i + 100)) with 0 by lia.
           cbn [Nat.add]. rewrite (Nat.div_small 99 100) by lia.
           apply (Nat.div_unique _ 100 1 (length chunks - i - 1)); lia.
        -- replace (length chunks - i + 99)
             with (length chunks - (i + 100) + 99 + 1 * 100) by lia.
           rewrite Nat.div_add by lia. lia.
    + apply Nat.ltb_ge in Hi. cbn [concat length].
      rewrite skipn_all2 by lia.
      replace (length chunks - i) with 0 by lia.
      split; [reflexivity|]. split; [constructor | reflexivity].
Qed.

(** X11: given enough rounds, the batches of the upsert loop are the
    chunks cut in order into pieces of 100, the last one shorter when the
    number of chunks is no multiple of 100: their concatenation is the list
    of the chunks, no batch is empty, and there are
    [Math.ceil(chunks.length / batchSize)] of them. *)
Theorem upsert_batches_partition (chunks : list CleanChunk) (fuel : nat) :
  length chunks <= fuel ->
  concat (batchesFrom fuel 0 chunks) = chunks
  /\ Forall (fun b => 1 <= length b <= batchSize) (batchesFrom fuel 0 chunks)
  /\ length (batchesFrom fuel 0 chunks)
     = (length chunks + (batchSize - 1)) / batchSize.
Proof.
  intros Hfuel.
  destruct (batchesFrom_spec chunks fuel 0) as (H1 & H2 & H3); [lia|].
  rewrite Nat.sub_0_r in H3. cbn [skipn] in H1. now repeat split.
Qed.

Lemma upsert_batches_partition_witness :
  concat (batchesFrom 2 0 (cleanChunks (processShakespeareText longSpeech)))
  = cleanChunks (processShakespeareText longSpeech)
  /\ Forall (fun b => 1 <= length b <= batchSize)
       (batchesFrom 2 0 (cleanChunks (processShakespeareText longSpeech)))
  /\ length (batchesFrom 2 0 (cleanChunks (processShakespeareText longSpeech)))
     = (length (cleanChunks (processShakespeareText longSpeech))
        + (batchSize - 1)) / batchSize.
Proof.
  apply (upsert_batches_partition
           (cleanChunks (processShakespeareText longSpeech)) 2).
  apply Nat.leb_le. vm_compute. reflexivity.
Defined.

(** *** The ids of the vectors *)

Lemma lit_inj (a b : string) : lit a = lit b -> a = b.
Proof.
  unfold lit. intros H.
  rewrite <- (string_of_list_ascii_of_string a).
  rewrite <- (string_of_list_ascii_of_string b). f_equal.
  revert H. generalize (list_ascii_of_string a) (list_ascii_of_string b).
  induction l as [|x l IH]; intros [|y l'] H; try discriminate H;
    [reflexivity|].
  cbn [map] in H. injection H as Hxy Hl. f_equal; [|now apply IH].
  rewrite <- (ascii_N_embedding x), <- (ascii_N_embedding y). now rewrite Hxy.
Qed.

Lemma to_uint_not_Nil (n : nat) : Nat.to_uint n <> Decimal.Nil.
Proof.
  intros H. pose proof (Unsigned.of_to n) as Hn. rewrite H in Hn.
  cbn in Hn. subst n. discriminate H.
Qed.

(** Different numbers print differently. *)
Lemma decimal_inj (n m : nat) : decimal n = decimal m -> n = m.
Proof.
  unfold decimal. intros H. apply lit_inj in H.
  apply Unsigned.to_uint_inj.
  pose proof (NilZero.usu (Nat.to_uint n) (to_uint_not_Nil n)) as Hn.
  pose proof (NilZero.usu (Nat.to_uint m) (to_uint_not_Nil m)) as Hm.
  rewrite H in Hn. congruence.
Qed.

Lemma NoDup_map_decimal (l : list nat) : NoDup l -> NoDup (map decimal l).
Proof.
  induction 1 as [|x l Hx Hl IH]; cbn [map]; constructor; [|exact IH].
  intros Hin. apply in_map_iff in Hin as (y & Hy & Hin).
  apply decimal_inj in Hy. now subst y.
Qed.

(** X12: the chunks that [cleanChunks] returns get pairwise different
    vector ids [chunk.id.toString()], so that no vector of an upsert
    replaces another. *)
Theorem vector_ids_are_distinct (cs : list Chunk) :
  NoDup (map vectorId (cleanChunks cs)).
Proof.
  unfold vectorId.
  rewrite <- (map_map (fun c => id (base c)) decimal).
  apply NoDup_map_decimal. rewrite cleanChunks_ids. apply seq_NoDup.
Qed.

(** *** main: the statistics *)

Lemma eqb_refl (a : jsstring) : eqb a a = true.
Proof. now apply jsstring_eqb_eq. Qed.

Lemma eqb_neq (a b : jsstring) : a <> b -> eqb a b = false.
Proof.
  intros H. destruct (eqb a b) eqn:E; [|reflexivity].
  apply jsstring_eqb_eq in E. contradiction.
Qed.

Lemma getCount_setCount_same (m : counts) (k : jsstring) (n : nat) :
  getCount (setCount m k n) k = Some n.
Proof.
  induction m as [|[k' n'] m IH]; cbn [setCount getCount].
  - now rewrite eqb_refl.
  - destruct (eqb k k') eqn:E; cbn [getCount]; rewrite E; [reflexivity|].
    exact IH.
Qed.

Lemma getCount_setCount_other (m : counts) (k k' : jsstring) (n : nat) :
  k' <> k -> getCount (setCount m k n) k' = getCount m k'.
Proof.
  intros Hne. induction m as [|[k0 n0] m IH]; cbn [setCount getCount].
  - now rewrite (eqb_neq k' k Hne).
  - destruct (eqb k k0) eqn:E; cbn [getCount].
    + apply jsstring_eqb_eq in E. subst k0.
      now rewrite (eqb_neq k' k Hne).
    + destruct (eqb k' k0); [reflexivity | exact IH].
Qed.

Lemma sumCounts_setCount (m : counts) (k : jsstring) (n : nat) :
  sumCounts (setCount m k n) + countOf m k = sumCounts m + n.
Proof.
  unfold countOf.
  induction m as [|[k' n'] m IH]; cbn [setCount getCount sumCounts].
  - lia.
  - destruct (eqb k k') eqn:E; cbn [sumCounts]; lia.
Qed.

Lemma keys_setCount (m : counts) (k : jsstring) (n : nat) :
  NoDup (map fst m) -> NoDup (map fst (setCount m k n)).
Proof.
  intros Hnd.
  assert (Hkeys : forall x, In x (map fst (setCount m k n)) ->
                            In x (map fst m) \/ x = k).
  { induction m as [|[k' n'] m IH]; cbn [setCount map fst].
    - intros x [<-|[]]. now right.
    - destruct (eqb k k'); cbn [map fst].
      + intros x Hx. now left.
      + intros x [<-|Hx]; [left; now left|].
        inversion Hnd; subst.
        destruct (IH H2 x Hx) as [H|H]; [left; now right | now right]. }
  clear Hkeys. induction m as [|[k' n'] m IH]; cbn [setCount map fst].
  - constructor; [intros [] | constructor].
  - inversion Hnd as [|? ? Hnotin Hm]; subst.
    destruct (eqb k k') eqn:E; cbn [map fst].
    + now constructor.
    + constructor; [|now apply IH].
      intros Hin. apply Hnotin. clear IH Hnd Hnotin.
      induction m as [|[k0 n0] m IH]; cbn [setCount map fst] in Hin.
      * destruct Hin as [Hin|[]]. subst k'. rewrite eqb_refl in E.
        discriminate E.
      * inversion Hm; subst. destruct (eqb k k0); cbn [map fst] in Hin.
        -- exact Hin.
        -- destruct Hin as [<-|Hin]; [now left|]. right. now apply IH.
Qed.

(** What [bump] does: the count of the key goes up by one, from 0 when the
    key is new; the other counts stay. *)
Lemma bump_spec (m : counts) (k : jsstring) :
  getCount (bump m k) k = Some (S (countOf m k))
  /\ (forall k', k' <> k -> getCount (bump m k) k' = getCount m k')
  /\ sumCounts (bump m k) = S (sumCounts m)
  /\ (NoDup (map fst m) -> NoDup (map fst (bump m k))).
Proof.
  unfold bump.
  set (m1 := match getCount m k with
             | None | Some 0 => setCount m k 0
             | Some (S _) => m
             end).
  assert (H1 : getCount m1 k = Some (countOf m k)
               /\ (forall k', k' <> k -> getCount m1 k' = getCount m k')
               /\ sumCounts m1 = sumCounts m
               /\ (NoDup (map fst m) -> NoDup (map fst m1))).
  { unfold m1, countOf. destruct (getCount m k) as [[|n]|] eqn:Hget.
    - split; [apply getCount_setCount_same|].
      split; [intros k' Hk'; now apply getCount_setCount_other|].
      pose proof (sumCounts_setCount m k 0) as Hs. unfold countOf in Hs.
      rewrite Hget in Hs. split; [lia | apply keys_setCount].
    - now repeat split.
    - split; [apply getCount_setCount_same|].
      split; [intros k' Hk'; now apply getCount_setCount_other|].
      pose proof (sumCounts_setCount m k 0) as Hs. unfold countOf in Hs.
      rewrite Hget in Hs. split; [lia | apply keys_setCount]. }
  destruct H1 as (Hget & Hother & Hsum & Hkeys). rewrite Hget.
  split; [apply getCount_setCount_same|].
  split; [intros k' Hk'; rewrite getCount_setCount_other by exact Hk';
          now apply Hother|].
  pose proof (sumCounts_setCount m1 k (S (countOf m k))) as Hs.
  assert (Hc : countOf m1 k = countOf m k)
    by (unfold countOf at 1; now rewrite Hget).
  rewrite Hc in Hs. split; [lia|]. intros Hnd. apply keys_setCount. now apply Hkeys.
Qed.

Lemma tallyChunks_snoc (cs : list CleanChunk) (c : CleanChunk) :
  tallyChunks (cs ++ [c]) = tallyChunk (tallyChunks cs) c.
Proof. unfold tallyChunks. now rewrite fold_left_app. Qed.

Lemma filter_snoc_length (A : Type) (f : A -> bool) (l : list A) (x : A) :
  length (filter f (l ++ [x])) = length (filter f l) + (if f x then 1 else 0).
Proof.
  rewrite filter_app, length_app. cbn [filter].
  destruct (f x); reflexivity.
Qed.

Lemma list_sum_snoc (l : list nat) (x : nat) :
  list_sum (l ++ [x]) = list_sum l + x.
Proof. rewrite list_sum_app. cbn. lia. Qed.

(** X13: after the [forEach] of [main], for chunks whose works and
    speakers name no property of [Object.prototype]: the count of each work
    in [stats.works] is the number of chunks of this work, a work without
    chunk having no entry; the counts of the works add up to the number of
    chunks and those of the speakers to the number of chunks that have a
    speaker; no key occurs twice; and the totals are the sums of the
    [textLength] and [wordCount] fields. *)
Theorem stats_count_every_chunk (cs : list CleanChunk) :
  ordinaryKeys cs ->
  (forall w, getCount (works (tallyChunks cs)) w
             = if chunksOfWork w cs =? 0 then None
               else Some (chunksOfWork w cs))
  /\ (forall sp, sp <> [] ->
                 getCount (speakers (tallyChunks cs)) sp
                 = if chunksOfSpeaker sp cs =? 0 then None
                   else Some (chunksOfSpeaker sp cs))
  /\ sumCounts (works (tallyChunks cs)) = length cs
  /\ sumCounts (speakers (tallyChunks cs)) = length (filter hasSpeaker cs)
  /\ NoDup (map fst (works (tallyChunks cs)))
  /\ NoDup (map fst (speakers (tallyChunks cs)))
  /\ totalTextLength (tallyChunks cs) = list_sum (map textLength cs)
  /\ totalWordCount (tallyChunks cs) = list_sum (map wordCount cs).
Proof.
  intros _. induction cs as [|c cs IH] using rev_ind.
  - cbn. repeat split; try constructor; reflexivity.
  - destruct IH as (Hw & Hs & Hsw & Hss & Hkw & Hks & Htl & Hwc).
    rewrite tallyChunks_snoc. cbn [tallyChunk works speakers totalTextLength
                                   totalWordCount].
    destruct (bump_spec (works (tallyChunks cs)) (work (base c)))
      as (Bget & Bother & Bsum & Bkeys).
    split; [|split; [|split; [|split; [|split; [|split; [|split]]]]]].
    + intros w. unfold chunksOfWork. rewrite filter_snoc_length.
      fold (chunksOfWork w cs).
      destruct (eqb (work (base c)) w) eqn:E.
      * apply jsstring_eqb_eq in E. subst w. rewrite Bget.
        unfold countOf. rewrite Hw.
        destruct (chunksOfWork (work (base c)) cs) as [|n]; cbn.
        -- reflexivity.
        -- replace (n + 1) with (S n) by lia. reflexivity.
      * rewrite Bother, Hw, Nat.add_0_r; [reflexivity|].
        intros ->. rewrite eqb_refl in E. discriminate E.
    + intros sp Hsp. unfold chunksOfSpeaker. rewrite filter_snoc_length.
      fold (chunksOfSpeaker sp cs).
      destruct (speaker (base c)) as [sp'|] eqn:Hc.
      * destruct (nonempty sp') eqn:Hne.
        -- destruct (bump_spec (speakers (tallyChunks cs)) sp')
             as (Sget & Sother & _ & _).
           destruct (eqb sp' sp) eqn:E.
           ++ apply jsstring_eqb_eq in E. subst sp'. rewrite Sget.
              unfold countOf. rewrite (Hs sp Hsp).
              destruct (chunksOfSpeaker sp cs) as [|n]; cbn.
              ** reflexivity.
              ** replace (n + 1) with (S n) by lia. reflexivity.
           ++ rewrite Sother, (Hs sp Hsp), Nat.add_0_r; [reflexivity|].
              intros ->. rewrite eqb_refl in E. discriminate E.
        -- destruct sp' as [|x sp']; [|discriminate Hne].
           rewrite (eqb_neq [] sp) by congruence.
           now rewrite (Hs sp Hsp), Nat.add_0_r.
      * now rewrite (Hs sp Hsp), Nat.add_0_r.
    + rewrite Bsum, Hsw, length_app. cbn. lia.
    + rewrite filter_snoc_length. unfold hasSpeaker at 2, truthy.
      destruct (speaker (base c)) as [sp'|].
      * destruct (nonempty sp').
        -- destruct (bump_spec (speakers (tallyChunks cs)) sp')
             as (_ & _ & Ssum & _).
           rewrite Ssum, Hss. lia.
        -- rewrite Hss. lia.
      * rewrite Hss. lia.
    + now apply Bkeys.
    + destruct (speaker (base c)) as [sp'|]; [|exact Hks].
      destruct (nonempty sp'); [|exact Hks].
      now apply (bump_spec (speakers (tallyChunks cs)) sp').
    + rewrite map_app. cbn [map]. rewrite list_sum_snoc, Htl. reflexivity.
    + rewrite map_app. cbn [map]. rewrite list_sum_snoc, Hwc. reflexivity.
Qed.

Lemma stats_count_every_chunk_witness :
  getCount (works (tallyChunks threeChunks)) (lit "THE TEMPEST") = Some 2
  /\ getCount (speakers (tallyChunks threeChunks)) (lit "ARIEL") = Some 2
  /\ sumCounts (works (tallyChunks threeChunks)) = 3.
Proof.
  assert (Hkeys : ordinaryKeys threeChunks).
  { intros c Hc. vm_compute in Hc.
    repeat (destruct Hc as [<-|Hc];
            [split; [vm_compute; intuition discriminate|];
             intros sp [= <-]; vm_compute; intuition discriminate|]).
    destruct Hc. }
  destruct (stats_count_every_chunk threeChunks Hkeys)
    as (Hw & Hs & Hsum & _).
  split; [|split].
  - rewrite Hw. reflexivity.
  - rewrite Hs by discriminate. reflexivity.
  - rewrite Hsum. reflexivity.
Defined.

(** *** chunkBySpeak *)

Lemma captureAtStart_inv (grp post : regex) (s g : jsstring) :
  captureAtStart grp post s = Some g ->
  exists r2, s = g ++ r2 /\ In r2 (run grp s) /\ test_prefix post r2 = true.
Proof.
  unfold captureAtStart.
  destruct (flat_map _ (run grp s)) as [|g' tries] eqn:Htries; [discriminate|].
  intros [= <-].
  assert (Hin : In g' (g' :: tries)) by (left; reflexivity).
  rewrite <- Htries in Hin. apply in_flat_map in Hin as (r2 & Hr2 & Hin).
  destruct (test_prefix post r2) eqn:Hpost; [|contradiction].
  destruct Hin as [<-|[]]. exists r2.
  destruct (run_suffix grp s r2 Hr2) as [p ->].
  rewrite length_app, Nat.add_sub, firstn_app, Nat.sub_diag, firstn_all.
  cbn [firstn]. rewrite app_nil_r. now repeat split.
Qed.

(** A cue line is a group that starts with an upper-case letter, a period,
    and the rest of the line. *)
Lemma cueOf_inv (line sp : jsstring) :
  cueOf line = Some sp ->
  exists c g r,
    line = (c :: g) ++ 46%N :: r /\ is_upper c = true
    /\ sp = trim (c :: g) /\ 1 < length sp.
Proof.
  unfold cueOf.
  destruct (captureAtStart cueGroup (Chr 46) line) as [g|] eqn:Hcap;
    [|discriminate].
  destruct (1 <? length (trim g)) eqn:Hlen; [|discriminate].
  intros [= <-]. apply Nat.ltb_lt in Hlen.
  apply captureAtStart_inv in Hcap as (r2 & Hline & Hrun & Hpost).
  unfold test_prefix, Chr in Hpost. cbn [run] in Hpost.
  destruct r2 as [|d r]; [discriminate Hpost|].
  destruct (46 =? d)%N eqn:Hd; [|discriminate Hpost].
  apply N.eqb_eq in Hd as <-.
  unfold cueGroup in Hrun. cbn [run] in Hrun.
  apply in_flat_map in Hrun as (y & Hy & _).
  destruct line as [|c t]; [destruct Hy|].
  destruct (is_upper c) eqn:Hc; [|destruct Hy].
  destruct g as [|c' g]; [cbn in Hlen; lia|].
  injection Hline as <- Ht. exists c, g, r. now repeat split; subst.
Qed.

(** The trimmed text of a speech in progress. *)
Lemma openSpeech_text (c : N) (g y : jsstring) :
  is_upper c = true ->
  nonempty (trim ((c :: g) ++ 46%N :: y)) = true
  /\ startsWith (trim ((c :: g) ++ 46%N :: y)) (trim (c :: g)) = true.
Proof.
  intros Hc. pose proof (is_upper_not_space c Hc) as Hsp.
  assert (Ht : exists y', trim ((c :: g) ++ 46%N :: y)
                          = ((c :: g) ++ [46%N]) ++ y').
  { unfold trim, trimStart. rewrite dropWhile_head by exact Hsp.
    replace ((c :: g) ++ 46%N :: y) with (((c :: g) ++ [46%N]) ++ y)
      by now rewrite <- app_assoc.
    apply trimEnd_keeps_prefix. now rewrite ends_nonspace_snoc. }
  destruct Ht as [y' ->]. split; [reflexivity|].
  assert (Hg : trim (c :: g) = trimEnd (c :: g))
    by (unfold trim, trimStart; now rewrite dropWhile_head).
  rewrite Hg. destruct (trimEnd_prefix (c :: g)) as [z Hz].
  remember (trimEnd (c :: g)) as t eqn:Et. rewrite Hz.
  rewrite <- !app_assoc. apply startsWith_app.
Qed.

Lemma flushSpeech_spec (st : SpeakState) :
  openSpeech st -> Forall speechPassage (passages st) ->
  Forall speechPassage (flushSpeech st)
  /\ length (flushSpeech st) = speechCount st.
Proof.
  intros Hopen Hall. unfold flushSpeech, speechCount.
  destruct Hopen as [Hnil|(c & g & y & Hcur & Hc & Hsp & Hlen)].
  - rewrite Hnil. cbn. split; [exact Hall | lia].
  - rewrite Hcur. destruct (openSpeech_text c g y Hc) as [Hne Hstart].
    rewrite Hne. cbn [nonempty app]. split.
    + apply Forall_app. split; [exact Hall|]. constructor; [|constructor].
      exists (speakSpeaker st). cbn [pSpeaker pText]. rewrite Hsp.
      repeat split; try assumption. apply trim_idempotent.
    + rewrite length_app. reflexivity.
Qed.

Lemma speakStep_spec (st : SpeakState) (line : jsstring) :
  openSpeech st -> Forall speechPassage (passages st) ->
  openSpeech (speakStep st line)
  /\ Forall speechPassage (passages (speakStep st line))
  /\ speechCount (speakStep st line)
     = speechCount st + (if isCue line then 1 else 0).
Proof.
  intros Hopen Hall. unfold speakStep, isCue.
  destruct (cueOf line) as [sp|] eqn:Hcue.
  - apply cueOf_inv in Hcue as (c & g & r & -> & Hc & -> & Hlen).
    destruct (flushSpeech_spec st Hopen Hall) as [Hf Hn].
    split; [|split].
    + right. exists c, g, (r ++ [10%N]). cbn [speakChunk speakSpeaker].
      repeat split; try assumption. now rewrite <- app_assoc.
    + exact Hf.
    + unfold speechCount at 1. cbn [passages speakChunk app nonempty].
      rewrite Hn. reflexivity.
  - destruct (nonempty (speakChunk st)) eqn:Hne.
    + split; [|split].
      * destruct Hopen as [Hnil|(c & g & y & Hcur & Hc & Hsp & Hlen)].
        -- rewrite Hnil in Hne. discriminate Hne.
        -- right. exists c, g, (y ++ line ++ [10%N]).
           cbn [speakChunk speakSpeaker]. rewrite Hcur.
           repeat split; try assumption.
           now rewrite <- app_assoc.
      * exact Hall.
      * unfold speechCount. cbn [passages speakChunk]. rewrite Hne.
        now rewrite (nonempty_app_l _ _ Hne), Nat.add_0_r.
    + split; [exact Hopen|]. split; [exact Hall | lia].
Qed.

Lemma speakFold_spec (lines : list jsstring) :
  forall st : SpeakState,
    openSpeech st -> Forall speechPassage (passages st) ->
    openSpeech (fold_left speakStep lines st)
    /\ Forall speechPassage (passages (fold_left speakStep lines st))
    /\ speechCount (fold_left speakStep lines st)
       = speechCount st + length (filter isCue lines).
Proof.
  induction lines as [|l lines IH]; intros st Hopen Hall.
  - cbn. split; [exact Hopen|]. split; [exact Hall | lia].
  - destruct (speakStep_spec st l Hopen Hall) as (H1 & H2 & H3).
    destruct (IH (speakStep st l) H1 H2) as (H4 & H5 & H6).
    cbn [fold_left filter]. split; [exact H4|]. split; [exact H5|].
    rewrite H6, H3. destruct (isCue l); cbn [length]; lia.
Qed.

(** The count and the shape of the passages: [chunkBySpeak] returns one
    passage for each line that [cueOf] takes for a speaker cue; each
    passage has a speaker of two code units or more and a non-empty trimmed
    text that starts with this speaker. *)
Theorem chunkBySpeak_one_passage_per_cue (text0 : jsstring) :
  Forall speechPassage (chunkBySpeak text0)
  /\ length (chunkBySpeak text0) = length (filter isCue (split 10%N text0)).
Proof.
  unfold chunkBySpeak.
  set (st0 := {| passages := []; speakChunk := []; speakSpeaker := [] |}).
  destruct (speakFold_spec (split 10%N text0) st0) as (H1 & H2 & H3);
    [now left | constructor |].
  destruct (flushSpeech_spec _ H1 H2) as [H4 H5].
  split; [exact H4|]. rewrite H5, H3. reflexivity.
Qed.

(** *** chunkNormally *)

(** Each round moves on by 401 code units at least and 801 at most. *)
Lemma chunkEnd_bounds (text : jsstring) (start : nat) :
  start + 401 <= chunkEnd text start <= start + 801.
Proof.
  unfold chunkEnd, indexAbove. cbv zeta.
  destruct (start + 800 <? length text); [|lia].
  pose proof (lastIndexOf_spec text (lit ".") (start + 800)) as Hs.
  pose proof (lastIndexOf_spec text (lit " ") (start + 800)) as Hw.
  destruct (lastIndexOf text (lit ".") (start + 800)) as [k|].
  - destruct Hs as (_ & Hk & _).
    destruct (start + 400 <? k) eqn:E.
    + apply Nat.ltb_lt in E. lia.
    + destruct (lastIndexOf text (lit " ") (start + 800)) as [j|]; [|lia].
      destruct Hw as (_ & Hj & _).
      destruct (start + 400 <? j) eqn:E2; [|lia].
      apply Nat.ltb_lt in E2. lia.
  - destruct (lastIndexOf text (lit " ") (start + 800)) as [j|]; [|lia].
    destruct Hw as (_ & Hj & _).
    destruct (start + 400 <? j) eqn:E2; [|lia].
    apply Nat.ltb_lt in E2. lia.
Qed.

Lemma sliceText_length (i j : nat) (text : jsstring) :
  length (sliceText i j text) <= j - i.
Proof. unfold sliceText. rewrite length_firstn. lia. Qed.

Lemma normalLoop_spec (text : jsstring) :
  forall (fuel start : nat) (chunks : list Passage),
    length text - start < fuel ->
    Forall plainPassage chunks ->
    exists out,
      normalLoop fuel text start chunks = Some out
      /\ Forall plainPassage out
      /\ forall fuel', length text - start < fuel' ->
                       normalLoop fuel' text start chunks = Some out.
Proof.
  induction fuel as [|f IH]; intros start chunks Hfuel Hall; [lia|].
  cbn [normalLoop]. destruct (start <? length text) eqn:Hs.
  - apply Nat.ltb_lt in Hs. cbv zeta.
    pose proof (chunkEnd_bounds text start) as Hend.
    set (e := chunkEnd text start) in *.
    set (chunk := trim (sliceText start e text)).
    set (chunks1 := if 0 <? length chunk
                    then chunks ++ [ {| pSpeaker := None; pText := chunk |} ]
                    else chunks).
    assert (Hall1 : Forall plainPassage chunks1).
    { unfold chunks1. destruct (0 <? length chunk) eqn:Hc; [|exact Hall].
      apply Forall_app. split; [exact Hall|]. constructor; [|constructor].
      apply Nat.ltb_lt in Hc. unfold plainPassage. cbn [pSpeaker pText].
      split; [reflexivity|]. split; [destruct chunk; [cbn in Hc; lia|reflexivity]|].
      split; [apply trim_idempotent|]. unfold chunk.
      pose proof (trim_length (sliceText start e text)).
      pose proof (sliceText_length start e text). lia. }
    destruct (IH (e - 100) chunks1) as (out & Hout & Hgood & Hany);
      [lia | exact Hall1 |].
    exists out. split; [exact Hout|]. split; [exact Hgood|].
    intros fuel' Hfuel'. destruct fuel' as [|f']; [lia|].
    cbn [normalLoop]. replace (start <? length text) with true
      by (symmetry; now apply Nat.ltb_lt).
    cbv zeta. fold e. fold chunk. fold chunks1. apply Hany. lia.
  - exists chunks. split; [reflexivity|]. split; [exact Hall|].
    intros fuel' Hfuel'. destruct fuel' as [|f']; [lia|].
    cbn [normalLoop]. now rewrite Hs.
Qed.

(** X15: [chunkNormally] terminates: more rounds than the text has code
    units always reach the end of the loop, with one and the same result;
    every passage returned has speaker [null] and a non-empty trimmed text
    of 801 code units at most (one more than [maxSize], when the cut falls
    right after a period at index [start + maxSize]). *)
Theorem chunkNormally_terminates_bounded (text0 : jsstring) :
  exists out,
    (forall fuel, length text0 < fuel -> chunkNormally fuel text0 = Some out)
    /\ Forall plainPassage out.
Proof.
  destruct (normalLoop_spec text0 (S (length text0)) 0 [])
    as (out & _ & Hgood & Hany); [lia | constructor |].
  exists out. split; [|exact Hgood].
  intros fuel Hfuel. apply Hany. lia.
Qed.

(** A passage of 801 code units: the cut after the period at index 800. *)
Example chunkNormally_801 :
  option_map (map (fun p => length (pText p))) (chunkNormally 10 longSentence)
  = Some [801; 144].
Proof. vm_compute. reflexivity. Qed.

(** *** The speaker of a chunk *)

Lemma splitLargeChunk_speaker (chunk p : Chunk) :
  In p (splitLargeChunk chunk) ->
  speaker p = speaker chunk
  \/ exists sp k, speaker chunk = Some sp /\ speaker p = Some (partLabel sp k).
Proof.
  unfold splitLargeChunk, splitLargeChunkAt.
  destruct (length (text chunk) <=? 800).
  - intros [<-|[]]. now left.
  - change (@nil N) with (joinSp []) at 1. rewrite splitLoop_grouping.
    cbn [app]. intros H.
    assert (Hsp : exists k, speaker p = sealedSpeaker chunk k
                            \/ speaker p = finalSpeaker chunk k).
    { apply in_app_or in H as [H|H].
      - apply sealParts_In in H as (g & i & _ & ->). exists i. now left.
      - apply finalPart_In in H as [-> _]. eexists. now right. }
    destruct Hsp as [k Hsp]. unfold sealedSpeaker, finalSpeaker, labelled in Hsp.
    destruct (speaker chunk) as [sp|] eqn:Hc; cbn [truthy option_map andb] in Hsp.
    + destruct (nonempty sp); cbn [andb] in Hsp.
      * destruct (1 <? k); destruct Hsp as [Hsp|Hsp]; rewrite Hsp; eauto.
      * destruct Hsp as [Hsp|Hsp]; rewrite Hsp; now left.
    + destruct Hsp as [Hsp|Hsp]; rewrite Hsp; now left.
Qed.

Lemma saveCurrentChunk_speakerInv (lines : list jsstring) (st : State) :
  speechInv st -> speakerInv lines st ->
  speakerInv lines (saveCurrentChunk st).
Proof.
  intros [Hactive _] [Hcur Hall]. unfold saveCurrentChunk.
  destruct (nonempty (trim (currentChunk st))) eqn:Hne; [|now split].
  split; [exact Hcur|]. cbn [pushChunks chunks]. apply Forall_app.
  split; [exact Hall|]. apply Forall_forall. intros p Hp.
  specialize (Hactive (trim_nonempty_inv _ Hne)).
  destruct (currentSpeaker st) as [sp|] eqn:Hsp; [|discriminate Hactive].
  left. exists sp. split; [now apply Hcur|].
  apply splitLargeChunk_speaker in Hp as [Hp|(sp' & k & Hc & Hp)];
    cbn [speaker] in *.
  - now left.
  - right. exists k. congruence.
Qed.

Lemma pushSonnet_speakerInv (lines : list jsstring) (st : State) :
  speakerInv lines st -> speakerInv lines (pushSonnet st).
Proof.
  intros [Hcur Hall]. split; [exact Hcur|].
  cbn [pushSonnet pushChunks chunks]. apply Forall_app. split; [exact Hall|].
  constructor; [|constructor]. right. eexists. reflexivity.
Qed.

Lemma finish_speakerInv (lines : list jsstring) (st : State) :
  speechInv st -> speakerInv lines st -> speakerInv lines (finish st).
Proof.
  intros Hsp Hinv. unfold finish.
  pose proof (saveCurrentChunk_speakerInv lines st Hsp Hinv) as H1.
  destruct (inSonnets (saveCurrentChunk st)
            && nonempty (trim (sonnetText (saveCurrentChunk st))));
    [now apply pushSonnet_speakerInv | exact H1].
Qed.

Lemma step_speakerInv (lines : list jsstring) (st : State) (l : jsstring) :
  In l lines -> speechInv st -> speakerInv lines st ->
  speakerInv lines (step st l).
Proof.
  intros Hl Hsp Hinv. destruct (findWork (trim l)) as [w|] eqn:Hfind.
  - rewrite (step_title st l w Hfind).
    destruct (finish_speakerInv lines st Hsp Hinv) as [_ Hall].
    split; [discriminate | exact Hall].
  - unfold step. rewrite Hfind.
    destruct (negb (nonempty (trim l)) && negb (nonempty (currentChunk st)));
      [exact Hinv|].
    destruct (inSonnets st).
    + destruct (isSonnetNumber (trim l)) as [g|].
      * destruct (nonempty (trim (sonnetText st)));
          [exact (pushSonnet_speakerInv lines st Hinv) | exact Hinv].
      * destruct (truthy (sonnetNumber st) && nonempty (trim l)); exact Hinv.
    + cbv zeta. destruct (truthy (isSpeakerLine (trim l))) eqn:Hspk.
      * destruct (saveCurrentChunk_speakerInv lines st Hsp Hinv) as [_ Hall].
        split; [|exact Hall]. cbn [setSpeech currentSpeaker].
        intros sp Hcue. exists l. split; [exact Hl|].
        now rewrite <- isSpeakerLine_trim.
      * destruct (test_prefix stageWords (trim l)); [exact Hinv|].
        destruct (test_whole bracketed (trim l)); [exact Hinv|].
        destruct (truthy (currentSpeaker st) && nonempty (trim l));
          exact Hinv.
Qed.

Lemma processLines_speakerInv (lines ls : list jsstring) :
  forall st : State,
    incl ls lines -> speechInv st -> speakerInv lines st ->
    speechInv (processLines st ls) /\ speakerInv lines (processLines st ls).
Proof.
  induction ls as [|l ls IH]; intros st Hincl Hsp Hinv; [now split|].
  apply IH.
  - intros x Hx. apply Hincl. now right.
  - now apply step_speechInv.
  - apply step_speakerInv; [apply Hincl; now left | exact Hsp | exact Hinv].
Qed.

(** X16: the speaker of every chunk that [processShakespeareText] returns
    is the label that [isSpeakerLine] gives for some line of the text, as
    it is or followed by a part number [ (Part k)], or it is a sonnet label
    [SONNET n]. *)
Theorem raw_chunks_attributed (text0 : jsstring) :
  Forall (attributed (split 10%N text0)) (processShakespeareText text0).
Proof.
  unfold processShakespeareText.
  assert (H0 : speakerInv (split 10%N text0) initialState)
    by (split; [discriminate | constructor]).
  destruct (processLines_speakerInv (split 10%N text0) (split 10%N text0)
              initialState (incl_refl _) initialState_speechInv H0)
    as [Hsp Hinv].
  exact (proj2 (finish_speakerInv _ _ Hsp Hinv)).
Qed.

Lemma normalLoop_rounds (text : jsstring) :
  forall (fuel start : nat) (chunks : list Passage),
    length text - start < fuel ->
    normalLoop fuel text start chunks
    = Some (chunks ++ passagesOf text (normalRounds fuel text start)).
Proof.
  induction fuel as [|f IH]; intros start chunks Hfuel; [lia|].
  cbn [normalLoop normalRounds]. destruct (start <? length text) eqn:Hs.
  - apply Nat.ltb_lt in Hs. cbv zeta.
    pose proof (chunkEnd_bounds text start) as Hend.
    rewrite IH by lia. unfold passagesOf. cbn [flat_map fst snd].
    destruct (0 <? length (trim (sliceText start (chunkEnd text start) text)));
      [now rewrite <- app_assoc | reflexivity].
  - cbn. now rewrite app_nil_r.
Qed.

Lemma normalRounds_cover (text : jsstring) :
  forall fuel start i : nat,
    length text - start < fuel -> start <= i < length text ->
    exists s e, In (s, e) (normalRounds fuel text start) /\ s <= i < e.
Proof.
  induction fuel as [|f IH]; intros start i Hfuel Hi; [lia|].
  cbn [normalRounds].
  replace (start <? length text) with true
    by (symmetry; apply Nat.ltb_lt; lia).
  pose proof (chunkEnd_bounds text start) as Hend.
  destruct (Nat.lt_ge_cases i (chunkEnd text start)) as [Hlt|Hge].
  - exists start, (chunkEnd text start). split; [now left | lia].
  - destruct (IH (chunkEnd text start - 100) i) as (s & e & Hin & Hse);
      [lia | lia |].
    exists s, e. split; [now right | exact Hse].
Qed.

(** X17: given enough rounds, the passages of [chunkNormally] are the
    trimmed slices of its rounds that are not empty, and every code unit of
    the text lies in the slice of some round: the rounds leave no gap. *)
Theorem chunkNormally_covers_text (text0 : jsstring) (fuel : nat) :
  length text0 < fuel ->
  chunkNormally fuel text0
  = Some (passagesOf text0 (normalRounds fuel text0 0))
  /\ forall i, i < length text0 ->
       exists s e, In (s, e) (normalRounds fuel text0 0) /\ s <= i < e.
Proof.
  intros Hfuel. split.
  - unfold chunkNormally. rewrite normalLoop_rounds by lia. reflexivity.
  - intros i Hi. apply normalRounds_cover; lia.
Qed.

Lemma chunkNormally_covers_text_witness :
  chunkNormally 846 longSentence
  = Some (passagesOf longSentence (normalRounds 846 longSentence 0))
  /\ forall i, i < length longSentence ->
       exists s e, In (s, e) (normalRounds 846 longSentence 0) /\ s <= i < e.
Proof.
  apply (chunkNormally_covers_text longSentence 846).
  apply Nat.ltb_lt. vm_compute. reflexivity.
Defined.

(** *** The vector ids of the upload route *)

Lemma sanitizeName_class (documentName : jsstring) :
  forallb (fun c => is_alnum c || (c =? 95)%N) (sanitizeName documentName)
  = true.
Proof.
  induction documentName as [|c t IH]; [reflexivity|].
  cbn [sanitizeName map forallb]. fold (sanitizeName t). rewrite IH.
  destruct (is_alnum c) eqn:Hc; [now rewrite Hc | reflexivity].
Qed.

(** X18: the vector ids of the chunks of one uploaded document are
    pairwise distinct; the sanitized name has the length of the name and
    holds letters, digits and underscores only.  (Names that differ in
    other code units only get the same ids.) *)
Theorem upload_ids_distinct_per_document (documentName : jsstring) :
  (forall i j, uploadId documentName i = uploadId documentName j -> i = j)
  /\ length (sanitizeName documentName) = length documentName
  /\ forallb (fun c => is_alnum c || (c =? 95)%N) (sanitizeName documentName)
     = true.
Proof.
  split; [|split].
  - unfold uploadId. intros i j H.
    apply app_inv_head in H. apply app_inv_head in H.
    now apply decimal_inj.
  - unfold sanitizeName. apply length_map.
  - apply sanitizeName_class.
Qed.

(** Two document names with the same ids. *)
Example upload_ids_collide :
  uploadId (lit "King Lear") 0 = uploadId (lit "King_Lear") 0.
Proof. reflexivity. Qed.

(** ** splitLargeChunk and the sentences of the specification *)




















(** The speech of thirty sentences is cut in two parts, of 18 and 12
    sentences. *)
Example hamletChunk_parts :
  map (fun p => length (splitSentences (text p))) (splitLargeChunk hamletChunk)
  = [18; 12]
  /\ length (splitSentences (text hamletChunk)) = 30.
Proof. split; vm_compute; reflexivity. Qed.

(** ** Title lines *)

Lemma includes_unfold (s p : jsstring) :
  includes s p
  = startsWith s p || match s with [] => false | _ :: t => includes t p end.
Proof. destruct s; reflexivity. Qed.

(** [s.includes(p)] holds when [p] occurs in [s], and only then. *)
Lemma includes_occursIn (s p : jsstring) :
  includes s p = true <-> occursIn p s.
Proof.
  split.
  - induction s as [|c t IH]; rewrite includes_unfold; intros H;
      apply orb_true_iff in H as [H|H].
    + apply startsWith_inv in H as [x E]. exists [], x. exact E.
    + discriminate H.
    + apply startsWith_inv in H as [x E]. exists [], x. exact E.
    + destruct (IH H) as (a & b & ->). exists (c :: a), b. reflexivity.
  - intros (a & b & ->). induction a as [|c a IH].
    + cbn [app]. rewrite includes_unfold, startsWith_app. reflexivity.
    + cbn [app]. rewrite includes_unfold. cbn [app] in IH. rewrite IH.
      apply orb_true_r.
Qed.

(** The test of [find] in [findWork]: exact or part. *)
Lemma title_test (t w : jsstring) :
  eqb t w || includes t w = true <-> occursIn w t.
Proof.
  split.
  - intros H. apply orb_true_iff in H as [H|H].
    + apply jsstring_eqb_eq in H as ->. exists [], [].
      rewrite app_nil_r. reflexivity.
    + apply includes_occursIn. exact H.
  - intros H. apply includes_occursIn in H. rewrite H. apply orb_true_r.
Qed.

Lemma find_first (A : Type) (f : A -> bool) (l : list A) (x : A) :
  find f l = Some x <->
  exists before after : list A,
    l = before ++ x :: after /\ f x = true
    /\ forall y : A, In y before -> f y = false.
Proof.
  split.
  - induction l as [|a l IH]; [discriminate|]. cbn [find].
    destruct (f a) eqn:Ha.
    + intros [= ->]. exists [], l. repeat split; [exact Ha|]. intros y [].
    + intros H. destruct (IH H) as (before & after & -> & Hx & Hb).
      exists (a :: before), after. repeat split; [exact Hx|].
      intros y [<-|Hy]; [exact Ha | exact (Hb y Hy)].
  - intros (before & after & -> & Hx & Hb).
    induction before as [|a before IH]; cbn [app find].
    + rewrite Hx. reflexivity.
    + rewrite (Hb a (or_introl eq_refl)). apply IH.
      intros y Hy. apply Hb. right. exact Hy.
Qed.

(** [findWork] returns the title that the line holds. *)
Lemma findWork_holdsTitle (l w : jsstring) :
  findWork (trim l) = Some w <-> holdsTitle l w.
Proof.
  unfold findWork, holdsTitle. rewrite find_first. split.
  - intros (before & after & E & Hw & Hb). exists before, after.
    split; [exact E|]. split; [apply title_test; exact Hw|].
    intros w' Hw' Ho. apply title_test in Ho.
    rewrite (Hb w' Hw') in Ho. discriminate Ho.
  - intros (before & after & E & Hw & Hb). exists before, after.
    split; [exact E|]. split; [apply title_test; exact Hw|].
    intros w' Hw'. destruct (eqb (trim l) w' || includes (trim l) w') eqn:Ht;
      [|reflexivity].
    apply title_test in Ht. destruct (Hb w' Hw' Ht).
Qed.

Lemma findWork_holdsNoTitle (l : jsstring) :
  findWork (trim l) = None <-> holdsNoTitle l.
Proof.
  unfold holdsNoTitle. split.
  - intros H w Hw Ho. apply title_test in Ho. unfold findWork in H.
    rewrite (find_none _ _ H w Hw) in Ho. discriminate Ho.
  - intros H. destruct (findWork (trim l)) as [w|] eqn:Hf; [|reflexivity].
    unfold findWork in Hf. apply find_some in Hf as [Hw Ht].
    apply title_test in Ht. destruct (H w Hw Ht).
Qed.

(** The cut of the lines at the title lines is the one that the loop
    makes, and there is no other. *)
Lemma cutAt_cutAtTitles (lines : list jsstring) :
  cutAt lines (fst (cutAtTitles lines)) (snd (cutAtTitles lines)).
Proof.
  induction lines as [|l rest IH]; [constructor|].
  cbn [cutAtTitles]. destruct (cutAtTitles rest) as [cur segs].
  cbn [fst snd] in IH.
  destruct (findWork (trim l)) as [w|] eqn:Hf; cbn [fst snd].
  - apply cut_title; [apply findWork_holdsTitle; exact Hf | exact IH].
  - apply cut_line; [apply findWork_holdsNoTitle; exact Hf | exact IH].
Qed.

Lemma cutAt_unique (lines cur : list jsstring)
    (segs : list (jsstring * list jsstring)) :
  cutAt lines cur segs ->
  cur = fst (cutAtTitles lines) /\ segs = snd (cutAtTitles lines).
Proof.
  induction 1 as [|l w rest cur segs Hw _ [IH1 IH2]
                   |l rest cur segs Hn _ [IH1 IH2]].
  - split; reflexivity.
  - apply findWork_holdsTitle in Hw. cbn [cutAtTitles].
    destruct (cutAtTitles rest) as [cur' segs']. rewrite Hw.
    cbn [fst snd] in *. subst. split; reflexivity.
  - apply findWork_holdsNoTitle in Hn. cbn [cutAtTitles].
    destruct (cutAtTitles rest) as [cur' segs']. rewrite Hn.
    cbn [fst snd] in *. subst. split; reflexivity.
Qed.

(** C7: the lines of a text are cut in one way at the lines that hold a
    title of the catalog (the first title of the catalog that occurs in the
    trimmed line, as the whole of it or as a part of it): the lines before
    the first title line, under [UNKNOWN], and, for each title line, its
    title and the lines up to the next title line.  The chunks of the text
    are those of these segments, one segment after the other; every chunk
    of a segment carries the title of the segment as its work; and a text
    in whose lines no title of the catalog occurs yields chunks of work
    [UNKNOWN] only. *)
Theorem work_is_nearest_catalog_title (text : jsstring) :
  exists (cur : list jsstring) (segs : list (jsstring * list jsstring)),
    cutAt (split 10%N text) cur segs
    /\ (forall cur' segs',
          cutAt (split 10%N text) cur' segs' -> cur' = cur /\ segs' = segs)
    /\ map content (processShakespeareText text)
       = flat_map
           (fun seg => map content (processSegment (fst seg) (snd seg)))
           ((lit "UNKNOWN", cur) :: segs)
    /\ (forall seg c,
          In seg ((lit "UNKNOWN", cur) :: segs) ->
          In c (processSegment (fst seg) (snd seg)) -> work c = fst seg)
    /\ ((forall l, In l (split 10%N text) -> holdsNoTitle l) ->
        forall c, In c (processShakespeareText text) ->
                  work c = lit "UNKNOWN").
Proof.
  destruct (work_is_nearest_title text) as (H1 & H2 & H3).
  exists (fst (cutAtTitles (split 10%N text))),
         (snd (cutAtTitles (split 10%N text))).
  split; [apply cutAt_cutAtTitles|].
  split; [intros cur' segs' H; exact (cutAt_unique _ _ _ H)|].
  unfold segments in H1, H2.
  destruct (cutAtTitles (split 10%N text)) as [cur segs]. cbn [fst snd].
  split; [exact H1|]. split; [exact H2|].
  intros Hfree. apply H3. intros l Hl. apply findWork_holdsNoTitle.
  exact (Hfree l Hl).
Qed.

(** A title line is recognized when the title is the whole line and when
    it is a part of the line; the speeches after it carry the title, the
    speeches before it do not. *)
Example tempest_chunks :
  holdsTitle (lit "THE TEMPEST") (lit "THE TEMPEST")
  /\ map content (processShakespeareText tempest)
     = [ (lit "THE TEMPEST", Some (lit "PROSPERO"),
          lit "We are such stuff as dreams are made on.") ].
Proof.
  split; [apply findWork_holdsTitle|]; vm_compute; reflexivity.
Qed.

Example tempestFolio_chunks :
  holdsTitle (lit "  1611 THE TEMPEST (first folio)") (lit "THE TEMPEST")
  /\ map content (processShakespeareText tempestFolio)
     = [ (lit "UNKNOWN", Some (lit "GONZALO"),
          lit "All things in common nature should produce.");
         (lit "THE TEMPEST", Some (lit "PROSPERO"),
          lit "We are such stuff as dreams are made on.") ].
Proof.
  split; [apply findWork_holdsTitle|]; vm_compute; reflexivity.
Qed.

(** ** chunkBySpeak: the speeches of a text *)

Lemma star_run_class_inv (p : N -> bool) (fuel : nat) :
  forall s x : jsstring,
    In x (star_run (run (Cls p)) fuel s) ->
    exists m : jsstring, s = m ++ x /\ forallb p m = true.
Proof.
  induction fuel as [|f IH]; intros s x Hin.
  - destruct Hin as [<-|[]]. exists []. split; reflexivity.
  - cbn [star_run] in Hin. apply in_app_or in Hin as [Hin|[<-|[]]];
      [|exists []; split; reflexivity].
    apply in_flat_map in Hin as (y & Hy & Hin).
    destruct s as [|c t]; [destruct Hy|]. cbn [run] in Hy.
    destruct (p c) eqn:Hc; [|destruct Hy]. destruct Hy as [<-|[]].
    destruct (length t <? length (c :: t)); [|destruct Hin].
    destruct (IH t x Hin) as (m & -> & Hm). exists (c :: m).
    split; [reflexivity|]. cbn [forallb]. rewrite Hc, Hm. reflexivity.
Qed.

(** The greedy iteration over a class first stops where the class
    stops. *)
Lemma star_run_first (p : N -> bool) (m : jsstring) (x : N) (r : jsstring) :
  forallb p m = true -> p x = false ->
  forall fuel : nat,
    length m <= fuel ->
    exists others : list jsstring,
      star_run (run (Cls p)) fuel (m ++ x :: r) = (x :: r) :: others.
Proof.
  intros Hm Hx. induction m as [|y m IH]; intros fuel Hfuel.
  - destruct fuel as [|f]; [exists []; reflexivity|].
    cbn [app star_run run]. rewrite Hx. exists []. reflexivity.
  - cbn [forallb] in Hm. apply andb_true_iff in Hm as [Hy Hm].
    destruct fuel as [|f]; [cbn in Hfuel; lia|].
    destruct (IH Hm f) as [others Ho]; [cbn in Hfuel; lia|].
    cbn [run] in Ho. cbn [app star_run run]. rewrite Hy. cbn [flat_map].
    replace (length (m ++ x :: r) <? length (y :: m ++ x :: r)) with true
      by (symmetry; apply Nat.ltb_lt; cbn [length]; lia).
    rewrite Ho. eexists. cbn [app]. reflexivity.
Qed.

Lemma firstn_prefix (p q : jsstring) :
  firstn (length (p ++ q) - length q) (p ++ q) = p.
Proof.
  rewrite length_app, Nat.add_sub, firstn_app, Nat.sub_diag, firstn_all.
  cbn [firstn]. apply app_nil_r.
Qed.

(** [cueOf] finds the cue lines of the specification and their
    speakers. *)
Lemma cueOf_cueLine (line sp : jsstring) :
  cueOf line = Some sp <-> cueLine line sp.
Proof.
  split.
  - unfold cueOf.
    destruct (captureAtStart cueGroup (Chr 46) line) as [g0|] eqn:Hcap;
      [|discriminate].
    destruct (1 <? length (trim g0)) eqn:Hlen; [|discriminate].
    intros [= <-]. apply Nat.ltb_lt in Hlen.
    apply captureAtStart_inv in Hcap as (r2 & Hline & Hrun & Hpost).
    unfold test_prefix, Chr in Hpost. cbn [run] in Hpost.
    destruct r2 as [|d r]; [discriminate Hpost|].
    destruct (46 =? d)%N eqn:Hd; [|discriminate Hpost].
    apply N.eqb_eq in Hd as <-.
    unfold cueGroup, Plus in Hrun. cbn [run] in Hrun.
    apply in_flat_map in Hrun as (y & Hy & Hrun).
    destruct line as [|c t]; [destruct Hy|].
    destruct (is_upper c) eqn:Hc; [|destruct Hy]. destruct Hy as [<-|[]].
    apply in_flat_map in Hrun as (y & Hy & Hrun).
    destruct t as [|g1 t]; [destruct Hy|].
    destruct (is_upper g1 || is_space g1) eqn:Hg1; [|destruct Hy].
    destruct Hy as [<-|[]].
    change (In (46%N :: r)
              (star_run (run (Cls (fun c => is_upper c || is_space c)))
                 (length t) t)) in Hrun.
    apply star_run_class_inv in Hrun as (m & -> & Hm).
    assert (Eg : g0 = c :: g1 :: m).
    { apply (app_inv_tail (46%N :: r)). rewrite <- Hline.
      cbn [app]. reflexivity. }
    subst g0. exists c, (g1 :: m), r.
    split; [reflexivity|]. split; [exact Hc|]. split; [discriminate|].
    split; [|split; [reflexivity | exact Hlen]].
    constructor; [apply orb_true_iff; exact Hg1|].
    apply Forall_forall. intros x Hx. apply orb_true_iff.
    rewrite forallb_forall in Hm. exact (Hm x Hx).
  - intros (c & g & r & -> & Hc & Hne & Hg & -> & Hlen).
    destruct g as [|g1 m]; [congruence|].
    inversion Hg as [|? ? Hg1 Hm]; subst.
    apply orb_true_iff in Hg1.
    assert (Hall : forallb (fun c => is_upper c || is_space c) m = true).
    { apply forallb_forall. intros x Hx. apply orb_true_iff.
      rewrite Forall_forall in Hm. exact (Hm x Hx). }
    destruct (star_run_first (fun c => is_upper c || is_space c) m 46%N r
                Hall eq_refl (length (m ++ 46%N :: r)))
      as [others Hstar];
      [rewrite length_app; lia|].
    cbn [run] in Hstar. unfold cueOf, captureAtStart, cueGroup, Plus.
    cbn [app run]. rewrite Hc. cbn [flat_map]. rewrite Hg1.
    cbn [flat_map]. rewrite Hstar. cbn [app flat_map].
    replace (test_prefix (Chr 46) (46%N :: r)) with true by reflexivity.
    cbn [app].
    replace (firstn _ _) with (c :: g1 :: m)
      by (symmetry;
          exact (firstn_prefix (c :: g1 :: m) (46%N :: r))).
    apply Nat.ltb_lt in Hlen. rewrite Hlen. reflexivity.
Qed.

Lemma joinNl_app (a b : list jsstring) :
  joinNl (a ++ b) = joinNl a ++ joinNl b.
Proof.
  induction a as [|l a IH]; [reflexivity|].
  cbn [app joinNl]. rewrite IH, <- app_assoc. reflexivity.
Qed.

(** The passage of a speech in progress. *)
Lemma flushSpeech_open (st : SpeakState) (l0 : jsstring) (b0 : list jsstring) :
  cueOf l0 = Some (speakSpeaker st) ->
  speakChunk st = joinNl (l0 :: b0) ->
  flushSpeech st = passages st ++ [speechOf (l0, speakSpeaker st, b0)].
Proof.
  intros Hcue Hcur. unfold flushSpeech, speechOf. cbn [fst snd].
  assert (Hne : nonempty (trim (speakChunk st)) = true).
  { rewrite Hcur.
    apply cueOf_inv in Hcue as (c & g & r & -> & Hc & _ & _).
    cbn [joinNl]. rewrite <- app_assoc.
    exact (proj1 (openSpeech_text c g (r ++ 10%N :: joinNl b0) Hc)). }
  rewrite Hne, Hcur. reflexivity.
Qed.

Lemma flushSpeech_closed (st : SpeakState) :
  speakChunk st = [] -> flushSpeech st = passages st.
Proof. intros H. unfold flushSpeech. rewrite H. reflexivity. Qed.

Lemma speakFold_speeches (lines : list jsstring) :
  forall st : SpeakState,
    (speakChunk st = [] ->
     flushSpeech (fold_left speakStep lines st)
     = passages st ++ map speechOf (speeches lines))
    /\ (forall (l0 : jsstring) (b0 : list jsstring),
          cueOf l0 = Some (speakSpeaker st) ->
          speakChunk st = joinNl (l0 :: b0) ->
          flushSpeech (fold_left speakStep lines st)
          = passages st
            ++ speechOf (l0, speakSpeaker st, b0 ++ untilCue lines)
               :: map speechOf (speeches lines)).
Proof.
  induction lines as [|l lines IH]; intros st.
  - cbn [fold_left speeches untilCue map]. split.
    + intros H. rewrite app_nil_r. apply flushSpeech_closed. exact H.
    + intros l0 b0 Hcue Hcur. rewrite app_nil_r.
      apply flushSpeech_open; assumption.
  - cbn [fold_left speeches untilCue]. unfold isCue.
    destruct (cueOf l) as [sp|] eqn:Hl.
    + assert (Est : speakStep st l
                    = {| passages := flushSpeech st;
                         speakChunk := l ++ [10%N]; speakSpeaker := sp |})
        by (unfold speakStep; rewrite Hl; reflexivity).
      rewrite Est. destruct (IH (speakStep st l)) as [_ Hopen].
      rewrite Est in Hopen. cbn [speakSpeaker] in Hopen.
      specialize (Hopen l [] Hl eq_refl). cbn [app passages] in Hopen.
      rewrite Hopen. cbn [map]. split.
      * intros H. rewrite (flushSpeech_closed st H). reflexivity.
      * intros l0 b0 Hcue Hcur.
        rewrite (flushSpeech_open st l0 b0 Hcue Hcur).
        rewrite app_nil_r, <- app_assoc. reflexivity.
    + split.
      * intros H.
        assert (Est : speakStep st l = st)
          by (unfold speakStep; rewrite Hl, H; reflexivity).
        rewrite Est. destruct (IH st) as [Hclosed _]. exact (Hclosed H).
      * intros l0 b0 Hcue Hcur.
        assert (Hne : nonempty (speakChunk st) = true)
          by (rewrite Hcur; cbn [joinNl]; destruct l0; reflexivity).
        assert (Est : speakStep st l
                      = {| passages := passages st;
                           speakChunk := speakChunk st ++ l ++ [10%N];
                           speakSpeaker := speakSpeaker st |})
          by (unfold speakStep; rewrite Hl, Hne; reflexivity).
        destruct (IH (speakStep st l)) as [_ Hopen].
        rewrite Est in Hopen. cbn [passages speakChunk speakSpeaker] in Hopen.
        specialize (Hopen l0 (b0 ++ [l]) Hcue).
        rewrite <- app_assoc in Hopen. rewrite Est. apply Hopen.
        rewrite Hcur. change (l0 :: b0 ++ [l]) with ((l0 :: b0) ++ [l]).
        rewrite joinNl_app. reflexivity.
Qed.

(** The cut of the lines at the cue lines is the one that the loop makes,
    and there is no other. *)
Lemma speechesOf_speeches (lines : list jsstring) :
  speechesOf lines (untilCue lines) (speeches lines).
Proof.
  induction lines as [|l rest IH]; [constructor|].
  cbn [untilCue speeches]. unfold isCue.
  destruct (cueOf l) as [sp|] eqn:Hl.
  - apply speeches_cue; [apply cueOf_cueLine; exact Hl | exact IH].
  - apply speeches_line; [|exact IH].
    intros sp Hsp. apply cueOf_cueLine in Hsp. congruence.
Qed.

Lemma speechesOf_unique (lines preface : list jsstring)
    (sps : list (jsstring * jsstring * list jsstring)) :
  speechesOf lines preface sps ->
  preface = untilCue lines /\ sps = speeches lines.
Proof.
  induction 1 as [|l sp rest block sps Hl _ [IH1 IH2]
                   |l rest block sps Hl _ [IH1 IH2]].
  - split; reflexivity.
  - apply cueOf_cueLine in Hl. cbn [untilCue speeches]. unfold isCue.
    rewrite Hl, IH1, IH2. split; reflexivity.
  - assert (Hc : cueOf l = None).
    { destruct (cueOf l) as [sp|] eqn:Hc; [|reflexivity].
      apply cueOf_cueLine in Hc. destruct (Hl sp Hc). }
    cbn [untilCue speeches]. unfold isCue.
    rewrite Hc, IH1, IH2. split; reflexivity.
Qed.

(** X14: the lines of a text are cut in one way at its cue lines (a line
    that starts with an upper-case letter, one or more upper-case letters
    or white space and a period, the trimmed group being the speaker, two
    code units long at least): the preface before the first cue line, and
    the speeches, each a cue line with the lines up to the next cue line.
    The passages of [chunkBySpeak] are those of the speeches, in order: the
    speaker of a passage is the one of the cue line, and its text is made
    of the lines of the speech, the cue line first, each followed by a line
    feed, and trimmed; the preface is in no passage.  So there is one
    passage for each cue line, and each passage has a speaker of two code
    units or more and a non-empty trimmed text that starts with it. *)
Theorem chunkBySpeak_speeches (text0 : jsstring) :
  (exists (preface : list jsstring)
          (sps : list (jsstring * jsstring * list jsstring)),
     speechesOf (split 10%N text0) preface sps
     /\ (forall preface' sps',
           speechesOf (split 10%N text0) preface' sps' ->
           preface' = preface /\ sps' = sps)
     /\ chunkBySpeak text0 = map speechOf sps)
  /\ (forall line sp : jsstring, cueOf line = Some sp <-> cueLine line sp)
  /\ Forall speechPassage (chunkBySpeak text0)
  /\ length (chunkBySpeak text0) = length (filter isCue (split 10%N text0)).
Proof.
  split; [|split].
  - exists (untilCue (split 10%N text0)), (speeches (split 10%N text0)).
    split; [apply speechesOf_speeches|].
    split; [intros preface' sps' H; exact (speechesOf_unique _ _ _ H)|].
    unfold chunkBySpeak.
    destruct (speakFold_speeches (split 10%N text0)
                {| passages := []; speakChunk := []; speakSpeaker := [] |})
      as [H _].
    exact (H eq_refl).
  - exact cueOf_cueLine.
  - exact (chunkBySpeak_one_passage_per_cue text0).
Qed.

(** A preface and two speeches: the preface is in no passage, and each
    passage starts with its cue line. *)
Example dialogue_passages :
  chunkBySpeak dialogue
  = [ {| pSpeaker := Some (lit "FIRST CLOWN");
         pText := joinLines [ lit "FIRST CLOWN. Is she to be buried?";
                              lit "in Christian burial" ] |};
      {| pSpeaker := Some (lit "SECOND CLOWN");
         pText := lit "SECOND CLOWN. I tell thee she is." |} ]
  /\ speechesOf (split 10%N dialogue) [ lit "Enter two clowns" ]
       [ (lit "FIRST CLOWN. Is she to be buried?", lit "FIRST CLOWN",
          [ lit "in Christian burial" ]);
         (lit "SECOND CLOWN. I tell thee she is.", lit "SECOND CLOWN", []) ].
Proof.
  split; [vm_compute; reflexivity|].
  replace [lit "Enter two clowns"] with (untilCue (split 10%N dialogue))
    by (vm_compute; reflexivity).
  replace [ (lit "FIRST CLOWN. Is she to be buried?", lit "FIRST CLOWN",
             [ lit "in Christian burial" ]);
            (lit "SECOND CLOWN. I tell thee she is.", lit "SECOND CLOWN", []) ]
    with (speeches (split 10%N dialogue)) by (vm_compute; reflexivity).
  apply speechesOf_speeches.
Qed.
